(** * BusTub storage core: LRU-K replacer, extendible hash table,
      buffer pool manager and B+Tree index.

    A shallow embedding of the C++ sources.  Every class becomes a record
    of its member variables, every member function a function from the
    old object to the new one.  Integers of the source ([page_id_t],
    [frame_id_t], [int], [int64_t]) are [Z]; sizes ([size_t]) are [nat].
    Containers: [std::unordered_map] is a [gmap], [std::list] and
    [std::vector] are lists, [std::set] with a comparator is a list kept
    in the order of that comparator. *)

From Stdlib Require Import ZArith Lia Bool Sorted.
From stdpp Require Import gmap list.

Open Scope Z_scope.

(** ** Outcomes of a member function

    [Ok a] is a normal return.  [Exit] is [exit(1)].  [Undefined] is a
    dereference the source does not guard (a null [Page *], [end()] of a
    map).  [OutOfFuel] is only ever produced by the fuel of a loop of the
    embedding, never by the source. *)

Inductive result (A : Type) : Type :=
| Ok (a : A)
| Exit
| Undefined
| OutOfFuel.

Arguments Ok {A} a.
Arguments Exit {A}.
Arguments Undefined {A}.
Arguments OutOfFuel {A}.

Definition result_bind {A B : Type} (f : A → result B) (r : result A) : result B :=
  match r with
  | Ok a => f a
  | Exit => Exit
  | Undefined => Undefined
  | OutOfFuel => OutOfFuel
  end.

#[global] Instance result_ret : MRet result := λ A a, Ok a.
#[global] Instance result_mbind : MBind result := λ A B f r, result_bind f r.

Definition is_Ok {A : Type} (r : result A) : bool :=
  match r with Ok _ => true | _ => false end.

(** [p ? Undefined : Ok a] for an unguarded pointer. *)
Definition deref {A : Type} (o : option A) : result A :=
  match o with Some a => Ok a | None => Undefined end.

Definition INVALID_PAGE_ID : Z := -1.
Definition HEADER_PAGE_ID : Z := 0.

(** * LRU-K replacer (lru_k_replacer.h, lru_k_replacer.cpp) *)

Module LRUKReplacer.

(** [FrameAccessHistory]: [access_history_] is a [std::list<int64_t>]
    whose front is the head of the list. *)
Record FrameAccessHistory : Type := mkFrameAccessHistory {
  is_evictable_ : bool;
  look_back_size_ : nat;
  frame_id_ : Z;
  access_history_ : list Z
}.

#[global] Instance FrameAccessHistory_eq_dec : EqDecision FrameAccessHistory.
Proof. solve_decision. Defined.

(** The constructor: [is_evictable = false] by default, empty history. *)
Definition NewFrameAccessHistory (frame_id : Z) (look_back_size : nat) : FrameAccessHistory :=
  mkFrameAccessHistory false look_back_size frame_id [].

(** [std::list::back()]. *)
Definition back (l : list Z) : Z := List.last l 0.

Definition GetAccessHistorySize (f : FrameAccessHistory) : nat := length (access_history_ f).
Definition GetLookBackSize (f : FrameAccessHistory) : nat := look_back_size_ f.
Definition GetKthAccessRecord (f : FrameAccessHistory) : Z := back (access_history_ f).
Definition GetLastAccessRecord (f : FrameAccessHistory) : Z := back (access_history_ f).
Definition GetFrameId (f : FrameAccessHistory) : Z := frame_id_ f.
Definition IsEvictable (f : FrameAccessHistory) : bool := is_evictable_ f.

Definition FrameSetEvictable (evictable : bool) (f : FrameAccessHistory) : FrameAccessHistory :=
  mkFrameAccessHistory evictable (look_back_size_ f) (frame_id_ f) (access_history_ f).

(** [FrameAccessHistory::RecordAccess].  [nanos] is the reading of
    [system_clock::now()], an input of the embedding.  [pop_back] drops
    the oldest timestamp once [look_back_size_] are stored.  This is the
    function for [look_back_size_ >= 1]: with [look_back_size_ = 0] the
    source calls [pop_back] on an empty list, which is undefined, and the
    list is kept empty here. *)
Definition FrameRecordAccess (nanos : Z) (f : FrameAccessHistory) : FrameAccessHistory :=
  let history_size := length (access_history_ f) in
  let popped :=
    if (look_back_size_ f <=? history_size)%nat
    then removelast (access_history_ f)
    else access_history_ f in
  mkFrameAccessHistory (is_evictable_ f) (look_back_size_ f) (frame_id_ f) (nanos :: popped).

(** [FrameAccessHistoryOrderComparison::operator()], the strict order of
    [frame_history_set_]. *)
Definition FrameAccessHistoryOrderComparison (frame1 frame2 : FrameAccessHistory) : bool :=
  let frame1_size := GetAccessHistorySize frame1 in
  let frame2_size := GetAccessHistorySize frame2 in
  let frame1_hist_available := (frame1_size =? GetLookBackSize frame1)%nat in
  let frame2_hist_available := (frame2_size =? GetLookBackSize frame2)%nat in
  let return_val :=
    if frame1_hist_available && negb frame2_hist_available then false
    else if frame2_hist_available && negb frame1_hist_available then true
    else if negb frame2_hist_available && negb frame1_hist_available
         then GetLastAccessRecord frame1 <=? GetLastAccessRecord frame2
         else GetKthAccessRecord frame1 <=? GetKthAccessRecord frame2 in
  negb return_val.

(** [std::set::insert]: the element goes to its place in the order; an
    element equivalent to one already stored (neither is less than the
    other) is not inserted. *)
Fixpoint set_insert (x : FrameAccessHistory) (s : list FrameAccessHistory) : list FrameAccessHistory :=
  match s with
  | [] => [x]
  | y :: s' =>
      if FrameAccessHistoryOrderComparison x y then x :: s
      else if FrameAccessHistoryOrderComparison y x then y :: set_insert x s'
      else s
  end.

(** [rbegin()]: the greatest element. *)
Definition rbegin (s : list FrameAccessHistory) : option FrameAccessHistory := List.last (Some <$> s) None.

(** The replacer.  [frame_index_map_] owns the history objects;
    [frame_history_set_] holds the same objects (shared pointers) in
    comparator order.  The source takes an object out of the set before
    every change to it ([RecordAccess], [SetEvictable]) and puts the
    changed object back, so an element of the set is written here as the
    value of the object at the time it was inserted. *)
Record t : Type := mk {
  k_ : nat;
  replacer_size_ : nat;
  frame_index_map_ : gmap Z FrameAccessHistory;
  frame_history_set_ : list FrameAccessHistory
}.

Definition New (num_frames k : nat) : t := mk k num_frames ∅ [].

(** [std::find_if] on the frame id, then [erase] of the first match. *)
Fixpoint RemoveFrameFromSetInternal (frame_id : Z) (s : list FrameAccessHistory) : list FrameAccessHistory :=
  match s with
  | [] => []
  | fr :: s' =>
      if GetFrameId fr =? frame_id then s'
      else fr :: RemoveFrameFromSetInternal frame_id s'
  end.

Definition Evict (r : t) : option Z * t :=
  match rbegin (frame_history_set_ r) with
  | None => (None, r)
  | Some frame_ptr =>
      let frame_id := GetFrameId frame_ptr in
      let s := RemoveFrameFromSetInternal (GetFrameId frame_ptr) (frame_history_set_ r) in
      (Some frame_id, mk (k_ r) (replacer_size_ r) (delete frame_id (frame_index_map_ r)) s)
  end.

Definition RecordAccess (nanos : Z) (frame_id : Z) (r : t) : t :=
  match frame_index_map_ r !! frame_id with
  | None =>
      let new_frame := FrameRecordAccess nanos (NewFrameAccessHistory frame_id (k_ r)) in
      mk (k_ r) (replacer_size_ r)
         (<[frame_id := new_frame]> (frame_index_map_ r))
         (set_insert new_frame (frame_history_set_ r))
  | Some frame =>
      let s := RemoveFrameFromSetInternal frame_id (frame_history_set_ r) in
      let frame' := FrameRecordAccess nanos frame in
      mk (k_ r) (replacer_size_ r)
         (<[frame_id := frame']> (frame_index_map_ r))
         (if IsEvictable frame' then set_insert frame' s else s)
  end.

(** [frame_index_map_.find(frame_id)->second] is not guarded. *)
Definition SetEvictable (frame_id : Z) (set_evictable : bool) (r : t) : result t :=
  frame ← deref (frame_index_map_ r !! frame_id);
  let s := RemoveFrameFromSetInternal frame_id (frame_history_set_ r) in
  let frame' := FrameSetEvictable set_evictable frame in
  Ok (mk (k_ r) (replacer_size_ r)
         (<[frame_id := frame']> (frame_index_map_ r))
         (if set_evictable && (length s <? replacer_size_ r)%nat
          then set_insert frame' s else s)).

Definition Remove (frame_id : Z) (r : t) : result t :=
  match frame_index_map_ r !! frame_id with
  | None => Ok r
  | Some frame =>
      if IsEvictable frame
      then Ok (mk (k_ r) (replacer_size_ r)
                  (delete frame_id (frame_index_map_ r))
                  (RemoveFrameFromSetInternal frame_id (frame_history_set_ r)))
      else Exit
  end.

Definition Size (r : t) : nat := length (frame_history_set_ r).

(** The frames currently marked evictable, and their number. *)
Definition evictable_frames (r : t) : gmap Z FrameAccessHistory :=
  filter (λ kv, is_evictable_ kv.2 = true) (frame_index_map_ r).

Definition evictable_count (r : t) : nat := size (evictable_frames r).

(** A sequence of calls.  Each [RecordAccess] carries its clock reading. *)
Inductive op : Type :=
| OpRecordAccess (nanos : Z) (frame_id : Z)
| OpSetEvictable (frame_id : Z) (set_evictable : bool)
| OpEvict
| OpRemove (frame_id : Z).

Definition step (o : op) (r : t) : result t :=
  match o with
  | OpRecordAccess nanos frame_id => Ok (RecordAccess nanos frame_id r)
  | OpSetEvictable frame_id b => SetEvictable frame_id b r
  | OpEvict => Ok (Evict r).2
  | OpRemove frame_id => Remove frame_id r
  end.

Fixpoint run (ops : list op) (r : t) : result t :=
  match ops with
  | [] => Ok r
  | o :: ops' => r' ← step o r; run ops' r'
  end.

End LRUKReplacer.

(** * Extendible hash table (extendible_hash_table.cpp) *)

Module ExtendibleHashTable.

Section table.

Context {K V : Type} `{EqDecision K}.

(** [std::hash<K>()(key)], a [size_t]. *)
Variable hash : K → Z.

(** [Bucket]: [size_] is the capacity, [list_] the entries in insertion
    order.  *)
Record Bucket : Type := mkBucket {
  size_ : nat;
  depth_ : Z;
  list_ : list (K * V)
}.

(** Modelled from the spec: the inline members of [Bucket] declared in
    extendible_hash_table.h, which is not among the sources.  A bucket
    "holds up to [bucket_size] entries", so it is full when it holds that
    many. *)
Definition IsFull (b : Bucket) : bool := (length (list_ b) =? size_ b)%nat.
Definition GetDepth (b : Bucket) : Z := depth_ b.
Definition IncrementDepth (b : Bucket) : Bucket := mkBucket (size_ b) (depth_ b + 1) (list_ b).
Definition GetItems (b : Bucket) : list (K * V) := list_ b.
Definition GetFirstItem (b : Bucket) : result K := deref (fst <$> head (list_ b)).

Fixpoint list_find_key (key : K) (l : list (K * V)) : option V :=
  match l with
  | [] => None
  | entry :: l' => if decide (entry.1 = key) then Some entry.2 else list_find_key key l'
  end.

Definition BucketFind (key : K) (b : Bucket) : option V := list_find_key key (list_ b).

Fixpoint list_erase_key (key : K) (l : list (K * V)) : bool * list (K * V) :=
  match l with
  | [] => (false, [])
  | entry :: l' =>
      if decide (entry.1 = key) then (true, l')
      else let r := list_erase_key key l' in (r.1, entry :: r.2)
  end.

Definition BucketRemove (key : K) (b : Bucket) : bool * Bucket :=
  let r := list_erase_key key (list_ b) in
  (r.1, mkBucket (size_ b) (depth_ b) r.2).

(** The loop of [Bucket::Insert] over [list_]: overwrite the value of the
    first entry with this key, or report that there is none. *)
Fixpoint list_assign_key (key : K) (value : V) (l : list (K * V)) : option (list (K * V)) :=
  match l with
  | [] => None
  | entry :: l' =>
      if decide (entry.1 = key) then Some ((entry.1, value) :: l')
      else cons entry <$> list_assign_key key value l'
  end.

Definition BucketInsert (key : K) (value : V) (b : Bucket) : bool * Bucket :=
  if IsFull b then (false, b)
  else match list_assign_key key value (list_ b) with
       | Some l => (true, mkBucket (size_ b) (depth_ b) l)
       | None => (true, mkBucket (size_ b) (depth_ b) (list_ b ++ [(key, value)]))
       end.

(** The table.  [dir_] is a vector of shared pointers: several slots may
    point to one bucket, and a bucket is changed through any of them.
    [buckets_] is the store of the buckets made so far; a pointer is the
    position of its bucket in the store. *)
Record t : Type := mk {
  global_depth_ : Z;
  bucket_size_ : nat;
  num_buckets_ : Z;
  dir_ : list nat;
  buckets_ : list Bucket
}.

Definition New (bucket_size : nat) : t :=
  mk 1 bucket_size 2 [0%nat; 1%nat] [mkBucket bucket_size 1 []; mkBucket bucket_size 1 []].

Definition IndexOf (key : K) (h : t) : Z :=
  let mask := Z.shiftl 1 (global_depth_ h) - 1 in
  Z.land (hash key) mask.

Definition GetGlobalDepthInternal (h : t) : Z := global_depth_ h.
Definition GetNumBucketsInternal (h : t) : Z := num_buckets_ h.

(** [dir_.at(i)]: an index outside the vector throws [std::out_of_range],
    which nothing catches. *)
Definition dir_at (h : t) (dir_index : Z) : result nat :=
  if dir_index <? 0 then Exit
  else match dir_ h !! Z.to_nat dir_index with
       | Some bucket => Ok bucket
       | None => Exit
       end.

Definition GetLocalDepthInternal (dir_index : Z) (h : t) : result Z :=
  bucket ← deref (dir_ h !! Z.to_nat dir_index);
  b ← deref (buckets_ h !! bucket);
  Ok (GetDepth b).

Definition Find (key : K) (h : t) : result (option V) :=
  let dir_index := IndexOf key h in
  bucket ← dir_at h dir_index;
  b ← deref (buckets_ h !! bucket);
  Ok (BucketFind key b).

Definition Remove (key : K) (h : t) : result (bool * t) :=
  let dir_index := IndexOf key h in
  bucket ← dir_at h dir_index;
  b ← deref (buckets_ h !! bucket);
  let r := BucketRemove key b in
  Ok (r.1, mk (global_depth_ h) (bucket_size_ h) (num_buckets_ h) (dir_ h)
              (<[bucket := r.2]> (buckets_ h))).

(** The directory slot written at step [i] of the last loop of
    [SplitBucket]. *)
Definition split_slot (dir_index depth i : Z) : Z :=
  if i =? 0 then Z.land dir_index (Z.shiftl 1 depth - 1)
  else Z.lor (Z.shiftl i depth) (Z.land dir_index (Z.shiftl 1 depth - 1)).

Definition SplitBucket (bucket : nat) (dir_index : Z) (h : t) : result t :=
  b ← deref (buckets_ h !! bucket);
  first_item ← GetFirstItem b;
  let cur_key_hash := hash first_item in
  let incremented_depth_bit_mask := Z.shiftl 1 (GetDepth b) in
  let cur_key_hash_incremented_depth_bit := Z.land cur_key_hash incremented_depth_bit_mask in
  let new_bucket := length (buckets_ h) in
  let moved :=
    foldl (λ (acc : Bucket * list K) (item : K * V),
             if Z.land (hash item.1) incremented_depth_bit_mask =? cur_key_hash_incremented_depth_bit
             then acc
             else ((BucketInsert item.1 item.2 acc.1).2, acc.2 ++ [item.1]))
          (mkBucket (bucket_size_ h) (GetDepth b + 1) [], []) (GetItems b) in
  let b' := foldl (λ (acc : Bucket) (remove_k : K), (BucketRemove remove_k acc).2) b moved.2 in
  let dir' :=
    foldl (λ (dir : list nat) (i : Z),
             let idx := split_slot dir_index (GetDepth b') i in
             if Z.land idx incremented_depth_bit_mask =? cur_key_hash_incremented_depth_bit
             then <[Z.to_nat idx := bucket]> dir
             else <[Z.to_nat idx := new_bucket]> dir)
          (dir_ h) (seqZ 0 (Z.shiftl 1 (GetGlobalDepthInternal h - GetDepth b'))) in
  Ok (mk (global_depth_ h) (bucket_size_ h) (num_buckets_ h) dir'
         (<[bucket := IncrementDepth b']> (buckets_ h) ++ [moved.1])).

(** [InsertInternal] calls itself after a split; [fuel] bounds the number
    of calls. *)
Fixpoint InsertInternal (fuel : nat) (key : K) (value : V) (h : t) : result t :=
  match fuel with
  | O => OutOfFuel
  | S fuel' =>
      let dir_index := IndexOf key h in
      bucket ← dir_at h dir_index;
      b ← deref (buckets_ h !! bucket);
      if negb (IsFull b) then
        Ok (mk (global_depth_ h) (bucket_size_ h) (num_buckets_ h) (dir_ h)
               (<[bucket := (BucketInsert key value b).2]> (buckets_ h)))
      else if bool_decide (is_Some (BucketFind key b)) then
        Ok (mk (global_depth_ h) (bucket_size_ h) (num_buckets_ h) (dir_ h)
               (<[bucket := (BucketInsert key value b).2]> (buckets_ h)))
      else
        let h1 :=
          if GetDepth b =? GetGlobalDepthInternal h
          then mk (global_depth_ h + 1) (bucket_size_ h) (num_buckets_ h)
                  (dir_ h ++ dir_ h) (buckets_ h)
          else h in
        h2 ← SplitBucket bucket dir_index h1;
        InsertInternal fuel' key value h2
  end.

Definition Insert (fuel : nat) (key : K) (value : V) (h : t) : result t :=
  InsertInternal fuel key value h.

End table.

Arguments Bucket : clear implicits.
Arguments t : clear implicits.

(** [std::hash<int>] of the standard library in use is the conversion of
    the [int] to [size_t]. *)
Definition std_hash_int (key : Z) : Z := key mod 2 ^ 64.

End ExtendibleHashTable.

(** * Buffer pool manager (buffer_pool_manager_instance.cpp, the first
      translation unit of the file) *)

Module BufferPoolManagerInstance.

Section pool.

(** The payload of a page is never inspected by the pool. *)
Context {Data : Type}.
Variable zeroed : Data.

(** Modelled from the spec: [Page] (page.h is not among the sources) with
    its metadata [page_id] ([INVALID_PAGE_ID] when free), [pin_count] and
    [is_dirty]; the latch is left out. *)
Record Page : Type := mkPage {
  data_ : Data;
  page_id_ : Z;
  pin_count_ : Z;
  is_dirty_ : bool
}.

Definition GetData (p : Page) : Data := data_ p.
Definition GetPageId (p : Page) : Z := page_id_ p.
Definition GetPinCount (p : Page) : Z := pin_count_ p.
Definition IsDirty (p : Page) : bool := is_dirty_ p.
Definition ResetMemory (p : Page) : Page := mkPage zeroed (page_id_ p) (pin_count_ p) (is_dirty_ p).
Definition NewPage_ : Page := mkPage zeroed INVALID_PAGE_ID 0 false.

(** Modelled from the spec: the disk manager, an external collaborator
    with [ReadPage] and [WritePage].  It is the list of the [WritePage]
    calls made so far, the latest first; [ReadPage] returns what was last
    written under the page id, or zeroes. *)
Definition DiskManager : Type := list (Z * Data).

Definition WritePage (page_id : Z) (data : Data) (d : DiskManager) : DiskManager :=
  (page_id, data) :: d.

Fixpoint ReadPage (page_id : Z) (d : DiskManager) : Data :=
  match d with
  | [] => zeroed
  | w :: d' => if w.1 =? page_id then w.2 else ReadPage page_id d'
  end.

Record t : Type := mk {
  pool_size_ : nat;
  pages_ : list Page;
  page_table_ : ExtendibleHashTable.t Z Z;
  replacer_ : LRUKReplacer.t;
  free_list_ : list Z;
  next_page_id_ : Z;
  disk_manager_ : DiskManager
}.

Abbreviation hash := ExtendibleHashTable.std_hash_int.

(** The constructor.  [bucket_size] stands for the constant
    [bucket_size_] of the header. *)
Definition New (pool_size : nat) (bucket_size : nat) (replacer_k : nat) : t :=
  mk pool_size (replicate pool_size NewPage_)
     (ExtendibleHashTable.New bucket_size)
     (LRUKReplacer.New pool_size replacer_k)
     (seqZ 0 (Z.of_nat pool_size)) 0 [].

(** [&pages_[frame_id]], an unchecked array access. *)
Definition page_at (frame_id : Z) (s : t) : result Page :=
  if frame_id <? 0 then Undefined else deref (pages_ s !! Z.to_nat frame_id).

Definition set_page (frame_id : Z) (p : Page) (s : t) : t :=
  mk (pool_size_ s) (<[Z.to_nat frame_id := p]> (pages_ s)) (page_table_ s)
     (replacer_ s) (free_list_ s) (next_page_id_ s) (disk_manager_ s).

Definition set_page_table (h : ExtendibleHashTable.t Z Z) (s : t) : t :=
  mk (pool_size_ s) (pages_ s) h (replacer_ s) (free_list_ s) (next_page_id_ s) (disk_manager_ s).

Definition set_replacer (r : LRUKReplacer.t) (s : t) : t :=
  mk (pool_size_ s) (pages_ s) (page_table_ s) r (free_list_ s) (next_page_id_ s) (disk_manager_ s).

Definition set_free_list (l : list Z) (s : t) : t :=
  mk (pool_size_ s) (pages_ s) (page_table_ s) (replacer_ s) l (next_page_id_ s) (disk_manager_ s).

Definition set_disk_manager (d : DiskManager) (s : t) : t :=
  mk (pool_size_ s) (pages_ s) (page_table_ s) (replacer_ s) (free_list_ s) (next_page_id_ s) d.

(** [next_page_id_++] on a [std::atomic<page_id_t>]: 32-bit wrap-around. *)
Definition wrap_int32 (z : Z) : Z := (z + 2 ^ 31) mod 2 ^ 32 - 2 ^ 31.

Definition AllocatePage (s : t) : Z * t :=
  (next_page_id_ s,
   mk (pool_size_ s) (pages_ s) (page_table_ s) (replacer_ s) (free_list_ s)
      (wrap_int32 (next_page_id_ s + 1)) (disk_manager_ s)).

(** [FlushPgImpInternal] on the page of a frame: one [WritePage], then the
    dirty flag is cleared. *)
Definition FlushPgImpInternal (frame_id : Z) (s : t) : result t :=
  page ← page_at frame_id s;
  let s1 := set_disk_manager (WritePage (GetPageId page) (GetData page) (disk_manager_ s)) s in
  Ok (set_page frame_id (mkPage (data_ page) (page_id_ page) (pin_count_ page) false) s1).

Definition ResetPageMetadata (p : Page) : Page :=
  mkPage (data_ p) INVALID_PAGE_ID (pin_count_ p) false.

Definition PostSuccessfullPageAllocation (fuel : nat) (nanos : Z) (page_id frame_id : Z) (s : t) : result t :=
  h ← ExtendibleHashTable.Insert hash fuel page_id frame_id (page_table_ s);
  let r := LRUKReplacer.RecordAccess nanos frame_id (replacer_ s) in
  r' ← LRUKReplacer.SetEvictable frame_id false r;
  Ok (set_replacer r' (set_page_table h s)).

(** [NewPgImp] returns the page id and the frame of the new page, or
    nothing ([nullptr]).  [fuel] is for the insertion into the page table,
    [nanos] the clock reading of the access it records. *)
Definition NewPgImp (fuel : nat) (nanos : Z) (s : t) : result (option (Z * Z) * t) :=
  match free_list_ s with
  | free_frame_id :: rest =>
      let '(new_page_id, s1) := AllocatePage s in
      let s2 := set_free_list rest s1 in
      free_page ← page_at free_frame_id s2;
      let p := ResetMemory (ResetPageMetadata free_page) in
      let s3 := set_page free_frame_id (mkPage (data_ p) new_page_id 1 (is_dirty_ p)) s2 in
      s4 ← PostSuccessfullPageAllocation fuel nanos new_page_id free_frame_id s3;
      Ok (Some (new_page_id, free_frame_id), s4)
  | [] =>
      match LRUKReplacer.Evict (replacer_ s) with
      | (Some free_frame_id, r) =>
          let s0 := set_replacer r s in
          free_page ← page_at free_frame_id s0;
          rm ← ExtendibleHashTable.Remove hash (GetPageId free_page) (page_table_ s0);
          let s1 := set_page_table rm.2 s0 in
          let '(new_page_id, s2) := AllocatePage s1 in
          s3 ← (if IsDirty free_page then FlushPgImpInternal free_frame_id s2 else Ok s2);
          free_page' ← page_at free_frame_id s3;
          let p := ResetMemory (ResetPageMetadata free_page') in
          let s4 := set_page free_frame_id (mkPage (data_ p) new_page_id 1 (is_dirty_ p)) s3 in
          s5 ← PostSuccessfullPageAllocation fuel nanos new_page_id free_frame_id s4;
          Ok (Some (new_page_id, free_frame_id), s5)
      | (None, _) => Ok (None, s)
      end
  end.

(** [FetchPgImp] returns the frame of the page, or nothing. *)
Definition FetchPgImp (fuel : nat) (nanos : Z) (page_id : Z) (s : t) : result (option Z * t) :=
  found ← ExtendibleHashTable.Find hash page_id (page_table_ s);
  match found with
  | Some frame_id =>
      existing_page ← page_at frame_id s;
      let s1 := set_page frame_id
                  (mkPage (data_ existing_page) (page_id_ existing_page)
                          (GetPinCount existing_page + 1) (is_dirty_ existing_page)) s in
      s2 ← PostSuccessfullPageAllocation fuel nanos page_id frame_id s1;
      Ok (Some frame_id, s2)
  | None =>
      match free_list_ s with
      | frame_id :: rest =>
          let s1 := set_free_list rest s in
          existing_page ← page_at frame_id s1;
          let p := ResetMemory existing_page in
          let s2 := set_page frame_id
                      (mkPage (ReadPage page_id (disk_manager_ s1)) page_id 1 (is_dirty_ p)) s1 in
          s3 ← PostSuccessfullPageAllocation fuel nanos page_id frame_id s2;
          Ok (Some frame_id, s3)
      | [] =>
          match LRUKReplacer.Evict (replacer_ s) with
          | (Some frame_id, r) =>
              let s0 := set_replacer r s in
              existing_page ← page_at frame_id s0;
              rm ← ExtendibleHashTable.Remove hash (GetPageId existing_page) (page_table_ s0);
              let s1 := set_page_table rm.2 s0 in
              s2 ← (if IsDirty existing_page then FlushPgImpInternal frame_id s1 else Ok s1);
              existing_page' ← page_at frame_id s2;
              let p := ResetMemory (ResetPageMetadata existing_page') in
              let s3 := set_page frame_id
                          (mkPage (ReadPage page_id (disk_manager_ s2)) page_id 1 (is_dirty_ p)) s2 in
              s4 ← PostSuccessfullPageAllocation fuel nanos page_id frame_id s3;
              Ok (Some frame_id, s4)
          | (None, _) => Ok (None, s)
          end
      end
  end.

Definition UnpinPgImp (page_id : Z) (is_dirty : bool) (s : t) : result (bool * t) :=
  found ← ExtendibleHashTable.Find hash page_id (page_table_ s);
  match found with
  | None => Ok (false, s)
  | Some frame_id =>
      existing_page ← page_at frame_id s;
      if GetPinCount existing_page <=? 0 then Ok (false, s)
      else
        let page1 :=
          if is_dirty
          then mkPage (data_ existing_page) (page_id_ existing_page) (pin_count_ existing_page) is_dirty
          else existing_page in
        if GetPinCount page1 =? 0 then
          r ← LRUKReplacer.SetEvictable frame_id true (replacer_ s);
          Ok (true, set_replacer r (set_page frame_id page1 s))
        else
          let page2 := mkPage (data_ page1) (page_id_ page1) (GetPinCount page1 - 1) (is_dirty_ page1) in
          if GetPinCount page2 =? 0 then
            r ← LRUKReplacer.SetEvictable frame_id true (replacer_ s);
            Ok (true, set_replacer r (set_page frame_id page2 s))
          else Ok (true, set_page frame_id page2 s)
  end.

Definition FlushPgImp (page_id : Z) (s : t) : result (bool * t) :=
  found ← ExtendibleHashTable.Find hash page_id (page_table_ s);
  match found with
  | None => Ok (false, s)
  | Some frame_id =>
      s' ← FlushPgImpInternal frame_id s;
      Ok (true, s')
  end.

(** The loop of [FlushAllPgsImp] over the frames [frame_id, pool_size_),
    [n] of them. *)
Fixpoint FlushAllPgsImp_loop (n : nat) (frame_id : Z) (s : t) : result t :=
  match n with
  | O => Ok s
  | S n' =>
      s' ← FlushPgImpInternal frame_id s;
      FlushAllPgsImp_loop n' (frame_id + 1) s'
  end.

Definition FlushAllPgsImp (s : t) : result t :=
  FlushAllPgsImp_loop (pool_size_ s) 0 s.

Definition DeletePgImp (page_id : Z) (s : t) : result (bool * t) :=
  found ← ExtendibleHashTable.Find hash page_id (page_table_ s);
  match found with
  | None => Ok (true, s)
  | Some frame_id =>
      existing_page ← page_at frame_id s;
      if 0 <? GetPinCount existing_page then Ok (false, s)
      else
        s1 ← (if IsDirty existing_page then FlushPgImpInternal frame_id s else Ok s);
        existing_page' ← page_at frame_id s1;
        let s2 := set_page frame_id (ResetMemory (ResetPageMetadata existing_page')) s1 in
        rm ← ExtendibleHashTable.Remove hash page_id (page_table_ s2);
        r ← LRUKReplacer.Remove frame_id (replacer_ s2);
        Ok (true, set_free_list (free_list_ s2 ++ [frame_id])
                    (set_replacer r (set_page_table rm.2 s2)))
  end.

End pool.

Arguments Page : clear implicits.
Arguments t : clear implicits.

End BufferPoolManagerInstance.

(** * B+Tree pages (b_plus_tree_leaf_page.cpp, b_plus_tree_internal_page.cpp)

    Keys are [GenericKey]s set from integers and compared by
    [GenericComparator], whose result is -1, 0 or 1; values are [RID]s in a
    leaf and page ids in an internal page, all integers here. *)

Module BPlusTreePage.

Inductive IndexPageType : Type := INVALID_INDEX_PAGE | LEAF_PAGE | INTERNAL_PAGE.

#[global] Instance IndexPageType_eq_dec : EqDecision IndexPageType.
Proof. solve_decision. Defined.

Definition comparator_ (a b : Z) : Z :=
  match a ?= b with
  | Lt => -1
  | Eq => 0
  | Gt => 1
  end.

(** A page of the tree: the header fields, the [next_page_id_] of a leaf
    and the slots of [array_].  The source overlays this structure on the
    bytes of a buffer-pool page; a slot keeps whatever was last written to
    it, also at and beyond [size_], and a slot never written reads as
    zeroes (a new page is zeroed).  Slots are not bounded by the page
    size here. *)
Record t : Type := mk {
  page_type_ : IndexPageType;
  size_ : Z;
  max_size_ : Z;
  parent_page_id_ : Z;
  page_id_ : Z;
  is_root_ : bool;
  next_page_id_ : Z;
  array_ : gmap Z (Z * Z)
}.

#[global] Instance t_eq_dec : EqDecision t.
Proof. solve_decision. Defined.

(** The page [NewPage] hands out: all bytes zero. *)
Definition zeroed : t := mk INVALID_INDEX_PAGE 0 0 0 0 false 0 ∅.

(** Modelled from the spec: the accessors of the common header
    (b_plus_tree_page.cpp is not among the sources). *)
Definition IsLeafPage (p : t) : bool := bool_decide (page_type_ p = LEAF_PAGE).
Definition GetSize (p : t) : Z := size_ p.
Definition GetMaxSize (p : t) : Z := max_size_ p.
Definition GetParentPageId (p : t) : Z := parent_page_id_ p.
Definition GetPageId (p : t) : Z := page_id_ p.
Definition GetNextPageId (p : t) : Z := next_page_id_ p.

Definition SetPageType (ty : IndexPageType) (p : t) : t :=
  mk ty (size_ p) (max_size_ p) (parent_page_id_ p) (page_id_ p) (is_root_ p) (next_page_id_ p) (array_ p).
Definition SetSize (size : Z) (p : t) : t :=
  mk (page_type_ p) size (max_size_ p) (parent_page_id_ p) (page_id_ p) (is_root_ p) (next_page_id_ p) (array_ p).
Definition IncreaseSize (amount : Z) (p : t) : t := SetSize (size_ p + amount) p.
Definition SetMaxSize (max_size : Z) (p : t) : t :=
  mk (page_type_ p) (size_ p) max_size (parent_page_id_ p) (page_id_ p) (is_root_ p) (next_page_id_ p) (array_ p).
Definition SetParentPageId (parent_page_id : Z) (p : t) : t :=
  mk (page_type_ p) (size_ p) (max_size_ p) parent_page_id (page_id_ p) (is_root_ p) (next_page_id_ p) (array_ p).
Definition SetPageId (page_id : Z) (p : t) : t :=
  mk (page_type_ p) (size_ p) (max_size_ p) (parent_page_id_ p) page_id (is_root_ p) (next_page_id_ p) (array_ p).
Definition SetIsRootPage (is_root : bool) (p : t) : t :=
  mk (page_type_ p) (size_ p) (max_size_ p) (parent_page_id_ p) (page_id_ p) is_root (next_page_id_ p) (array_ p).
Definition SetNextPageId (next_page_id : Z) (p : t) : t :=
  mk (page_type_ p) (size_ p) (max_size_ p) (parent_page_id_ p) (page_id_ p) (is_root_ p) next_page_id (array_ p).
Definition set_array (a : gmap Z (Z * Z)) (p : t) : t :=
  mk (page_type_ p) (size_ p) (max_size_ p) (parent_page_id_ p) (page_id_ p) (is_root_ p) (next_page_id_ p) a.

(** [array_[index]]. *)
Definition slot (a : gmap Z (Z * Z)) (index : Z) : Z * Z := default (0, 0) (a !! index).

Definition KeyAt (index : Z) (p : t) : Z := (slot (array_ p) index).1.
Definition ValueAt (index : Z) (p : t) : Z := (slot (array_ p) index).2.
Definition GetPairAtIndex (index : Z) (p : t) : Z * Z := slot (array_ p) index.

Definition PutKeyValuePairAt (idx : Z) (kv : Z * Z) (p : t) : t :=
  set_array (<[idx := kv]> (array_ p)) p.

(** [ShiftUnderlyingArray]: the slots [start_idx, size) are copied to
    [temp], then written one place to the right ([shift_by] is not
    used). *)
Definition ShiftUnderlyingArray (start_idx shift_by : Z) (p : t) : t :=
  let elems := GetSize p in
  let temp := array_ p in
  set_array (foldl (λ a i, <[i + 1 := slot temp i]> a) (array_ p)
                   (seqZ start_idx (elems - start_idx))) p.

Definition InsertKVPairAt (idx : Z) (kv : Z * Z) (p : t) : t :=
  IncreaseSize 1 (PutKeyValuePairAt idx kv (ShiftUnderlyingArray idx 1 p)).

Definition AddKVPair (kv : Z * Z) (p : t) : t :=
  let idx := GetSize p in
  IncreaseSize 1 (PutKeyValuePairAt idx kv (ShiftUnderlyingArray idx 1 p)).

(** The binary search shared by [FindIndexInLeafPageJustGreaterThanKey]
    ([low = 0]) and [FindIndexInInternalPageJustGreaterThanKey]
    ([low = 1]).  The interval shrinks at every turn, so [n] turns, [n] the
    number of slots searched, are enough. *)
Fixpoint binary_search (n : nat) (key : Z) (p : t) (low high result : Z) : Z :=
  match n with
  | O => if result =? -1 then GetSize p else result
  | S n' =>
      if low <=? high then
        let mid := Z.quot (low + high) 2 in
        let comparison := comparator_ key (KeyAt mid p) in
        if comparison =? 0 then -1
        else if comparison =? 1 then binary_search n' key p (mid + 1) high result
        else binary_search n' key p low (mid - 1) mid
      else if result =? -1 then GetSize p else result
  end.

Definition FindIndexInLeafPageJustGreaterThanKey (key : Z) (p : t) : Z :=
  binary_search (S (Z.to_nat (GetSize p))) key p 0 (GetSize p - 1) (-1).

Definition FindIndexInInternalPageJustGreaterThanKey (key : Z) (p : t) : Z :=
  binary_search (S (Z.to_nat (GetSize p))) key p 1 (GetSize p - 1) (-1).

(** The copying loop of [RemoveAtIndex]. *)
Definition shift_left (index : Z) (p : t) : gmap Z (Z * Z) :=
  foldl (λ a i, <[i - 1 := slot a i]> a) (array_ p)
        (seqZ (index + 1) (GetSize p - (index + 1))).

Module Leaf.

Definition Init (page_id parent_id max_size : Z) (p : t) : t :=
  SetNextPageId INVALID_PAGE_ID
    (SetSize 0 (SetMaxSize max_size (SetParentPageId parent_id (SetPageId page_id p)))).

Definition RemoveAtIndex (index : Z) (p : t) : bool * t :=
  let p' := set_array (shift_left index p) p in
  (true, SetSize (GetSize p' - 1) p').

End Leaf.

Module Internal.

Definition Init (page_id parent_id max_size : Z) (p : t) : t :=
  SetSize 0 (SetPageType INTERNAL_PAGE
    (SetMaxSize max_size (SetParentPageId parent_id (SetPageId page_id p)))).

(** [SetKeyAt]: [existing_pair] is a copy of the slot ([auto], not
    [auto &]); the key is assigned to the copy, which is then dropped. *)
Definition SetKeyAt (index : Z) (key : Z) (p : t) : t :=
  let existing_pair := slot (array_ p) index in
  let existing_pair := (key, existing_pair.2) in
  p.

Definition RemoveAtIndex (index : Z) (p : t) : bool * t :=
  if (index <? 0) || (GetSize p <=? index) then (false, p)
  else
    let p' := set_array (shift_left index p) p in
    (true, SetSize (GetSize p' - 1) p').

(** The loops of [FindNextPageId], [FindPreviousPageId] and
    [RemovePageId] over [idx, GetSize()), [n] turns at most. *)
Fixpoint FindNextPageId_loop (n : nat) (curr_page_id : Z) (p : t) (idx : Z) : Z :=
  match n with
  | O => INVALID_PAGE_ID
  | S n' =>
      if idx <? GetSize p then
        if (ValueAt idx p =? curr_page_id) && (idx <=? GetSize p - 1)
        then ValueAt (idx + 1) p
        else FindNextPageId_loop n' curr_page_id p (idx + 1)
      else INVALID_PAGE_ID
  end.

Definition FindNextPageId (curr_page_id : Z) (p : t) : Z :=
  FindNextPageId_loop (Z.to_nat (GetSize p)) curr_page_id p 0.

Fixpoint FindPreviousPageId_loop (n : nat) (curr_page_id : Z) (p : t) (idx : Z) : Z :=
  match n with
  | O => INVALID_PAGE_ID
  | S n' =>
      if idx <? GetSize p then
        if (ValueAt idx p =? curr_page_id) && (0 <? idx)
        then ValueAt (idx - 1) p
        else FindPreviousPageId_loop n' curr_page_id p (idx + 1)
      else INVALID_PAGE_ID
  end.

Definition FindPreviousPageId (curr_page_id : Z) (p : t) : Z :=
  FindPreviousPageId_loop (Z.to_nat (GetSize p)) curr_page_id p 0.

Fixpoint RemovePageId_loop (n : nat) (curr_page_id : Z) (p : t) (i : Z) : bool * t :=
  match n with
  | O => (false, p)
  | S n' =>
      if i <? GetSize p then
        if ValueAt i p =? curr_page_id then RemoveAtIndex i p
        else RemovePageId_loop n' curr_page_id p (i + 1)
      else (false, p)
  end.

Definition RemovePageId (curr_page_id : Z) (p : t) : bool * t :=
  RemovePageId_loop (Z.to_nat (GetSize p)) curr_page_id p 0.

End Internal.

End BPlusTreePage.

(** * B+Tree (b_plus_tree.cpp) *)

Module BPlusTree.

Import BPlusTreePage.

(** The tree on its pages alone.  [pages_] holds the tree pages by page
    id; a [Page *] is the page id, and what is done through it is done to
    [pages_] at that id, so two pointers to one page see each other's
    writes.  This is what the member functions do to the tree pages as
    long as every page they ask for is a tree page and the pool has a frame
    for every new page: the frames, the pin counts, the replacer and the
    pages that are not tree pages (the header page, [INVALID_PAGE_ID]) are
    left out here, and an id that holds no tree page is [Undefined].  The
    same functions on [BufferPoolManagerInstance], where a fetch may miss or
    find no frame, are in [BPlusTreeOnPool] below.  [header_record_] is the
    root page id that the header page (page 0) stores for this index, if it
    has a record for it. *)
Record t : Type := mk {
  root_page_id_ : Z;
  leaf_max_size_ : Z;
  internal_max_size_ : Z;
  pages_ : gmap Z BPlusTreePage.t;
  next_page_id_ : Z;
  header_record_ : option Z
}.

(** The constructor; page 0 is the header page, so the pool allocates
    from 1. *)
Definition New (leaf_max_size internal_max_size : Z) : t :=
  mk INVALID_PAGE_ID leaf_max_size internal_max_size ∅ 1 None.

Definition IsEmpty (s : t) : bool := root_page_id_ s =? INVALID_PAGE_ID.

Definition set_pages (m : gmap Z BPlusTreePage.t) (s : t) : t :=
  mk (root_page_id_ s) (leaf_max_size_ s) (internal_max_size_ s) m (next_page_id_ s) (header_record_ s).

Definition set_root (root : Z) (s : t) : t :=
  mk root (leaf_max_size_ s) (internal_max_size_ s) (pages_ s) (next_page_id_ s) (header_record_ s).

(** [buffer_pool_manager_->FetchPage(page_id)->GetData()]. *)
Definition FetchPage (page_id : Z) (s : t) : result BPlusTreePage.t :=
  deref (pages_ s !! page_id).

(** [buffer_pool_manager_->NewPage(&page_id)]. *)
Definition NewPage (s : t) : Z * t :=
  (next_page_id_ s,
   mk (root_page_id_ s) (leaf_max_size_ s) (internal_max_size_ s)
      (<[next_page_id_ s := BPlusTreePage.zeroed]> (pages_ s))
      (next_page_id_ s + 1) (header_record_ s)).

(** A member function called through a page pointer. *)
Definition on_page (page_id : Z) (f : BPlusTreePage.t → BPlusTreePage.t) (s : t) : result t :=
  p ← FetchPage page_id s;
  Ok (set_pages (<[page_id := f p]> (pages_ s)) s).

(** Modelled from the spec: [HeaderPage::UpdateRecord] (header_page.h is
    not among the sources).  "The header page persists the mapping
    index_name → root_page_id": the record of the index, if there is one,
    gets the new root page id. *)
Definition UpdateRecord (root_id : Z) (record : option Z) : option Z :=
  (λ _, root_id) <$> record.

(** [UpdateRootPageId()], always called with [insert_record = 0]. *)
Definition UpdateRootPageId (s : t) : t :=
  mk (root_page_id_ s) (leaf_max_size_ s) (internal_max_size_ s) (pages_ s) (next_page_id_ s)
     (UpdateRecord (root_page_id_ s) (header_record_ s)).

(** The [for] loop that GetValue, Insert and Remove run on an internal
    page: it stops at the first [i >= 1] whose key is greater than [key],
    or at [GetSize()]. *)
Fixpoint child_index_loop (n : nat) (key : Z) (p : BPlusTreePage.t) (i : Z) : Z :=
  match n with
  | O => i
  | S n' =>
      if i <? GetSize p then
        if comparator_ (KeyAt i p) key =? 1 then i
        else child_index_loop n' key p (i + 1)
      else i
  end.

Definition child_index (key : Z) (p : BPlusTreePage.t) : Z :=
  child_index_loop (Z.to_nat (GetSize p)) key p 1.

(** The [while (!curr_page->IsLeafPage())] loop, the same in GetValue,
    Insert and Remove: from the page [curr_page] down to a leaf, whose
    page pointer is returned. *)
Fixpoint descend (fuel : nat) (key : Z) (curr_page : Z) (s : t) : result Z :=
  match fuel with
  | O => OutOfFuel
  | S fuel' =>
      p ← FetchPage curr_page s;
      if IsLeafPage p then Ok curr_page
      else
        let i := child_index key p in
        let next_page_id := ValueAt (i - 1) p in
        descend fuel' key next_page_id s
  end.

(** The scan of the leaf in GetValue and Remove: the first index whose
    key compares equal. *)
Fixpoint leaf_scan (n : nat) (key : Z) (p : BPlusTreePage.t) (i : Z) : option Z :=
  match n with
  | O => None
  | S n' =>
      if i <? GetSize p then
        if comparator_ key (KeyAt i p) =? 0 then Some i
        else leaf_scan n' key p (i + 1)
      else None
  end.

(** [GetValue]: the values pushed to [result], and the return value. *)
Definition GetValue (fuel : nat) (key : Z) (s : t) : result (bool * list Z) :=
  leaf ← descend fuel key (root_page_id_ s) s;
  curr_page_as_leaf ← FetchPage leaf s;
  match leaf_scan (Z.to_nat (GetSize curr_page_as_leaf)) key curr_page_as_leaf 0 with
  | Some i => Ok (true, [ValueAt i curr_page_as_leaf])
  | None => Ok (false, [])
  end.

Definition InsertAndUpdateParentPage (insertTo : Z) (idx key value : Z) (s : t) : result t :=
  s1 ← on_page insertTo (InsertKVPairAt idx (key, value)) s;
  insert_to ← FetchPage insertTo s1;
  on_page value (SetParentPageId (GetPageId insert_to)) s1.

(** The loop of [InsertIntoInternalPage] that moves the slots
    [i, GetSize()) of [internalPage] to the new page and re-parents the
    children. *)
Fixpoint move_children_loop (fuel : nat) (internalPage new_internal_page new_internal_page_id mid i : Z)
    (s : t) : result t :=
  match fuel with
  | O => OutOfFuel
  | S fuel' =>
      ip ← FetchPage internalPage s;
      if i <? GetSize ip then
        let childPageId := ValueAt i ip in
        s1 ← on_page new_internal_page (PutKeyValuePairAt (i - mid) (KeyAt i ip, childPageId)) s;
        s2 ← on_page childPageId (SetParentPageId new_internal_page_id) s1;
        move_children_loop fuel' internalPage new_internal_page new_internal_page_id mid (i + 1) s2
      else Ok s
  end.

Fixpoint InsertIntoInternalPage (fuel : nat) (internalPage : Z) (key value : Z) (s : t) : result (bool * t) :=
  match fuel with
  | O => OutOfFuel
  | S fuel' =>
      ip ← FetchPage internalPage s;
      if GetSize ip =? internal_max_size_ s then
        let '(new_internal_page_id, s1) := NewPage s in
        let new_internal_page := new_internal_page_id in
        s2 ← on_page new_internal_page
               (λ p, SetIsRootPage false (SetPageType INTERNAL_PAGE
                       (Internal.Init new_internal_page_id INVALID_PAGE_ID (leaf_max_size_ s1) p))) s1;
        ip ← FetchPage internalPage s2;
        let index_to_insert := FindIndexInInternalPageJustGreaterThanKey key ip in
        if index_to_insert =? -1 then Ok (false, s2)
        else
          let mid := Z.quot (GetSize ip) 2 in
          let mid := if mid <? index_to_insert then mid + 1 else mid in
          let count_being_moved := GetSize ip - mid in
          s3 ← move_children_loop fuel' internalPage new_internal_page new_internal_page_id mid mid s2;
          s4 ← on_page internalPage (λ p, SetIsRootPage false (SetSize mid p)) s3;
          s5 ← on_page new_internal_page (SetSize count_being_moved) s4;
          s6 ← (if (index_to_insert <? internal_max_size_ s5) && (index_to_insert <=? mid)
                then InsertAndUpdateParentPage internalPage index_to_insert key value s5
                else InsertAndUpdateParentPage new_internal_page (index_to_insert - mid) key value s5);
          ip ← FetchPage internalPage s6;
          let parent_page_id := GetParentPageId ip in
          '(parent_page, parent_page_id, s7) ←
            (if parent_page_id =? INVALID_PAGE_ID then
               let '(new_parent_page_id, s61) := NewPage s6 in
               s62 ← on_page new_parent_page_id
                       (λ p, SetIsRootPage true
                               (Internal.Init new_parent_page_id INVALID_PAGE_ID (internal_max_size_ s61) p)) s61;
               let s63 := UpdateRootPageId (set_root new_parent_page_id s62) in
               ip ← FetchPage internalPage s63;
               r ← InsertIntoInternalPage fuel' new_parent_page_id (KeyAt 0 ip) (GetPageId ip) s63;
               s64 ← on_page internalPage (SetParentPageId new_parent_page_id) r.2;
               Ok (new_parent_page_id, new_parent_page_id, s64)
             else
               _ ← FetchPage parent_page_id s6;
               Ok (parent_page_id, parent_page_id, s6));
          nip ← FetchPage new_internal_page s7;
          r ← InsertIntoInternalPage fuel' parent_page (KeyAt 0 nip) new_internal_page_id s7;
          s8 ← on_page new_internal_page (SetParentPageId parent_page_id) r.2;
          Ok (true, s8)
      else
        let index_to_insert := FindIndexInInternalPageJustGreaterThanKey key ip in
        if index_to_insert =? -1 then Ok (false, s)
        else
          s1 ← InsertAndUpdateParentPage internalPage index_to_insert key value s;
          Ok (true, s1)
  end.

(** The loop of [SplitLeafPageAndAddKey] that copies the slots
    [i, GetSize()) of the leaf to the new leaf. *)
Fixpoint move_pairs_loop (fuel : nat) (leafPage new_leaf_page mid i : Z) (s : t) : result t :=
  match fuel with
  | O => OutOfFuel
  | S fuel' =>
      lp ← FetchPage leafPage s;
      if i <? GetSize lp then
        s1 ← on_page new_leaf_page (PutKeyValuePairAt (i - mid) (KeyAt i lp, ValueAt i lp)) s;
        move_pairs_loop fuel' leafPage new_leaf_page mid (i + 1) s1
      else Ok s
  end.

(** [SplitLeafPageAndAddKey] returns a [page_id_t]: -1 for a key the leaf
    already holds, else the id of the new leaf. *)
Definition SplitLeafPageAndAddKey (fuel : nat) (leafPage : Z) (key value : Z) (s : t) : result (Z * t) :=
  lp ← FetchPage leafPage s;
  let index_to_insert := FindIndexInLeafPageJustGreaterThanKey key lp in
  if index_to_insert =? -1 then Ok (-1, s)
  else
    let '(new_leaf_page_id, s1) := NewPage s in
    let new_leaf_page := new_leaf_page_id in
    s2 ← on_page new_leaf_page
           (λ p, SetIsRootPage false (SetPageType LEAF_PAGE
                   (Leaf.Init new_leaf_page_id INVALID_PAGE_ID (leaf_max_size_ s1) p))) s1;
    lp ← FetchPage leafPage s2;
    let mid := Z.quot (GetSize lp) 2 in
    let mid := if mid <? index_to_insert then mid + 1 else mid in
    let count_being_moved := GetSize lp - mid in
    s3 ← move_pairs_loop fuel leafPage new_leaf_page mid mid s2;
    s4 ← on_page leafPage
           (λ p, SetIsRootPage false (SetNextPageId new_leaf_page_id (SetSize mid p))) s3;
    s5 ← on_page new_leaf_page (SetSize count_being_moved) s4;
    s6 ← (if (index_to_insert <? leaf_max_size_ s5) && (index_to_insert <=? mid)
          then on_page leafPage (InsertKVPairAt index_to_insert (key, value)) s5
          else on_page new_leaf_page (InsertKVPairAt (index_to_insert - mid) (key, value)) s5);
    lp ← FetchPage leafPage s6;
    let parent_page_id := GetParentPageId lp in
    '(parent_page, s7) ←
      (if parent_page_id =? INVALID_PAGE_ID then
         let '(new_parent_page_id, s61) := NewPage s6 in
         s62 ← on_page new_parent_page_id
                 (λ p, SetIsRootPage true
                         (Internal.Init new_parent_page_id INVALID_PAGE_ID (internal_max_size_ s61) p)) s61;
         let s63 := UpdateRootPageId (set_root new_parent_page_id s62) in
         lp ← FetchPage leafPage s63;
         r ← InsertIntoInternalPage fuel new_parent_page_id (KeyAt 0 lp) (GetPageId lp) s63;
         Ok (new_parent_page_id, r.2)
       else
         _ ← FetchPage parent_page_id s6;
         Ok (parent_page_id, s6));
    nlp ← FetchPage new_leaf_page s7;
    r ← InsertIntoInternalPage fuel parent_page (KeyAt 0 nlp) new_leaf_page_id s7;
    Ok (new_leaf_page_id, r.2).

(** [Insert].  The [page_id_t] that [SplitLeafPageAndAddKey] returns is
    converted to the [bool] result: every value but 0 is [true]. *)
Definition Insert (fuel : nat) (key value : Z) (s : t) : result (bool * t) :=
  s1 ← (if root_page_id_ s =? INVALID_PAGE_ID then
          let '(root_page_id, s0) := NewPage s in
          let s0 := set_root root_page_id s0 in
          on_page root_page_id
            (λ p, SetIsRootPage true (SetPageType LEAF_PAGE
                    (Leaf.Init (root_page_id_ s0) INVALID_PAGE_ID (leaf_max_size_ s0) p))) s0
        else Ok s);
  leaf ← descend fuel key (root_page_id_ s1) s1;
  curr_page_as_leaf ← FetchPage leaf s1;
  if GetSize curr_page_as_leaf =? leaf_max_size_ s1 then
    r ← SplitLeafPageAndAddKey fuel leaf key value s1;
    Ok (negb (r.1 =? 0), r.2)
  else
    let i := FindIndexInLeafPageJustGreaterThanKey key curr_page_as_leaf in
    if i =? -1 then Ok (false, s1)
    else
      s2 ← on_page leaf (InsertKVPairAt i (key, value)) s1;
      Ok (true, s2).

(** [MergeLeafNode] and [MergeInternalNode] have the same body: append
    the slots [i, GetSize()) of [fromPage] to [toPage]; the size of
    [fromPage] is read again at every turn. *)
Fixpoint merge_loop (fuel : nat) (fromPage toPage : Z) (i : Z) (s : t) : result t :=
  match fuel with
  | O => OutOfFuel
  | S fuel' =>
      fp ← FetchPage fromPage s;
      if i <? GetSize fp then
        s1 ← on_page toPage (AddKVPair (KeyAt i fp, ValueAt i fp)) s;
        merge_loop fuel' fromPage toPage (i + 1) s1
      else Ok s
  end.

Definition MergeLeafNode (fuel : nat) (fromLeafPage toLeafPage : Z) (s : t) : result (bool * t) :=
  s' ← merge_loop fuel fromLeafPage toLeafPage 0 s;
  Ok (true, s').

Definition MergeInternalNode (fuel : nat) (fromPage toPage : Z) (s : t) : result (bool * t) :=
  s' ← merge_loop fuel fromPage toPage 0 s;
  Ok (true, s').

(** [RemoveFromParentPage] and [CoalesceInternalNode] call each other. *)
Fixpoint RemoveFromParentPage (fuel : nat) (bPlusTreePage : Z) (s : t) : result (bool * t) :=
  match fuel with
  | O => OutOfFuel
  | S fuel' =>
      p ← FetchPage bPlusTreePage s;
      let parent_page_id := GetParentPageId p in
      parent_page ← FetchPage parent_page_id s;
      let r := Internal.RemovePageId (GetPageId p) parent_page in
      let s1 := set_pages (<[parent_page_id := r.2]> (pages_ s)) s in
      if r.1 then CoalesceInternalNode fuel' parent_page_id s1
      else Ok (false, s1)
  end
with CoalesceInternalNode (fuel : nat) (internalPage : Z) (s : t) : result (bool * t) :=
  match fuel with
  | O => OutOfFuel
  | S fuel' =>
      ip ← FetchPage internalPage s;
      if Z.quot (GetMaxSize ip) 2 <=? GetSize ip then Ok (false, s)
      else
        parent_page ← FetchPage (GetParentPageId ip) s;
        let right_page_id := Internal.FindNextPageId (GetPageId ip) parent_page in
        right_page ← FetchPage right_page_id s;
        if GetSize right_page + GetSize ip <? internal_max_size_ s then
          m ← MergeInternalNode fuel' right_page_id internalPage s;
          RemoveFromParentPage fuel' right_page_id m.2
        else
          let left_page_id := Internal.FindPreviousPageId (GetPageId ip) parent_page in
          left_page ← FetchPage left_page_id s;
          if GetSize left_page + GetSize ip <? internal_max_size_ s then
            m ← MergeInternalNode fuel' internalPage left_page_id s;
            RemoveFromParentPage fuel' internalPage m.2
          else Ok (true, s)
  end.

Definition CoalesceLeafNode (fuel : nat) (leafPage : Z) (s : t) : result (bool * t) :=
  lp ← FetchPage leafPage s;
  if Z.quot (GetMaxSize lp) 2 <? GetSize lp then Ok (false, s)
  else
    parent_page ← FetchPage (GetParentPageId lp) s;
    let right_leaf_page_id := Internal.FindNextPageId (GetPageId lp) parent_page in
    right_leaf_page ← FetchPage right_leaf_page_id s;
    if GetSize right_leaf_page + GetSize lp <? leaf_max_size_ s then
      m ← MergeLeafNode fuel right_leaf_page_id leafPage s;
      r ← RemoveFromParentPage fuel right_leaf_page_id m.2;
      Ok (true, r.2)
    else
      let left_leaf_page_id := Internal.FindPreviousPageId (GetPageId lp) parent_page in
      left_leaf_page ← FetchPage left_leaf_page_id s;
      if GetSize left_leaf_page + GetSize lp <? leaf_max_size_ s then
        m ← MergeLeafNode fuel leafPage left_leaf_page_id s;
        r ← RemoveFromParentPage fuel leafPage m.2;
        Ok (true, r.2)
      else Ok (true, s).

Definition Remove (fuel : nat) (key : Z) (s : t) : result t :=
  leaf ← descend fuel key (root_page_id_ s) s;
  curr_page_as_leaf ← FetchPage leaf s;
  match leaf_scan (Z.to_nat (GetSize curr_page_as_leaf)) key curr_page_as_leaf 0 with
  | Some i =>
      s1 ← on_page leaf (λ p, (Leaf.RemoveAtIndex i p).2) s;
      lp ← FetchPage leaf s1;
      if GetSize lp <=? Z.quot (GetMaxSize lp) 2 then
        r ← CoalesceLeafNode fuel leaf s1;
        Ok r.2
      else Ok s1
  | None => Ok s
  end.

(** ** Index iterator (index_iterator.h, index_iterator.cpp) *)

Record IndexIterator : Type := mkIndexIterator {
  curr_page_id_ : Z;
  curr_page_id_idx_ : Z
}.

#[global] Instance IndexIterator_eq_dec : EqDecision IndexIterator.
Proof. solve_decision. Defined.

(** [operator==] and [operator!=]. *)
Definition iterator_eqb (it itr : IndexIterator) : bool :=
  (curr_page_id_ it =? curr_page_id_ itr) && (curr_page_id_idx_ it =? curr_page_id_idx_ itr).

Definition iterator_neqb (it itr : IndexIterator) : bool :=
  negb (curr_page_id_ it =? curr_page_id_ itr) || negb (curr_page_id_idx_ it =? curr_page_id_idx_ itr).

Definition IsEnd (it : IndexIterator) (s : t) : result bool :=
  if curr_page_id_ it =? INVALID_PAGE_ID then Ok true
  else
    curr_page ← FetchPage (curr_page_id_ it) s;
    if negb (IsLeafPage curr_page) then Ok true
    else Ok ((curr_page_id_idx_ it =? GetSize curr_page - 1)
             && (GetNextPageId curr_page =? INVALID_PAGE_ID)).

(** [operator*]. *)
Definition iterator_get (it : IndexIterator) (s : t) : result (Z * Z) :=
  curr_page ← FetchPage (curr_page_id_ it) s;
  Ok (GetPairAtIndex (curr_page_id_idx_ it) curr_page).

(** [operator++]. *)
Definition iterator_next (it : IndexIterator) (s : t) : result IndexIterator :=
  e ← IsEnd it s;
  if (e : bool) then Ok it
  else
    curr_page ← FetchPage (curr_page_id_ it) s;
    if curr_page_id_idx_ it =? GetSize curr_page - 1
    then Ok (mkIndexIterator (GetNextPageId curr_page) 0)
    else Ok (mkIndexIterator (curr_page_id_ it) (curr_page_id_idx_ it + 1)).

(** [Begin()] and [End()] both return [INDEXITERATOR_TYPE()], an iterator
    that no member function has set: [fresh] stands for the value its
    members happen to have.  Neither looks at the tree. *)
Definition Begin (fresh : IndexIterator) (s : t) : IndexIterator := fresh.
Definition End (fresh : IndexIterator) (s : t) : IndexIterator := fresh.

(** Modelled from the spec: the scan "[Begin()..End()]", the loop
    [for (it = Begin(); it != End(); ++it)] collecting the key of [*it]. *)
Fixpoint scan_loop (fuel : nat) (it end_ : IndexIterator) (s : t) : result (list Z) :=
  match fuel with
  | O => OutOfFuel
  | S fuel' =>
      if iterator_neqb it end_ then
        kv ← iterator_get it s;
        it' ← iterator_next it s;
        rest ← scan_loop fuel' it' end_ s;
        Ok (kv.1 :: rest)
      else Ok []
  end.

Definition scan (fuel : nat) (fresh_begin fresh_end : IndexIterator) (s : t) : result (list Z) :=
  scan_loop fuel (Begin fresh_begin s) (End fresh_end s) s.

(** Inserting a list of keys, each with itself as value; the result is
    the list of the return values and the final tree. *)
Fixpoint insert_all (fuel : nat) (keys : list Z) (s : t) : result (list bool * t) :=
  match keys with
  | [] => Ok ([], s)
  | key :: keys' =>
      r ← Insert fuel key key s;
      r' ← insert_all fuel keys' r.2;
      Ok (r.1 :: r'.1, r'.2)
  end.

(** The half-full bound of a page, [⌈max_size/2⌉ <= size], and the
    invariant that every page of the pool but the root meets it. *)
Definition half_full (p : BPlusTreePage.t) : bool :=
  (GetMaxSize p + 1) / 2 <=? GetSize p.

Definition non_root_pages_half_full (s : t) : bool :=
  forallb (λ kv : Z * BPlusTreePage.t, (kv.1 =? root_page_id_ s) || half_full kv.2)
          (map_to_list (pages_ s)).

End BPlusTree.

(** * B+Tree on the buffer pool manager instance (b_plus_tree.cpp)

    The member functions of [BPlusTree] once more, this time with every
    call of [buffer_pool_manager_] carried out by
    [BufferPoolManagerInstance]: [FetchPage] may miss and take a frame from
    the free list or from the replacer, [NewPage] and [FetchPage] return
    [nullptr] when no frame is to be had, every fetch pins, and nothing but
    the header page is unpinned.  The payload of a pool page is the tree
    page overlaid on its bytes. *)

Module BPlusTreeOnPool.

Import BPlusTreePage.

Section tree.

(** The fuel of an insertion into the page table (its recursion after a
    split), and the readings of the system clock: [now n] is what
    [RecordAccess] reads during the [n]-th call of [FetchPage] or
    [NewPage]. *)
Variable table_fuel : nat.
Variable now : nat → Z.

Abbreviation Pool := (BufferPoolManagerInstance.t BPlusTreePage.t).

(** The tree and the pool it points to.  [header_record_] is the root
    page id that page 0, read as a [HeaderPage], stores for this index, if
    it has a record for it: the record is kept apart from the payload of
    page 0, which is what the source does as long as page 0 is not a tree
    page as well.  [clock_] counts the calls of [FetchPage] and [NewPage]
    made so far. *)
Record t : Type := mk {
  root_page_id_ : Z;
  leaf_max_size_ : Z;
  internal_max_size_ : Z;
  buffer_pool_manager_ : Pool;
  header_record_ : option Z;
  clock_ : nat
}.

(** The constructor. *)
Definition New (buffer_pool_manager : Pool) (leaf_max_size internal_max_size : Z)
    (header_record : option Z) : t :=
  mk INVALID_PAGE_ID leaf_max_size internal_max_size buffer_pool_manager header_record 0.

Definition IsEmpty (s : t) : bool := root_page_id_ s =? INVALID_PAGE_ID.

Definition set_pool (b : Pool) (s : t) : t :=
  mk (root_page_id_ s) (leaf_max_size_ s) (internal_max_size_ s) b (header_record_ s) (clock_ s).

Definition set_root (root : Z) (s : t) : t :=
  mk root (leaf_max_size_ s) (internal_max_size_ s) (buffer_pool_manager_ s)
     (header_record_ s) (clock_ s).

Definition set_header_record (record : option Z) (s : t) : t :=
  mk (root_page_id_ s) (leaf_max_size_ s) (internal_max_size_ s) (buffer_pool_manager_ s)
     record (clock_ s).

Definition tick (s : t) : t :=
  mk (root_page_id_ s) (leaf_max_size_ s) (internal_max_size_ s) (buffer_pool_manager_ s)
     (header_record_ s) (S (clock_ s)).

(** Modelled from the spec: [BufferPoolManager::FetchPage], [NewPage] and
    [UnpinPage] (buffer_pool_manager.h is not among the sources) hand the
    call to [FetchPgImp], [NewPgImp] and [UnpinPgImp].  A [Page *] is the
    frame id, [nullptr] is [None]; [NewPage] also gives the page id it
    wrote through its argument. *)
Definition FetchPage (page_id : Z) (s : t) : result (option Z * t) :=
  r ← BufferPoolManagerInstance.FetchPgImp zeroed table_fuel (now (clock_ s)) page_id
        (buffer_pool_manager_ s);
  Ok (r.1, tick (set_pool r.2 s)).

Definition NewPage (s : t) : result (option (Z * Z) * t) :=
  r ← BufferPoolManagerInstance.NewPgImp zeroed table_fuel (now (clock_ s))
        (buffer_pool_manager_ s);
  Ok (r.1, tick (set_pool r.2 s)).

Definition UnpinPage (page_id : Z) (is_dirty : bool) (s : t) : result (bool * t) :=
  r ← BufferPoolManagerInstance.UnpinPgImp page_id is_dirty (buffer_pool_manager_ s);
  Ok (r.1, set_pool r.2 s).

(** [page->GetData()] cast to a tree page pointer.  The pointer is the
    frame id again.  Every caller reads or writes through the pointer
    before it does anything else, so the dereference of a null [page] is
    placed here. *)
Definition GetData (page : option Z) : result Z := deref page.

(** Reading the tree page a pointer points to, and calling a member
    function that changes it.  Writing to the page leaves the dirty flag
    of the frame alone. *)
Definition page_data (ptr : Z) (s : t) : result BPlusTreePage.t :=
  page ← BufferPoolManagerInstance.page_at ptr (buffer_pool_manager_ s);
  Ok (BufferPoolManagerInstance.GetData page).

Definition on_page (ptr : Z) (f : BPlusTreePage.t → BPlusTreePage.t) (s : t) : result t :=
  page ← BufferPoolManagerInstance.page_at ptr (buffer_pool_manager_ s);
  Ok (set_pool
        (BufferPoolManagerInstance.set_page ptr
           (BufferPoolManagerInstance.mkPage
              (f (BufferPoolManagerInstance.data_ page))
              (BufferPoolManagerInstance.page_id_ page)
              (BufferPoolManagerInstance.pin_count_ page)
              (BufferPoolManagerInstance.is_dirty_ page))
           (buffer_pool_manager_ s)) s).

(** [UpdateRootPageId()], always called with [insert_record = 0]:
    [header_page->UpdateRecord] is called on whatever [FetchPage] has
    returned. *)
Definition UpdateRootPageId (s : t) : result t :=
  r ← FetchPage HEADER_PAGE_ID s;
  header_page ← deref r.1;
  let s1 := set_header_record
              (BPlusTree.UpdateRecord (root_page_id_ r.2) (header_record_ r.2)) r.2 in
  u ← UnpinPage HEADER_PAGE_ID true s1;
  Ok u.2.

(** The [while (!curr_page->IsLeafPage())] loop of GetValue, Insert and
    Remove, from the page [curr_page] points to down to a leaf; the result
    is the pointer to the leaf. *)
Fixpoint descend (fuel : nat) (key : Z) (curr_page : Z) (s : t) : result (Z * t) :=
  match fuel with
  | O => OutOfFuel
  | S fuel' =>
      p ← page_data curr_page s;
      if IsLeafPage p then Ok (curr_page, s)
      else
        let i := BPlusTree.child_index key p in
        let next_page_id := ValueAt (i - 1) p in
        r ← FetchPage next_page_id s;
        curr_page' ← GetData r.1;
        descend fuel' key curr_page' r.2
  end.

(** [GetValue]: the return value, the values pushed to [result], and the
    tree with the pool after the call. *)
Definition GetValue (fuel : nat) (key : Z) (s : t) : result (bool * list Z * t) :=
  r ← FetchPage (root_page_id_ s) s;
  curr_page ← GetData r.1;
  d ← descend fuel key curr_page r.2;
  curr_page_as_leaf ← page_data d.1 d.2;
  match BPlusTree.leaf_scan (Z.to_nat (GetSize curr_page_as_leaf)) key curr_page_as_leaf 0 with
  | Some i => Ok (true, [ValueAt i curr_page_as_leaf], d.2)
  | None => Ok (false, [], d.2)
  end.

Definition InsertAndUpdateParentPage (insertTo : Z) (idx key value : Z) (s : t) : result t :=
  s1 ← on_page insertTo (InsertKVPairAt idx (key, value)) s;
  r ← FetchPage value s1;
  child_page ← GetData r.1;
  insert_to ← page_data insertTo r.2;
  on_page child_page (SetParentPageId (GetPageId insert_to)) r.2.

(** The loop of [InsertIntoInternalPage] that moves the slots
    [i, GetSize()) of [internalPage] to the new page and re-parents the
    children. *)
Fixpoint move_children_loop (fuel : nat) (internalPage new_internal_page new_internal_page_id mid i : Z)
    (s : t) : result t :=
  match fuel with
  | O => OutOfFuel
  | S fuel' =>
      ip ← page_data internalPage s;
      if i <? GetSize ip then
        let childPageId := ValueAt i ip in
        s1 ← on_page new_internal_page (PutKeyValuePairAt (i - mid) (KeyAt i ip, childPageId)) s;
        r ← FetchPage childPageId s1;
        childPage ← GetData r.1;
        s2 ← on_page childPage (SetParentPageId new_internal_page_id) r.2;
        move_children_loop fuel' internalPage new_internal_page new_internal_page_id mid (i + 1) s2
      else Ok s
  end.

Fixpoint InsertIntoInternalPage (fuel : nat) (internalPage : Z) (key value : Z) (s : t) : result (bool * t) :=
  match fuel with
  | O => OutOfFuel
  | S fuel' =>
      ip ← page_data internalPage s;
      if GetSize ip =? internal_max_size_ s then
        n ← NewPage s;
        new ← deref n.1;
        let new_internal_page_id := new.1 in
        let new_internal_page := new.2 in
        s2 ← on_page new_internal_page
               (λ p, SetIsRootPage false (SetPageType INTERNAL_PAGE
                       (Internal.Init new_internal_page_id INVALID_PAGE_ID (leaf_max_size_ n.2) p))) n.2;
        ip ← page_data internalPage s2;
        let index_to_insert := FindIndexInInternalPageJustGreaterThanKey key ip in
        if index_to_insert =? -1 then Ok (false, s2)
        else
          let mid := Z.quot (GetSize ip) 2 in
          let mid := if mid <? index_to_insert then mid + 1 else mid in
          let count_being_moved := GetSize ip - mid in
          s3 ← move_children_loop fuel' internalPage new_internal_page new_internal_page_id mid mid s2;
          s4 ← on_page internalPage (λ p, SetIsRootPage false (SetSize mid p)) s3;
          s5 ← on_page new_internal_page (SetSize count_being_moved) s4;
          s6 ← (if (index_to_insert <? internal_max_size_ s5) && (index_to_insert <=? mid)
                then InsertAndUpdateParentPage internalPage index_to_insert key value s5
                else InsertAndUpdateParentPage new_internal_page (index_to_insert - mid) key value s5);
          ip ← page_data internalPage s6;
          let parent_page_id := GetParentPageId ip in
          '(parent_page, parent_page_id, s7) ←
            (if parent_page_id =? INVALID_PAGE_ID then
               n ← NewPage s6;
               new ← deref n.1;
               let new_parent_page_id := new.1 in
               let new_parent_page := new.2 in
               s62 ← on_page new_parent_page
                       (λ p, SetIsRootPage true
                               (Internal.Init new_parent_page_id INVALID_PAGE_ID (internal_max_size_ n.2) p)) n.2;
               s63 ← UpdateRootPageId (set_root new_parent_page_id s62);
               ip ← page_data internalPage s63;
               r ← InsertIntoInternalPage fuel' new_parent_page (KeyAt 0 ip) (GetPageId ip) s63;
               s64 ← on_page internalPage (SetParentPageId new_parent_page_id) r.2;
               Ok (new_parent_page, new_parent_page_id, s64)
             else
               r ← FetchPage parent_page_id s6;
               parent_page ← GetData r.1;
               Ok (parent_page, parent_page_id, r.2));
          nip ← page_data new_internal_page s7;
          r ← InsertIntoInternalPage fuel' parent_page (KeyAt 0 nip) new_internal_page_id s7;
          s8 ← on_page new_internal_page (SetParentPageId parent_page_id) r.2;
          Ok (true, s8)
      else
        let index_to_insert := FindIndexInInternalPageJustGreaterThanKey key ip in
        if index_to_insert =? -1 then Ok (false, s)
        else
          s1 ← InsertAndUpdateParentPage internalPage index_to_insert key value s;
          Ok (true, s1)
  end.

(** The loop of [SplitLeafPageAndAddKey] that copies the slots
    [i, GetSize()) of the leaf to the new leaf. *)
Fixpoint move_pairs_loop (fuel : nat) (leafPage new_leaf_page mid i : Z) (s : t) : result t :=
  match fuel with
  | O => OutOfFuel
  | S fuel' =>
      lp ← page_data leafPage s;
      if i <? GetSize lp then
        s1 ← on_page new_leaf_page (PutKeyValuePairAt (i - mid) (KeyAt i lp, ValueAt i lp)) s;
        move_pairs_loop fuel' leafPage new_leaf_page mid (i + 1) s1
      else Ok s
  end.

(** [SplitLeafPageAndAddKey] returns a [page_id_t]: -1 for a key the leaf
    already holds, else the id of the new leaf. *)
Definition SplitLeafPageAndAddKey (fuel : nat) (leafPage : Z) (key value : Z) (s : t) : result (Z * t) :=
  lp ← page_data leafPage s;
  let index_to_insert := FindIndexInLeafPageJustGreaterThanKey key lp in
  if index_to_insert =? -1 then Ok (-1, s)
  else
    n ← NewPage s;
    new ← deref n.1;
    let new_leaf_page_id := new.1 in
    let new_leaf_page := new.2 in
    s2 ← on_page new_leaf_page
           (λ p, SetIsRootPage false (SetPageType LEAF_PAGE
                   (Leaf.Init new_leaf_page_id INVALID_PAGE_ID (leaf_max_size_ n.2) p))) n.2;
    lp ← page_data leafPage s2;
    let mid := Z.quot (GetSize lp) 2 in
    let mid := if mid <? index_to_insert then mid + 1 else mid in
    let count_being_moved := GetSize lp - mid in
    s3 ← move_pairs_loop fuel leafPage new_leaf_page mid mid s2;
    s4 ← on_page leafPage
           (λ p, SetIsRootPage false (SetNextPageId new_leaf_page_id (SetSize mid p))) s3;
    s5 ← on_page new_leaf_page (SetSize count_being_moved) s4;
    s6 ← (if (index_to_insert <? leaf_max_size_ s5) && (index_to_insert <=? mid)
          then on_page leafPage (InsertKVPairAt index_to_insert (key, value)) s5
          else on_page new_leaf_page (InsertKVPairAt (index_to_insert - mid) (key, value)) s5);
    lp ← page_data leafPage s6;
    let parent_page_id := GetParentPageId lp in
    '(parent_page, s7) ←
      (if parent_page_id =? INVALID_PAGE_ID then
         n ← NewPage s6;
         new ← deref n.1;
         let new_parent_page_id := new.1 in
         let new_parent_page := new.2 in
         s62 ← on_page new_parent_page
                 (λ p, SetIsRootPage true
                         (Internal.Init new_parent_page_id INVALID_PAGE_ID (internal_max_size_ n.2) p)) n.2;
         s63 ← UpdateRootPageId (set_root new_parent_page_id s62);
         lp ← page_data leafPage s63;
         r ← InsertIntoInternalPage fuel new_parent_page (KeyAt 0 lp) (GetPageId lp) s63;
         Ok (new_parent_page, r.2)
       else
         r ← FetchPage parent_page_id s6;
         parent_page ← GetData r.1;
         Ok (parent_page, r.2));
    nlp ← page_data new_leaf_page s7;
    r ← InsertIntoInternalPage fuel parent_page (KeyAt 0 nlp) new_leaf_page_id s7;
    Ok (new_leaf_page_id, r.2).

(** [Insert].  [NewPage(&root_page_id_)] writes the root page id when it
    has a frame.  The [page_id_t] that [SplitLeafPageAndAddKey] returns is
    converted to the [bool] result: every value but 0 is [true]. *)
Definition Insert (fuel : nat) (key value : Z) (s : t) : result (bool * t) :=
  s1 ← (if root_page_id_ s =? INVALID_PAGE_ID then
          n ← NewPage s;
          new ← deref n.1;
          let s0 := set_root new.1 n.2 in
          on_page new.2
            (λ p, SetIsRootPage true (SetPageType LEAF_PAGE
                    (Leaf.Init (root_page_id_ s0) INVALID_PAGE_ID (leaf_max_size_ s0) p))) s0
        else Ok s);
  r ← FetchPage (root_page_id_ s1) s1;
  curr_page ← GetData r.1;
  d ← descend fuel key curr_page r.2;
  let leaf := d.1 in
  curr_page_as_leaf ← page_data leaf d.2;
  if GetSize curr_page_as_leaf =? leaf_max_size_ d.2 then
    r ← SplitLeafPageAndAddKey fuel leaf key value d.2;
    Ok (negb (r.1 =? 0), r.2)
  else
    let i := FindIndexInLeafPageJustGreaterThanKey key curr_page_as_leaf in
    if i =? -1 then Ok (false, d.2)
    else
      s2 ← on_page leaf (InsertKVPairAt i (key, value)) d.2;
      Ok (true, s2).

(** [MergeLeafNode] and [MergeInternalNode] have the same body: append
    the slots [i, GetSize()) of [fromPage] to [toPage]; the size of
    [fromPage] is read again at every turn. *)
Fixpoint merge_loop (fuel : nat) (fromPage toPage : Z) (i : Z) (s : t) : result t :=
  match fuel with
  | O => OutOfFuel
  | S fuel' =>
      fp ← page_data fromPage s;
      if i <? GetSize fp then
        s1 ← on_page toPage (AddKVPair (KeyAt i fp, ValueAt i fp)) s;
        merge_loop fuel' fromPage toPage (i + 1) s1
      else Ok s
  end.

Definition MergeLeafNode (fuel : nat) (fromLeafPage toLeafPage : Z) (s : t) : result (bool * t) :=
  s' ← merge_loop fuel fromLeafPage toLeafPage 0 s;
  Ok (true, s').

Definition MergeInternalNode (fuel : nat) (fromPage toPage : Z) (s : t) : result (bool * t) :=
  s' ← merge_loop fuel fromPage toPage 0 s;
  Ok (true, s').

(** [RemoveFromParentPage] and [CoalesceInternalNode] call each other. *)
Fixpoint RemoveFromParentPage (fuel : nat) (bPlusTreePage : Z) (s : t) : result (bool * t) :=
  match fuel with
  | O => OutOfFuel
  | S fuel' =>
      p ← page_data bPlusTreePage s;
      let parent_page_id := GetParentPageId p in
      r ← FetchPage parent_page_id s;
      parent_page ← GetData r.1;
      p ← page_data bPlusTreePage r.2;
      pp ← page_data parent_page r.2;
      s1 ← on_page parent_page (λ pp, (Internal.RemovePageId (GetPageId p) pp).2) r.2;
      if (Internal.RemovePageId (GetPageId p) pp).1 then CoalesceInternalNode fuel' parent_page s1
      else Ok (false, s1)
  end
with CoalesceInternalNode (fuel : nat) (internalPage : Z) (s : t) : result (bool * t) :=
  match fuel with
  | O => OutOfFuel
  | S fuel' =>
      ip ← page_data internalPage s;
      if Z.quot (GetMaxSize ip) 2 <=? GetSize ip then Ok (false, s)
      else
        r1 ← FetchPage (GetParentPageId ip) s;
        parent_page ← GetData r1.1;
        pp ← page_data parent_page r1.2;
        ip ← page_data internalPage r1.2;
        let right_page_id := Internal.FindNextPageId (GetPageId ip) pp in
        r2 ← FetchPage right_page_id r1.2;
        right_page ← GetData r2.1;
        rp ← page_data right_page r2.2;
        ip ← page_data internalPage r2.2;
        if GetSize rp + GetSize ip <? internal_max_size_ r2.2 then
          m ← MergeInternalNode fuel' right_page internalPage r2.2;
          RemoveFromParentPage fuel' right_page m.2
        else
          pp ← page_data parent_page r2.2;
          let left_page_id := Internal.FindPreviousPageId (GetPageId ip) pp in
          r3 ← FetchPage left_page_id r2.2;
          left_page ← GetData r3.1;
          lp ← page_data left_page r3.2;
          ip ← page_data internalPage r3.2;
          if GetSize lp + GetSize ip <? internal_max_size_ r3.2 then
            m ← MergeInternalNode fuel' internalPage left_page r3.2;
            RemoveFromParentPage fuel' internalPage m.2
          else Ok (true, r3.2)
  end.

Definition CoalesceLeafNode (fuel : nat) (leafPage : Z) (s : t) : result (bool * t) :=
  lp ← page_data leafPage s;
  if Z.quot (GetMaxSize lp) 2 <? GetSize lp then Ok (false, s)
  else
    r1 ← FetchPage (GetParentPageId lp) s;
    parent_page ← GetData r1.1;
    pp ← page_data parent_page r1.2;
    lp ← page_data leafPage r1.2;
    let right_leaf_page_id := Internal.FindNextPageId (GetPageId lp) pp in
    r2 ← FetchPage right_leaf_page_id r1.2;
    right_leaf_page ← GetData r2.1;
    rp ← page_data right_leaf_page r2.2;
    lp ← page_data leafPage r2.2;
    if GetSize rp + GetSize lp <? leaf_max_size_ r2.2 then
      m ← MergeLeafNode fuel right_leaf_page leafPage r2.2;
      r ← RemoveFromParentPage fuel right_leaf_page m.2;
      Ok (true, r.2)
    else
      pp ← page_data parent_page r2.2;
      let left_leaf_page_id := Internal.FindPreviousPageId (GetPageId lp) pp in
      r3 ← FetchPage left_leaf_page_id r2.2;
      left_leaf_page ← GetData r3.1;
      lfp ← page_data left_leaf_page r3.2;
      lp ← page_data leafPage r3.2;
      if GetSize lfp + GetSize lp <? leaf_max_size_ r3.2 then
        m ← MergeLeafNode fuel leafPage left_leaf_page r3.2;
        r ← RemoveFromParentPage fuel leafPage m.2;
        Ok (true, r.2)
      else Ok (true, r3.2).

Definition Remove (fuel : nat) (key : Z) (s : t) : result t :=
  r ← FetchPage (root_page_id_ s) s;
  curr_page ← GetData r.1;
  d ← descend fuel key curr_page r.2;
  let leaf := d.1 in
  curr_page_as_leaf ← page_data leaf d.2;
  match BPlusTree.leaf_scan (Z.to_nat (GetSize curr_page_as_leaf)) key curr_page_as_leaf 0 with
  | Some i =>
      s1 ← on_page leaf (λ p, (Leaf.RemoveAtIndex i p).2) d.2;
      lp ← page_data leaf s1;
      if GetSize lp <=? Z.quot (GetMaxSize lp) 2 then
        c ← CoalesceLeafNode fuel leaf s1;
        Ok c.2
      else Ok s1
  | None => Ok d.2
  end.

End tree.

End BPlusTreeOnPool.

(** * Properties of the LRU-K replacer *)

Module LRUKReplacerProperties.

Import LRUKReplacer.

(** ** The order of the comparator *)

(** A frame's ordering key: frames with fewer than [k] accesses come
    after (are "greater than") frames with [k] accesses; within a class a
    smaller [back()] timestamp is greater. *)
Definition hist_available (f : FrameAccessHistory) : bool :=
  (GetAccessHistorySize f =? GetLookBackSize f)%nat.

Lemma comparison_unfold (f1 f2 : FrameAccessHistory) :
  FrameAccessHistoryOrderComparison f1 f2 =
    match hist_available f1, hist_available f2 with
    | true, false => true
    | false, true => false
    | _, _ => back (access_history_ f2) <? back (access_history_ f1)
    end.
Proof.
  unfold FrameAccessHistoryOrderComparison, hist_available, GetLastAccessRecord, GetKthAccessRecord.
  destruct (GetAccessHistorySize f1 =? GetLookBackSize f1)%nat,
           (GetAccessHistorySize f2 =? GetLookBackSize f2)%nat; simpl;
    try reflexivity; rewrite Z.ltb_antisym; reflexivity.
Qed.

Lemma comparison_irrefl (f : FrameAccessHistory) :
  FrameAccessHistoryOrderComparison f f = false.
Proof.
  rewrite comparison_unfold. destruct (hist_available f); apply Z.ltb_irrefl.
Qed.

Lemma comparison_asym (f g : FrameAccessHistory) :
  FrameAccessHistoryOrderComparison f g = true →
  FrameAccessHistoryOrderComparison g f = false.
Proof.
  rewrite !comparison_unfold.
  destruct (hist_available f), (hist_available g); try congruence;
    rewrite Z.ltb_lt, Z.ltb_ge; lia.
Qed.

Lemma comparison_trans (f g h : FrameAccessHistory) :
  FrameAccessHistoryOrderComparison f g = true →
  FrameAccessHistoryOrderComparison g h = true →
  FrameAccessHistoryOrderComparison f h = true.
Proof.
  rewrite !comparison_unfold.
  destruct (hist_available f), (hist_available g), (hist_available h);
    try congruence; rewrite !Z.ltb_lt; lia.
Qed.

(** [frame_history_set_] is in the order of the comparator. *)
Definition set_ordered (s : list FrameAccessHistory) : Prop :=
  StronglySorted (λ f g, FrameAccessHistoryOrderComparison f g = true) s.

Lemma set_insert_elem (x y : FrameAccessHistory) (s : list FrameAccessHistory) :
  y ∈ set_insert x s → y = x ∨ y ∈ s.
Proof.
  induction s as [|z s IH]; simpl.
  - intros Hy. apply list_elem_of_singleton in Hy. by left.
  - destruct (FrameAccessHistoryOrderComparison x z).
    + intros Hy. apply elem_of_cons in Hy as [->|Hy]; [by left | by right].
    + destruct (FrameAccessHistoryOrderComparison z x); [|by right].
      intros Hy. apply elem_of_cons in Hy as [->|Hy].
      * right. apply elem_of_cons. by left.
      * destruct (IH Hy) as [->|Hin]; [by left|]. right. apply elem_of_cons. by right.
Qed.

Lemma set_insert_ordered (x : FrameAccessHistory) (s : list FrameAccessHistory) :
  set_ordered s → set_ordered (set_insert x s).
Proof.
  unfold set_ordered. induction 1 as [|z s Hs IH Hz]; simpl.
  - repeat constructor.
  - destruct (FrameAccessHistoryOrderComparison x z) eqn:Hxz.
    + constructor; [by constructor|].
      constructor; [done|].
      eapply Forall_impl; [exact Hz|]. intros g Hg. by eapply comparison_trans.
    + destruct (FrameAccessHistoryOrderComparison z x) eqn:Hzx; [|by constructor].
      constructor; [done|].
      apply Forall_forall. intros g Hg.
      destruct (set_insert_elem _ _ _ Hg) as [->|Hin]; [done|].
      by eapply Forall_forall in Hz.
Qed.

Lemma RemoveFrameFromSetInternal_elem (frame_id : Z) (y : FrameAccessHistory) (s : list FrameAccessHistory) :
  y ∈ RemoveFrameFromSetInternal frame_id s → y ∈ s.
Proof.
  induction s as [|z s IH]; simpl; [done|].
  destruct (GetFrameId z =? frame_id).
  - intros. apply elem_of_cons. by right.
  - intros Hy. apply elem_of_cons in Hy as [->|Hy]; apply elem_of_cons; [by left|right; auto].
Qed.

Lemma RemoveFrameFromSetInternal_ordered (frame_id : Z) (s : list FrameAccessHistory) :
  set_ordered s → set_ordered (RemoveFrameFromSetInternal frame_id s).
Proof.
  unfold set_ordered. induction 1 as [|z s Hs IH Hz]; simpl; [constructor|].
  destruct (GetFrameId z =? frame_id); [done|].
  constructor; [done|].
  apply Forall_forall. intros g Hg.
  apply RemoveFrameFromSetInternal_elem in Hg. by eapply Forall_forall in Hz.
Qed.

(** Every call keeps the set in order. *)
Lemma step_ordered (o : op) (r r' : t) :
  set_ordered (frame_history_set_ r) → step o r = Ok r' → set_ordered (frame_history_set_ r').
Proof.
  intros Hs. destruct o as [nanos frame_id|frame_id b| |frame_id]; simpl.
  - intros [= <-]. unfold RecordAccess.
    destruct (frame_index_map_ r !! frame_id) as [frame|]; simpl.
    + match goal with |- context [if ?c then _ else _] => destruct c end;
        [apply set_insert_ordered|]; by apply RemoveFrameFromSetInternal_ordered.
    + by apply set_insert_ordered.
  - unfold SetEvictable. destruct (frame_index_map_ r !! frame_id) as [frame|]; [|done].
    simpl. intros [= <-]. simpl.
    match goal with |- context [if ?c then _ else _] => destruct c end;
      [apply set_insert_ordered|]; by apply RemoveFrameFromSetInternal_ordered.
  - intros [= <-]. unfold Evict.
    destruct (rbegin (frame_history_set_ r)); simpl; [|done].
    by apply RemoveFrameFromSetInternal_ordered.
  - unfold Remove. destruct (frame_index_map_ r !! frame_id) as [frame|].
    + destruct (IsEvictable frame); [|done]. intros [= <-]. simpl.
      by apply RemoveFrameFromSetInternal_ordered.
    + by intros [= <-].
Qed.

Lemma run_ordered (ops : list op) (r r' : t) :
  set_ordered (frame_history_set_ r) → run ops r = Ok r' → set_ordered (frame_history_set_ r').
Proof.
  revert r. induction ops as [|o ops IH]; simpl; intros r Hs.
  - by intros [= <-].
  - destruct (step o r) as [r1| | |] eqn:Hstep; try done. simpl.
    apply IH. by eapply step_ordered.
Qed.

Lemma rbegin_greatest (s : list FrameAccessHistory) (f : FrameAccessHistory) :
  set_ordered s → rbegin s = Some f →
  f ∈ s ∧ ∀ g, g ∈ s → FrameAccessHistoryOrderComparison f g = false.
Proof.
  unfold set_ordered, rbegin. induction 1 as [|z s Hs IH Hz]; simpl; [done|].
  destruct s as [|z' s'].
  - simpl. intros [= <-]. split; [apply elem_of_cons; by left|].
    intros g Hg. apply list_elem_of_singleton in Hg as ->. apply comparison_irrefl.
  - intros Hl. destruct (IH Hl) as [Hin Hmax]. split; [apply elem_of_cons; by right|].
    intros g Hg. apply elem_of_cons in Hg as [->|Hg]; [|by apply Hmax].
    apply comparison_asym. by eapply Forall_forall in Hz.
Qed.

(** The victim of [Evict] is the greatest member of
    [frame_history_set_]: no member has fewer than [k] accesses unless the
    victim has, and no member of the victim's class has an earlier
    [back()] timestamp. *)
Lemma Evict_takes_greatest_of_set (ops : list op) (num_frames k : nat) (r r' : t) (frame_id : Z) :
  run ops (New num_frames k) = Ok r →
  Evict r = (Some frame_id, r') →
  ∃ f, f ∈ frame_history_set_ r ∧ GetFrameId f = frame_id ∧
       ∀ g, g ∈ frame_history_set_ r →
            (hist_available f = true → hist_available g = true) ∧
            (hist_available f = hist_available g →
             back (access_history_ f) <= back (access_history_ g)).
Proof.
  intros Hrun. apply run_ordered in Hrun; [|constructor].
  unfold Evict. destruct (rbegin (frame_history_set_ r)) as [f|] eqn:Hf; [|done].
  intros [= <- <-]. destruct (rbegin_greatest _ _ Hrun Hf) as [Hin Hmax].
  exists f. split; [done|]. split; [done|].
  intros g Hg. specialize (Hmax g Hg). rewrite comparison_unfold in Hmax.
  destruct (hist_available f), (hist_available g); try done;
    (split; [done|]); intros _; by apply Z.ltb_ge.
Qed.

(** ** The set and the map hold the same objects

    In the source the elements of [frame_history_set_] are pointers to
    the objects of [frame_index_map_].  Here an element is a value; the
    three facts below say that it is always the value the map holds for
    that frame, so reading a frame through the set or through the map
    gives the same history and the same flag. *)
Record coherent (r : t) : Prop := mk_coherent {
  coherent_ids : ∀ frame_id f, frame_index_map_ r !! frame_id = Some f → frame_id_ f = frame_id;
  coherent_set : ∀ f, f ∈ frame_history_set_ r → frame_index_map_ r !! frame_id_ f = Some f;
  coherent_nodup : NoDup (frame_id_ <$> frame_history_set_ r)
}.

Lemma set_insert_nodup (x : FrameAccessHistory) (s : list FrameAccessHistory) :
  frame_id_ x ∉ frame_id_ <$> s →
  NoDup (frame_id_ <$> s) → NoDup (frame_id_ <$> set_insert x s).
Proof.
  induction s as [|z s IH]; simpl; intros Hx Hs.
  - apply NoDup_singleton.
  - destruct (FrameAccessHistoryOrderComparison x z).
    + simpl. by apply NoDup_cons.
    + destruct (FrameAccessHistoryOrderComparison z x); [|done].
      apply NoDup_cons in Hs as [Hz Hs]. apply not_elem_of_cons in Hx as [Hxz Hx].
      simpl. apply NoDup_cons. split; [|by apply IH].
      intros Hin. apply list_elem_of_fmap in Hin as (g & Hg & Hin).
      destruct (set_insert_elem _ _ _ Hin) as [->|Hin']; [congruence|].
      apply Hz. rewrite Hg. by apply list_elem_of_fmap_2.
Qed.

Lemma RemoveFrameFromSetInternal_nodup (frame_id : Z) (s : list FrameAccessHistory) :
  NoDup (frame_id_ <$> s) →
  NoDup (frame_id_ <$> RemoveFrameFromSetInternal frame_id s) ∧
  frame_id ∉ frame_id_ <$> RemoveFrameFromSetInternal frame_id s.
Proof.
  induction s as [|z s IH]; simpl; intros Hs.
  - split; [constructor|]. apply not_elem_of_nil.
  - apply NoDup_cons in Hs as [Hz Hs]. unfold GetFrameId.
    destruct (Z.eqb_spec (frame_id_ z) frame_id) as [<-|Hne]; [done|].
    destruct (IH Hs) as [Hnd Hnot]. simpl. split.
    + apply NoDup_cons. split; [|done].
      intros Hin. apply list_elem_of_fmap in Hin as (g & Hg & Hin).
      apply RemoveFrameFromSetInternal_elem in Hin.
      apply Hz. rewrite Hg. by apply list_elem_of_fmap_2.
    + apply not_elem_of_cons. split; [congruence|done].
Qed.

(** Putting the changed object [f'] of frame [frame_id] back: the map
    holds [f'], the set is the old one without that frame and, if
    [insert] is set, with [f']. *)
Lemma coherent_update (r : t) (frame_id : Z) (f' : FrameAccessHistory) (insert : bool) :
  coherent r → frame_id_ f' = frame_id →
  coherent (mk (k_ r) (replacer_size_ r) (<[frame_id := f']> (frame_index_map_ r))
               (let s := RemoveFrameFromSetInternal frame_id (frame_history_set_ r) in
                if insert then set_insert f' s else s)).
Proof.
  intros [Hids Hset Hnd] Hid.
  destruct (RemoveFrameFromSetInternal_nodup frame_id _ Hnd) as [Hnd' Hnot].
  assert (Hold : ∀ f, f ∈ RemoveFrameFromSetInternal frame_id (frame_history_set_ r) →
                      <[frame_id := f']> (frame_index_map_ r) !! frame_id_ f = Some f).
  { intros f Hf. rewrite lookup_insert_ne.
    - apply Hset. by eapply RemoveFrameFromSetInternal_elem.
    - intros ->. apply Hnot. by apply list_elem_of_fmap_2. }
  split; simpl.
  - intros fid f. destruct (decide (frame_id = fid)) as [<-|Hne].
    + rewrite lookup_insert_eq. by intros [= <-].
    + rewrite lookup_insert_ne by done. apply Hids.
  - destruct insert; [|done]. intros f Hf.
    destruct (set_insert_elem _ _ _ Hf) as [->|Hin]; [|by apply Hold].
    by rewrite Hid, lookup_insert_eq.
  - destruct insert; [|done]. apply set_insert_nodup; [by rewrite Hid|done].
Qed.

Lemma coherent_erase (r : t) (frame_id : Z) :
  coherent r →
  coherent (mk (k_ r) (replacer_size_ r) (delete frame_id (frame_index_map_ r))
               (RemoveFrameFromSetInternal frame_id (frame_history_set_ r))).
Proof.
  intros [Hids Hset Hnd].
  destruct (RemoveFrameFromSetInternal_nodup frame_id _ Hnd) as [Hnd' Hnot].
  split; simpl; [| |done].
  - intros fid f Hf. apply lookup_delete_Some in Hf as [_ Hf]. by apply Hids.
  - intros f Hf. rewrite lookup_delete_ne.
    + apply Hset. by eapply RemoveFrameFromSetInternal_elem.
    + intros ->. apply Hnot. by apply list_elem_of_fmap_2.
Qed.

Lemma RemoveFrameFromSetInternal_absent (frame_id : Z) (s : list FrameAccessHistory) :
  frame_id ∉ frame_id_ <$> s → RemoveFrameFromSetInternal frame_id s = s.
Proof.
  induction s as [|z s IH]; simpl; [done|]. intros Hnot.
  apply not_elem_of_cons in Hnot as [Hne Hnot]. unfold GetFrameId.
  destruct (Z.eqb_spec (frame_id_ z) frame_id); [congruence|]. by rewrite IH.
Qed.

Lemma step_coherent (o : op) (r r' : t) :
  coherent r → step o r = Ok r' → coherent r'.
Proof.
  intros Hr. destruct o as [nanos frame_id|frame_id b| |frame_id]; simpl.
  - intros [= <-]. unfold RecordAccess.
    destruct (frame_index_map_ r !! frame_id) as [frame|] eqn:Hframe.
    + apply (coherent_update r frame_id (FrameRecordAccess nanos frame)
               (IsEvictable (FrameRecordAccess nanos frame))); [done|].
      simpl. by eapply coherent_ids.
    + pose proof (coherent_update r frame_id
                    (FrameRecordAccess nanos (NewFrameAccessHistory frame_id (k_ r))) true Hr eq_refl)
        as Hc.
      rewrite RemoveFrameFromSetInternal_absent in Hc; [done|].
      intros Hin. apply list_elem_of_fmap in Hin as (g & -> & Hin).
      apply (coherent_set _ Hr) in Hin. congruence.
  - unfold SetEvictable. destruct (frame_index_map_ r !! frame_id) as [frame|] eqn:Hframe; [|done].
    simpl. intros [= <-].
    apply (coherent_update r frame_id (FrameSetEvictable b frame)
             (b && (length (RemoveFrameFromSetInternal frame_id (frame_history_set_ r))
                    <? replacer_size_ r)%nat)); [done|].
    simpl. by eapply coherent_ids.
  - intros [= <-]. unfold Evict.
    destruct (rbegin (frame_history_set_ r)); [|done]. by apply coherent_erase.
  - unfold Remove. destruct (frame_index_map_ r !! frame_id) as [frame|]; [|by intros [= <-]].
    destruct (IsEvictable frame); [|done]. intros [= <-]. by apply coherent_erase.
Qed.

Lemma run_coherent (ops : list op) (num_frames k : nat) (r : t) :
  run ops (New num_frames k) = Ok r → coherent r.
Proof.
  assert (Hgen : ∀ r0, coherent r0 → run ops r0 = Ok r → coherent r).
  { induction ops as [|o ops IH]; simpl; intros r0 Hr0.
    - by intros [= <-].
    - destruct (step o r0) as [r1| | |] eqn:Hstep; try done. simpl.
      apply IH. by eapply step_coherent. }
  apply Hgen. split; simpl.
  - intros ? ?. by rewrite lookup_empty.
  - intros f Hf. by apply elem_of_nil in Hf.
  - constructor.
Qed.

(** ** A run of the embedding

    k = 2 and 7 frames.  The frames 1..6 are accessed once each and all
    made evictable: [Evict] returns 1.  After the frames 1..4 are accessed
    again, 5 is the frame with a single access that was accessed first:
    [Evict] returns 5. *)
Definition six_frames : list op :=
  [OpRecordAccess 1 1; OpRecordAccess 2 2; OpRecordAccess 3 3;
   OpRecordAccess 4 4; OpRecordAccess 5 5; OpRecordAccess 6 6;
   OpSetEvictable 1 true; OpSetEvictable 2 true; OpSetEvictable 3 true;
   OpSetEvictable 4 true; OpSetEvictable 5 true; OpSetEvictable 6 true].

Example Evict_six_frames :
  (r ← run six_frames (New 7 2); Ok (Evict r).1) = Ok (Some 1) ∧
  (r ← run (six_frames ++ [OpEvict; OpRecordAccess 7 1; OpRecordAccess 8 2;
                           OpRecordAccess 9 3; OpRecordAccess 10 4]) (New 7 2);
   Ok (Evict r).1) = Ok (Some 5).
Proof. split; vm_compute; reflexivity. Qed.

(** ** The claims *)

(** C3 (fails on the code).  After the one call [RecordAccess(frame_id)]
    on a new replacer, the frame is not evictable and no frame is, yet
    [Size()] is 1 and [Evict] returns the frame: the branch of
    [RecordAccess] for a new frame inserts it into [frame_history_set_]
    without looking at its flag.  With 7 frames, k = 2 and frame 1 this is
    the first step of any use of the replacer. *)
Theorem RecordAccess_new_frame_is_candidate (num_frames k : nat) (nanos frame_id : Z) :
  let r := RecordAccess nanos frame_id (New num_frames k) in
  (is_evictable_ <$> frame_index_map_ r !! frame_id) = Some false ∧
  evictable_count r = 0%nat ∧
  Size r = 1%nat ∧
  (Evict r).1 = Some frame_id.
Proof.
  unfold RecordAccess, New. simpl. rewrite lookup_empty. simpl.
  split; [by rewrite lookup_insert_eq|].
  split; [|split; reflexivity].
  unfold evictable_count, evictable_frames. simpl.
  rewrite map_filter_insert_False by (simpl; congruence).
  by rewrite delete_empty, map_filter_empty, map_size_empty.
Qed.

(** C5 (fails on the code, by the defect of C3).  Frame 1 is accessed at
    time 1 and never made evictable, frame 2 is accessed at time 2 and
    made evictable: the only evictable frame is 2, and [Evict] returns
    1. *)
Theorem Evict_returns_frame_outside_candidates :
  ∃ r, run [OpRecordAccess 1 1; OpRecordAccess 2 2; OpSetEvictable 2 true] (New 7 2) = Ok r ∧
       dom (evictable_frames r) = {[ 2 ]} ∧
       (Evict r).1 = Some 1.
Proof. eexists. split; [vm_compute; reflexivity|]. split; vm_compute; reflexivity. Qed.

End LRUKReplacerProperties.

(** * Properties of the extendible hash table *)

Module ExtendibleHashTableProperties.

Import ExtendibleHashTable.

Section table.

Context {K V : Type} `{EqDecision K}.
Variable hash : K → Z.

Lemma list_assign_key_found (key : K) (value : V) (l : list (K * V)) :
  is_Some (list_find_key key l) →
  ∃ l', list_assign_key key value l = Some l' ∧ list_find_key key l' = Some value ∧
        length l' = length l.
Proof.
  induction l as [|entry l IH]; simpl.
  - intros [? [=]].
  - destruct (decide (entry.1 = key)) as [Heq|Hne].
    + intros _. eexists. split; [done|]. simpl.
      destruct (decide (entry.1 = key)); [done|contradiction].
    + intros Hs. destruct (IH Hs) as (l' & -> & Hfind & Hlen).
      eexists. split; [done|]. simpl.
      destruct (decide (entry.1 = key)); [contradiction|]. split; [done|]. by rewrite Hlen.
Qed.

(** A bucket that is full refuses every [Insert], also the one that
    would only overwrite a value. *)
Lemma BucketInsert_full (key : K) (value : V) (b : Bucket K V) :
  IsFull b = true → BucketInsert key value b = (false, b).
Proof. unfold BucketInsert. by intros ->. Qed.

Lemma BucketInsert_present (key : K) (value : V) (b : Bucket K V) :
  IsFull b = false → is_Some (BucketFind key b) →
  BucketFind key (BucketInsert key value b).2 = Some value.
Proof.
  unfold BucketInsert, BucketFind. intros -> Hs.
  destruct (list_assign_key_found key value (list_ b) Hs) as (l' & -> & Hfind & _).
  done.
Qed.

(** A key that is present in a bucket with room: the value is replaced in
    place and [Find] returns the new one. *)
Lemma Insert_present_not_full (fuel : nat) (key : K) (value : V) (h : t K V)
    (bucket : nat) (b : Bucket K V) :
  dir_at h (IndexOf hash key h) = Ok bucket →
  buckets_ h !! bucket = Some b →
  IsFull b = false →
  is_Some (BucketFind key b) →
  ∃ h', Insert hash (S fuel) key value h = Ok h' ∧ Find hash key h' = Ok (Some value).
Proof.
  intros Hdir Hb Hfull Hfind. unfold Insert. simpl. rewrite Hdir. simpl. rewrite Hb. simpl.
  rewrite Hfull. simpl. eexists. split; [reflexivity|].
  unfold Find, IndexOf, dir_at in *. simpl. 
  destruct (Z.land (hash key) (Z.shiftl 1 (global_depth_ h) - 1) <? 0); [done|].
  destruct (dir_ h !! _) as [bucket'|]; [|done]. injection Hdir as ->. simpl.
  rewrite list_lookup_insert_eq by (by eapply lookup_lt_Some). simpl.
  by rewrite BucketInsert_present.
Qed.

(** A key that is present in a full bucket: [InsertInternal] finds it and
    calls [Bucket::Insert], which returns at once because the bucket is
    full.  The table is unchanged and [Find] still returns the old
    value. *)
Lemma Insert_present_full (fuel : nat) (key : K) (value old : V) (h : t K V)
    (bucket : nat) (b : Bucket K V) :
  dir_at h (IndexOf hash key h) = Ok bucket →
  buckets_ h !! bucket = Some b →
  IsFull b = true →
  BucketFind key b = Some old →
  Insert hash (S fuel) key value h = Ok h ∧ Find hash key h = Ok (Some old).
Proof.
  intros Hdir Hb Hfull Hfind. unfold Insert, Find. simpl. rewrite Hdir. simpl. rewrite Hb. simpl.
  rewrite Hfull, Hfind. simpl.
  rewrite BucketInsert_full by done. simpl.
  rewrite list_insert_id by done. by destruct h.
Qed.

End table.

(** A run of the embedding with [bucket_size = 2]: the keys 4, 12 and 16
    agree on their low bit; the third insertion doubles the directory
    twice, and every key is found with its value. *)
Example Insert_splits_until_keys_separate :
  ∃ h, (h ← Insert std_hash_int 10 4 1 (New 2);
        h ← Insert std_hash_int 10 12 2 h;
        Insert std_hash_int 10 16 3 h) = Ok h ∧
       global_depth_ h = 3 ∧ length (dir_ h) = 8%nat ∧
       Find std_hash_int 4 h = Ok (Some 1) ∧
       Find std_hash_int 12 h = Ok (Some 2) ∧
       Find std_hash_int 16 h = Ok (Some 3).
Proof. eexists. split; [vm_compute; reflexivity|]. repeat split. Qed.

(** C4 (fails on the code).  With [bucket_size = 1], [Insert(0, 1)] fills
    the bucket of key 0; [Insert(0, 2)] then leaves the table as it is, and
    [Find(0)] yields 1, not 2. *)
Theorem Insert_duplicate_into_full_bucket_keeps_old_value :
  ∃ h, Insert std_hash_int 10 0 1 (New 1) = Ok h ∧
       Find std_hash_int 0 h = Ok (Some 1) ∧
       Insert std_hash_int 10 0 2 h = Ok h ∧
       (h' ← Insert std_hash_int 10 0 2 h; Find std_hash_int 0 h') = Ok (Some 1).
Proof. eexists. split; [vm_compute; reflexivity|]. repeat split. Qed.

End ExtendibleHashTableProperties.

(** * Properties of the buffer pool manager *)

Module BufferPoolManagerInstanceProperties.

Import BufferPoolManagerInstance.

Section pool.

Context {Data : Type}.
Variable zeroed : Data.

Abbreviation hash := ExtendibleHashTable.std_hash_int.

(** What [FlushPgImpInternal] passes to [WritePage], and the page it
    leaves behind. *)
Definition written (p : Page Data) : Z * Data := (GetPageId p, GetData p).
Definition cleaned (p : Page Data) : Page Data :=
  mkPage (data_ p) (page_id_ p) (pin_count_ p) false.

Lemma page_at_lookup (i : nat) (s : t Data) (p : Page Data) :
  pages_ s !! i = Some p → page_at (Z.of_nat i) s = Ok p.
Proof.
  intros Hp. unfold page_at.
  destruct (Z.of_nat i <? 0) eqn:Hneg; [apply Z.ltb_lt in Hneg; lia|].
  by rewrite Nat2Z.id, Hp.
Qed.

Lemma page_at_inv (frame_id : Z) (s : t Data) (p : Page Data) :
  page_at frame_id s = Ok p → 0 <= frame_id ∧ pages_ s !! Z.to_nat frame_id = Some p.
Proof.
  unfold page_at. destruct (frame_id <? 0) eqn:Hneg; [done|].
  apply Z.ltb_ge in Hneg. destruct (pages_ s !! Z.to_nat frame_id); [|done].
  by intros [= ->].
Qed.

Lemma FlushAllPgsImp_loop_spec (n i : nat) (s : t Data) :
  (i + n)%nat = length (pages_ s) →
  ∃ s', FlushAllPgsImp_loop n (Z.of_nat i) s = Ok s' ∧
        disk_manager_ s' = rev (written <$> drop i (pages_ s)) ++ disk_manager_ s ∧
        pages_ s' = take i (pages_ s) ++ (cleaned <$> drop i (pages_ s)) ∧
        page_table_ s' = page_table_ s ∧ replacer_ s' = replacer_ s ∧
        free_list_ s' = free_list_ s.
Proof.
  revert i s. induction n as [|n IH]; intros i s Hlen; simpl.
  - exists s. split; [done|].
    rewrite drop_ge by lia. rewrite take_ge by lia. simpl. by rewrite app_nil_r.
  - destruct (lookup_lt_is_Some_2 (pages_ s) i) as [p Hp]; [lia|].
    unfold FlushPgImpInternal. rewrite (page_at_lookup _ _ _ Hp). simpl.
    set (s1 := set_page _ _ _).
    replace (Z.of_nat i + 1) with (Z.of_nat (S i)) by lia.
    destruct (IH (S i) s1) as (s' & Hrun & Hdisk & Hpages & Htab & Hrep & Hfree).
    { subst s1. simpl. rewrite length_insert. lia. }
    exists s'. split; [done|]. subst s1. simpl in *. rewrite Nat2Z.id in *.
    rewrite (drop_S _ _ _ Hp). simpl.
    rewrite drop_insert_lt in Hdisk, Hpages by lia.
    split; [|split; [|done]].
    + rewrite Hdisk. unfold WritePage, written. by rewrite <- app_assoc.
    + rewrite Hpages. rewrite (take_S_r _ _ (cleaned p)).
      * rewrite take_insert_ge by lia. by rewrite <- app_assoc.
      * apply list_lookup_insert_eq. by eapply lookup_lt_Some.
Qed.

(** [FlushAllPgsImp] calls [WritePage] once for every frame of the pool,
    in frame order, with the page id the frame holds at that moment, and
    leaves every frame clean.  A frame that holds no page has page id
    [INVALID_PAGE_ID], and that is the id written for it. *)
Lemma FlushAllPgsImp_writes_every_frame (s : t Data) :
  length (pages_ s) = pool_size_ s →
  ∃ s', FlushAllPgsImp s = Ok s' ∧
        disk_manager_ s' = rev (written <$> pages_ s) ++ disk_manager_ s ∧
        pages_ s' = cleaned <$> pages_ s.
Proof.
  intros Hlen. unfold FlushAllPgsImp.
  destruct (FlushAllPgsImp_loop_spec (pool_size_ s) 0 s) as (s' & Hrun & Hdisk & Hpages & _);
    [by rewrite Hlen|].
  exists s'. by rewrite drop_0, take_0 in *.
Qed.

(** C2.  [UnpinPgImp(page_id, is_dirty)] on any state of the pool:
    - the page is not in the page table: [false], nothing changes;
    - its pin count is zero (or less): [false], nothing changes;
    - otherwise [true]; the page gets the dirty flag [old || is_dirty] and
      the pin count minus one, everything else in its frame and every
      other frame stay; if the count is still positive the replacer is not
      touched; if it reached zero the replacer is the result of
      [SetEvictable(frame_id, true)], in which the [is_evictable_] flag
      of the frame is [true], and a further [UnpinPgImp] of the page
      returns [false] and changes nothing. *)
Theorem UnpinPgImp_spec (s : t Data) (page_id : Z) (is_dirty : bool) :
  (ExtendibleHashTable.Find hash page_id (page_table_ s) = Ok None →
   UnpinPgImp page_id is_dirty s = Ok (false, s)) ∧
  (∀ frame_id page,
     ExtendibleHashTable.Find hash page_id (page_table_ s) = Ok (Some frame_id) →
     page_at frame_id s = Ok page →
     (GetPinCount page <= 0 → UnpinPgImp page_id is_dirty s = Ok (false, s)) ∧
     (0 < GetPinCount page →
      let page' := mkPage (data_ page) (page_id_ page) (pin_count_ page - 1)
                          (is_dirty_ page || is_dirty) in
      (GetPinCount page ≠ 1 →
       UnpinPgImp page_id is_dirty s = Ok (true, set_page frame_id page' s)) ∧
      (GetPinCount page = 1 →
       ∀ frame, LRUKReplacer.frame_index_map_ (replacer_ s) !! frame_id = Some frame →
         ∃ r, LRUKReplacer.SetEvictable frame_id true (replacer_ s) = Ok r ∧
              LRUKReplacer.frame_index_map_ r !! frame_id
                = Some (LRUKReplacer.FrameSetEvictable true frame) ∧
              (LRUKReplacer.is_evictable_ <$> LRUKReplacer.frame_index_map_ r !! frame_id)
                = Some true ∧
              let s' := set_replacer r (set_page frame_id page' s) in
              UnpinPgImp page_id is_dirty s = Ok (true, s') ∧
              ∀ is_dirty', UnpinPgImp page_id is_dirty' s' = Ok (false, s')))).
Proof.
  split.
  { intros Hfind. unfold UnpinPgImp. by rewrite Hfind. }
  intros frame_id page Hfind Hpage. split.
  { intros Hpin. unfold UnpinPgImp. rewrite Hfind. simpl. rewrite Hpage. simpl.
    by destruct (Z.leb_spec (GetPinCount page) 0); [|lia]. }
  intros Hpin page'.
  assert (Hdirty : (if is_dirty
                    then mkPage (data_ page) (page_id_ page) (pin_count_ page) is_dirty
                    else page)
                   = mkPage (data_ page) (page_id_ page) (pin_count_ page)
                            (is_dirty_ page || is_dirty)).
  { destruct is_dirty; [by rewrite orb_true_r|]. rewrite orb_false_r. by destruct page. }
  unfold GetPinCount in *. split.
  - intros Hne. unfold UnpinPgImp. rewrite Hfind. simpl. rewrite Hpage. simpl.
    unfold GetPinCount. destruct (Z.leb_spec (pin_count_ page) 0); [lia|].
    rewrite Hdirty. simpl.
    destruct (Z.eqb_spec (pin_count_ page) 0); [lia|].
    by destruct (Z.eqb_spec (pin_count_ page - 1) 0); [lia|].
  - intros Hone frame Hframe.
    unfold LRUKReplacer.SetEvictable. rewrite Hframe. simpl.
    eexists. split; [reflexivity|]. split; [simpl; apply lookup_insert_eq|].
    split; [simpl; by rewrite lookup_insert_eq|].
    simpl. split.
    + unfold UnpinPgImp. rewrite Hfind. simpl. rewrite Hpage. simpl.
      unfold GetPinCount. destruct (Z.leb_spec (pin_count_ page) 0); [lia|].
      rewrite Hdirty. simpl.
      destruct (Z.eqb_spec (pin_count_ page) 0); [lia|].
      destruct (Z.eqb_spec (pin_count_ page - 1) 0); [|lia].
      unfold LRUKReplacer.SetEvictable. rewrite Hframe. reflexivity.
    + intros is_dirty'. unfold UnpinPgImp. simpl. rewrite Hfind. simpl.
      destruct (page_at_inv _ _ _ Hpage) as [Hnonneg Hlook].
      unfold page_at. simpl. destruct (Z.ltb_spec frame_id 0); [lia|].
      rewrite list_lookup_insert_eq by (by eapply lookup_lt_Some). simpl.
      unfold GetPinCount. simpl.
      by destruct (Z.leb_spec (pin_count_ page - 1) 0); [|lia].
Qed.

End pool.

(** A pool of three frames with one page, page 0 in frame 0, pinned
    once. *)
Definition one_page_pool : t Z :=
  match NewPgImp 0 10 1 (New 0 3 4 2) with
  | Ok r => r.2
  | _ => New 0 3 4 2
  end.

(** The same pool after a [FetchPgImp] of page 0: pinned twice. *)
Definition twice_pinned_pool : t Z :=
  match FetchPgImp 0 10 2 0 one_page_pool with
  | Ok r => r.2
  | _ => one_page_pool
  end.

Lemma UnpinPgImp_spec_witness :
  (ExtendibleHashTable.Find ExtendibleHashTable.std_hash_int 7 (page_table_ one_page_pool) = Ok None ∧
   UnpinPgImp 7 true one_page_pool = Ok (false, one_page_pool)) ∧
  (page_at 0 twice_pinned_pool = Ok (mkPage 0 0 2 false) ∧
   UnpinPgImp 0 true twice_pinned_pool
   = Ok (true, set_page 0 (mkPage 0 0 1 true) twice_pinned_pool)) ∧
  (page_at 0 one_page_pool = Ok (mkPage 0 0 1 false) ∧
   ∃ r, UnpinPgImp 0 true one_page_pool
        = Ok (true, set_replacer r (set_page 0 (mkPage 0 0 0 true) one_page_pool)) ∧
        UnpinPgImp 0 false (set_replacer r (set_page 0 (mkPage 0 0 0 true) one_page_pool))
        = Ok (false, set_replacer r (set_page 0 (mkPage 0 0 0 true) one_page_pool))).
Proof.
  split; [split; [vm_compute; reflexivity|]|split; (split; [vm_compute; reflexivity|])].
  - apply (proj1 (UnpinPgImp_spec one_page_pool 7 true)). vm_compute. reflexivity.
  - destruct (proj2 (UnpinPgImp_spec twice_pinned_pool 0 true) 0 (mkPage 0 0 2 false)) as [_ H];
      [vm_compute; reflexivity|vm_compute; reflexivity|].
    destruct (H ltac:(simpl; lia)) as [H1 _]. apply H1. simpl. lia.
  - destruct (proj2 (UnpinPgImp_spec one_page_pool 0 true) 0 (mkPage 0 0 1 false)) as [_ H];
      [vm_compute; reflexivity|vm_compute; reflexivity|].
    destruct (H ltac:(simpl; lia)) as [_ H1].
    destruct (H1 eq_refl (LRUKReplacer.mkFrameAccessHistory false 2 0 [1]))
      as (r & _ & _ & _ & Hu & Hagain); [vm_compute; reflexivity|].
    exists r. split; [exact Hu|apply Hagain].
Defined.

(** A run of the embedding with three frames and k = 2: three
    [NewPgImp] give the pages 0, 1, 2, a fourth gives nothing; after
    [UnpinPgImp(0, true)] a [NewPgImp] gives page 3 in the frame of page 0,
    and page 0 has been written to disk. *)
Example NewPgImp_evicts_unpinned_page :
  ∃ s3 s4 s5,
    (r ← NewPgImp 0 10 1 (New 0 3 4 2); r ← NewPgImp 0 10 2 r.2; NewPgImp 0 10 3 r.2)
      = Ok (Some (2, 2), s3) ∧
    NewPgImp 0 10 4 s3 = Ok (None, s3) ∧
    UnpinPgImp 0 true s3 = Ok (true, s4) ∧
    NewPgImp 0 10 5 s4 = Ok (Some (3, 0), s5) ∧
    disk_manager_ s5 = [(0, 0)].
Proof.
  eexists. eexists. eexists. split; [vm_compute; reflexivity|].
  split; [vm_compute; reflexivity|]. split; [vm_compute; reflexivity|].
  split; vm_compute; reflexivity.
Qed.

(** C7 (fails on the code).  A pool of three frames after one [NewPgImp]:
    page 0 is in frame 0, frames 1 and 2 are on the free list.
    [FlushAllPgsImp] calls [WritePage] three times: for page 0, and twice
    with [INVALID_PAGE_ID] for the two free frames. *)
Theorem FlushAllPgsImp_writes_free_frames :
  free_list_ one_page_pool = [1; 2] ∧
  page_id_ <$> pages_ one_page_pool = [0; INVALID_PAGE_ID; INVALID_PAGE_ID] ∧
  ∃ s', FlushAllPgsImp one_page_pool = Ok s' ∧
        disk_manager_ s' = [(INVALID_PAGE_ID, 0); (INVALID_PAGE_ID, 0); (0, 0)].
Proof.
  split; [vm_compute; reflexivity|]. split; [vm_compute; reflexivity|].
  eexists. split; vm_compute; reflexivity.
Qed.

End BufferPoolManagerInstanceProperties.

(** * Properties of the B+Tree *)

Module BPlusTreeProperties.

Import BPlusTreePage BPlusTree.

(** ** Searching a leaf *)

(** The keys in the slots [0, GetSize()) are in ascending order. *)
Definition keys_sorted (p : BPlusTreePage.t) : Prop :=
  ∀ a b, 0 <= a → a < b → b < GetSize p → KeyAt a p < KeyAt b p.

Lemma comparator_eq (a b : Z) : comparator_ a b = 0 ↔ a = b.
Proof.
  unfold comparator_. destruct (Z.compare_spec a b); split; intros; try done; lia.
Qed.

Lemma comparator_gt (a b : Z) : comparator_ a b = 1 ↔ b < a.
Proof.
  unfold comparator_. destruct (Z.compare_spec a b); split; intros; try done; lia.
Qed.

(** The binary search of a sorted page returns -1 for a key that is in
    the interval searched. *)
Lemma binary_search_present (n : nat) (key : Z) (p : BPlusTreePage.t) (low high result i : Z) :
  keys_sorted p →
  0 <= low → high < GetSize p → low <= i → i <= high →
  KeyAt i p = key →
  high - low < Z.of_nat n →
  binary_search n key p low high result = -1.
Proof.
  intros Hsorted. revert low high result.
  induction n as [|n IH]; intros low high result Hlow Hhigh Hli Hih Hkey Hn; [lia|].
  simpl. destruct (Z.leb_spec low high); [|lia].
  assert (Hmid : low <= Z.quot (low + high) 2 <= high).
  { rewrite Z.quot_div_nonneg by lia. split.
    - apply Z.div_le_lower_bound; lia.
    - apply Z.div_le_upper_bound; lia. }
  set (mid := Z.quot (low + high) 2) in *.
  destruct (Z.eqb_spec (comparator_ key (KeyAt mid p)) 0) as [|Hne]; [done|].
  destruct (Z.eqb_spec (comparator_ key (KeyAt mid p)) 1) as [Hgt|Hngt].
  - apply comparator_gt in Hgt.
    assert (mid < i).
    { destruct (Z.lt_trichotomy i mid) as [Hlt|[Heq|Hlt]]; [|subst i; lia|done].
      specialize (Hsorted i mid). lia. }
    apply IH; lia.
  - assert (i < mid).
    { destruct (Z.lt_trichotomy i mid) as [Hlt|[Heq|Hlt]]; [done| |].
      - subst i. contradict Hne. by apply comparator_eq.
      - contradict Hngt. apply comparator_gt. specialize (Hsorted mid i). lia. }
    apply IH; lia.
Qed.

Lemma FindIndexInLeafPageJustGreaterThanKey_present (key : Z) (p : BPlusTreePage.t) (i : Z) :
  keys_sorted p → 0 <= i → i < GetSize p → KeyAt i p = key →
  FindIndexInLeafPageJustGreaterThanKey key p = -1.
Proof.
  intros. unfold FindIndexInLeafPageJustGreaterThanKey.
  eapply binary_search_present; eauto; lia.
Qed.

(** ** Insert of a key the target leaf already holds *)

(** When the search of the target leaf reports the key (-1), [Insert]
    leaves the tree and the pool as they are.  Its result is [false] if
    the leaf has room, and [true] if the leaf is full: the -1 that
    [SplitLeafPageAndAddKey] returns for a duplicate becomes [true] when
    [Insert] returns it as a [bool]. *)
Lemma Insert_reported_key (fuel : nat) (key value : Z) (s : BPlusTree.t) (leaf : Z)
    (lp : BPlusTreePage.t) :
  root_page_id_ s ≠ INVALID_PAGE_ID →
  descend fuel key (root_page_id_ s) s = Ok leaf →
  pages_ s !! leaf = Some lp →
  FindIndexInLeafPageJustGreaterThanKey key lp = -1 →
  Insert fuel key value s = Ok (GetSize lp =? leaf_max_size_ s, s).
Proof.
  intros Hroot Hdesc Hlp Hfind. unfold Insert.
  destruct (Z.eqb_spec (root_page_id_ s) INVALID_PAGE_ID); [done|]. simpl.
  rewrite Hdesc. simpl. unfold FetchPage at 1. rewrite Hlp. simpl.
  destruct (GetSize lp =? leaf_max_size_ s).
  - unfold SplitLeafPageAndAddKey, FetchPage. rewrite Hlp. simpl. by rewrite Hfind.
  - by rewrite Hfind.
Qed.

(** For a sorted leaf that holds the key. *)
Lemma Insert_duplicate_key (fuel : nat) (key value : Z) (s : BPlusTree.t) (leaf : Z)
    (lp : BPlusTreePage.t) (i : Z) :
  root_page_id_ s ≠ INVALID_PAGE_ID →
  descend fuel key (root_page_id_ s) s = Ok leaf →
  pages_ s !! leaf = Some lp →
  keys_sorted lp → 0 <= i → i < GetSize lp → KeyAt i lp = key →
  Insert fuel key value s = Ok (GetSize lp =? leaf_max_size_ s, s).
Proof.
  intros. eapply Insert_reported_key; eauto.
  eapply FindIndexInLeafPageJustGreaterThanKey_present; eauto.
Qed.

(** C1 (fails on the code).  With [leaf_max_size = 3] the keys 10, 20, 5
    fill the root leaf.  [Insert] of 10 again leaves the tree unchanged
    but returns [true]. *)
Theorem Insert_duplicate_into_full_leaf_returns_true :
  ∃ s, insert_all 50 [10; 20; 5] (New 3 3) = Ok ([true; true; true], s) ∧
       (∃ lp, pages_ s !! root_page_id_ s = Some lp ∧ IsLeafPage lp = true ∧
              GetSize lp = leaf_max_size_ s ∧ KeyAt 1 lp = 10) ∧
       GetValue 50 10 s = Ok (true, [10]) ∧
       Insert 50 10 10 s = Ok (true, s).
Proof.
  eexists. split; [vm_compute; reflexivity|].
  split; [eexists; repeat split|]. split; vm_compute; reflexivity.
Qed.

(** ** Remove *)

(** [CoalesceLeafNode] on a leaf that is not above half of its maximum,
    when neither the right nor the left sibling is small enough to be
    merged with it: nothing is done.  There is no redistribution. *)
Lemma CoalesceLeafNode_no_merge (fuel : nat) (leafPage : Z) (s : BPlusTree.t)
    (lp parent_page right_leaf_page left_leaf_page : BPlusTreePage.t) :
  pages_ s !! leafPage = Some lp →
  GetSize lp <= Z.quot (GetMaxSize lp) 2 →
  pages_ s !! GetParentPageId lp = Some parent_page →
  pages_ s !! Internal.FindNextPageId (GetPageId lp) parent_page = Some right_leaf_page →
  leaf_max_size_ s <= GetSize right_leaf_page + GetSize lp →
  pages_ s !! Internal.FindPreviousPageId (GetPageId lp) parent_page = Some left_leaf_page →
  leaf_max_size_ s <= GetSize left_leaf_page + GetSize lp →
  CoalesceLeafNode fuel leafPage s = Ok (true, s).
Proof.
  intros Hlp Hsize Hparent Hright Hrs Hleft Hls.
  unfold CoalesceLeafNode, FetchPage. rewrite Hlp. simpl.
  destruct (Z.ltb_spec (Z.quot (GetMaxSize lp) 2) (GetSize lp)); [lia|].
  rewrite Hparent. simpl. rewrite Hright. simpl.
  destruct (Z.ltb_spec (GetSize right_leaf_page + GetSize lp) (leaf_max_size_ s)); [lia|].
  rewrite Hleft. simpl.
  by destruct (Z.ltb_spec (GetSize left_leaf_page + GetSize lp) (leaf_max_size_ s)); [lia|].
Qed.

(** C6 (fails on the code).  With [leaf_max_size = internal_max_size = 3]
    the keys 1..6 give the leaves [1,2], [3,4], [5,6] (pages 1, 2, 4) under
    the root (page 3), every one of them half full.  [Remove(3)] leaves
    page 2 with the one key 4: neither sibling can take it in a merge, and
    the leaf stays below [⌈3/2⌉ = 2]. *)
Theorem Remove_leaves_leaf_below_half :
  ∃ s s', insert_all 50 [1; 2; 3; 4; 5; 6] (New 3 3) = Ok (replicate 6 true, s) ∧
          non_root_pages_half_full s = true ∧
          Remove 50 3 s = Ok s' ∧
          non_root_pages_half_full s' = false ∧
          ∃ root lp, pages_ s' !! root_page_id_ s' = Some root ∧
                     ValueAt 1 root = 2 ∧ 1 < GetSize root ∧
                     pages_ s' !! 2 = Some lp ∧
                     root_page_id_ s' ≠ 2 ∧
                     IsLeafPage lp = true ∧
                     GetSize lp = 1 ∧ GetMaxSize lp = 3 ∧
                     half_full lp = false.
Proof.
  eexists. eexists. split; [vm_compute; reflexivity|].
  split; [vm_compute; reflexivity|].
  split; [vm_compute; reflexivity|].
  split; [vm_compute; reflexivity|].
  eexists. eexists. split; [vm_compute; reflexivity|].
  split; [reflexivity|]. split; [reflexivity|].
  split; [vm_compute; reflexivity|]. repeat split. vm_compute. congruence.
Qed.

(** ** The iterator *)

(** [Begin()] does not depend on the tree, and a scan from [Begin()] to
    [End()] visits nothing when both are the same fresh iterator. *)
Lemma Begin_ignores_tree (fresh : IndexIterator) (s s' : BPlusTree.t) :
  Begin fresh s = Begin fresh s'.
Proof. reflexivity. Qed.

Lemma iterator_neqb_refl (it : IndexIterator) : iterator_neqb it it = false.
Proof. unfold iterator_neqb. by rewrite !Z.eqb_refl. Qed.

Lemma scan_fresh_is_empty (fuel : nat) (fresh : IndexIterator) (s : BPlusTree.t) :
  scan (S fuel) fresh fresh s = Ok [].
Proof. unfold scan, Begin, End. simpl. by rewrite iterator_neqb_refl. Qed.

(** C8 (fails on the code).  The keys 1..10 are inserted in a shuffled
    order and every one of them is found by [GetValue]; the scan from
    [Begin()] to [End()] yields no key at all, and [Begin()] is not an
    iterator at the leaf of key 1. *)
Theorem scan_of_ten_keys_is_empty :
  ∃ s, insert_all 50 [7; 3; 10; 1; 5; 9; 2; 8; 4; 6] (New 3 3) = Ok (replicate 10 true, s) ∧
       (∀ key, key ∈ seqZ 1 10 → GetValue 50 key s = Ok (true, [key])) ∧
       ∀ fresh fuel, scan (S fuel) fresh fresh s = Ok [] ∧
                     scan (S fuel) fresh fresh s ≠ Ok (seqZ 1 10).
Proof.
  eexists. split; [vm_compute; reflexivity|]. split.
  - intros key Hkey. apply list_elem_of_In in Hkey. simpl in Hkey.
    repeat (destruct Hkey as [<-|Hkey]; [vm_compute; reflexivity|]). done.
  - intros fresh fuel. rewrite scan_fresh_is_empty. split; [done|]. discriminate.
Qed.

(** ** SetKeyAt *)

(** C9.  [SetKeyAt] returns the page it was given, for every page, index
    and key: the key of every slot is what it was. *)
Theorem SetKeyAt_changes_nothing (index key : Z) (p : BPlusTreePage.t) :
  Internal.SetKeyAt index key p = p ∧
  ∀ i, KeyAt i (Internal.SetKeyAt index key p) = KeyAt i p.
Proof. split; reflexivity. Qed.

(** Through a page pointer of the tree: the pool is unchanged. *)
Lemma SetKeyAt_on_page (index key : Z) (page_id : Z) (s : BPlusTree.t) (p : BPlusTreePage.t) :
  pages_ s !! page_id = Some p →
  on_page page_id (Internal.SetKeyAt index key) s = Ok s.
Proof.
  intros Hp. unfold on_page, FetchPage. rewrite Hp. simpl.
  unfold Internal.SetKeyAt, set_pages. rewrite insert_id by done. by destruct s.
Qed.

End BPlusTreeProperties.

(** * Further properties of the LRU-K replacer *)

Module LRUKReplacerInvariants.

Import LRUKReplacer LRUKReplacerProperties.

(** ** The history of one frame *)

(** The history after the accesses at the times [ts], in that order. *)
Definition record_all (ts : list Z) (f : FrameAccessHistory) : FrameAccessHistory :=
  foldl (λ f nanos, FrameRecordAccess nanos f) f ts.

Lemma FrameRecordAccess_take (k : nat) (nanos : Z) (l : list Z) (f : FrameAccessHistory) :
  (1 <= k)%nat → look_back_size_ f = k → access_history_ f = take k l →
  access_history_ (FrameRecordAccess nanos f) = take k (nanos :: l).
Proof.
  intros Hk Hlook Hhist. unfold FrameRecordAccess.
  cbn [access_history_ look_back_size_]. rewrite Hlook, Hhist.
  destruct k as [|k]; [lia|]. change (take (S k) (nanos :: l)) with (nanos :: take k l).
  f_equal.
  destruct (Nat.leb_spec (S k) (length (take (S k) l))) as [Hle|Hlt].
  - rewrite length_take in Hle. apply removelast_firstn. lia.
  - rewrite length_take in Hlt. rewrite !take_ge by lia. done.
Qed.

Lemma record_all_fields (ts : list Z) (f : FrameAccessHistory) :
  look_back_size_ (record_all ts f) = look_back_size_ f ∧
  frame_id_ (record_all ts f) = frame_id_ f ∧
  is_evictable_ (record_all ts f) = is_evictable_ f.
Proof.
  revert f. induction ts as [|nanos ts IH]; intros f; simpl; [done|].
  destruct (IH (FrameRecordAccess nanos f)) as (-> & -> & ->). done.
Qed.

(** X1.  [FrameAccessHistory::RecordAccess] keeps the [k] most recent
    timestamps, the newest at the front: after the accesses at the times
    [ts] a new history object holds the first [k] elements of [ts]
    reversed.  So [back()] is the first access while there are fewer than
    [k] accesses, and the [k]-th most recent one afterwards. *)
Theorem record_all_keeps_k_most_recent (k : nat) (frame_id : Z) (ts : list Z) :
  (1 <= k)%nat →
  access_history_ (record_all ts (NewFrameAccessHistory frame_id k)) = take k (reverse ts).
Proof.
  intros Hk.
  assert (Hgen : ∀ f l, look_back_size_ f = k → access_history_ f = take k l →
                        access_history_ (record_all ts f) = take k (reverse ts ++ l)).
  { induction ts as [|nanos ts IH]; intros f l Hlook Hhist; simpl; [done|].
    rewrite reverse_cons, <- app_assoc. simpl. apply IH; [done|].
    by apply FrameRecordAccess_take. }
  rewrite <- (app_nil_r (reverse ts)). apply Hgen; [done|]. by destruct k.
Qed.

Lemma record_all_keeps_k_most_recent_witness :
  access_history_ (record_all [10; 20; 30] (NewFrameAccessHistory 4 2)) = [30; 20].
Proof. apply (record_all_keeps_k_most_recent 2 4 [10; 20; 30]). lia. Defined.

(** ** The comparator *)

(** Neither frame is ordered before the other. *)
Definition equivalent (f g : FrameAccessHistory) : Prop :=
  FrameAccessHistoryOrderComparison f g = false ∧
  FrameAccessHistoryOrderComparison g f = false.

(** X2.  [FrameAccessHistoryOrderComparison] is a strict weak order, as
    [std::set] requires of its comparator: irreflexive, asymmetric,
    transitive, and with a transitive equivalence.  Two frames are
    equivalent exactly when both or neither have [k] accesses and their
    [back()] timestamps are equal. *)
Theorem comparison_strict_weak_order :
  (∀ f, FrameAccessHistoryOrderComparison f f = false) ∧
  (∀ f g, FrameAccessHistoryOrderComparison f g = true →
          FrameAccessHistoryOrderComparison g f = false) ∧
  (∀ f g h, FrameAccessHistoryOrderComparison f g = true →
            FrameAccessHistoryOrderComparison g h = true →
            FrameAccessHistoryOrderComparison f h = true) ∧
  (∀ f g, equivalent f g ↔
          hist_available f = hist_available g ∧
          back (access_history_ f) = back (access_history_ g)) ∧
  (∀ f g h, equivalent f g → equivalent g h → equivalent f h).
Proof.
  assert (Heq : ∀ f g, equivalent f g ↔
                       hist_available f = hist_available g ∧
                       back (access_history_ f) = back (access_history_ g)).
  { intros f g. unfold equivalent. rewrite !comparison_unfold.
    destruct (hist_available f), (hist_available g); rewrite ?Z.ltb_ge;
      split; intros [? ?]; try done; split; try done; lia. }
  split; [apply comparison_irrefl|]. split; [apply comparison_asym|].
  split; [apply comparison_trans|]. split; [done|].
  intros f g h Hfg Hgh. apply Heq in Hfg as [? ?]. apply Heq in Hgh as [? ?].
  apply Heq. split; congruence.
Qed.

Lemma comparison_strict_weak_order_witness :
  let f := mkFrameAccessHistory true 2 1 [5; 3] in
  let g := mkFrameAccessHistory true 2 2 [4] in
  let h := mkFrameAccessHistory true 2 3 [2] in
  FrameAccessHistoryOrderComparison f g = true ∧
  FrameAccessHistoryOrderComparison g h = true ∧
  FrameAccessHistoryOrderComparison g f = false ∧
  FrameAccessHistoryOrderComparison f h = true.
Proof.
  intros f g h.
  destruct comparison_strict_weak_order as (_ & Hasym & Htrans & _).
  assert (Hfg : FrameAccessHistoryOrderComparison f g = true) by reflexivity.
  assert (Hgh : FrameAccessHistoryOrderComparison g h = true) by reflexivity.
  split; [exact Hfg|]. split; [exact Hgh|].
  split; [exact (Hasym f g Hfg)|exact (Htrans f g h Hfg Hgh)].
Defined.

(** ** The candidate set in the states a replacer can reach *)

Definition frame_ids (s : list FrameAccessHistory) : list Z := frame_id_ <$> s.

Lemma rbegin_None (s : list FrameAccessHistory) : rbegin s = None → s = [].
Proof.
  unfold rbegin. induction s as [|z s IH]; [done|]. simpl.
  destruct s as [|z' s']; [done|]. intros Hl. by specialize (IH Hl).
Qed.

Lemma rbegin_elem (s : list FrameAccessHistory) (f : FrameAccessHistory) :
  rbegin s = Some f → f ∈ s.
Proof.
  unfold rbegin. induction s as [|z s IH]; [done|]. simpl.
  destruct s as [|z' s'].
  - intros [= ->]. apply elem_of_cons. by left.
  - intros Hl. apply elem_of_cons. right. by apply IH.
Qed.

Lemma RemoveFrameFromSetInternal_length (frame_id : Z) (s : list FrameAccessHistory) :
  frame_id ∈ frame_ids s →
  (length (RemoveFrameFromSetInternal frame_id s) + 1 = length s)%nat.
Proof.
  unfold frame_ids. induction s as [|z s IH]; simpl.
  - intros Hin. by apply elem_of_nil in Hin.
  - unfold GetFrameId. destruct (Z.eqb_spec (frame_id_ z) frame_id) as [|Hne]; [lia|].
    intros Hin. apply elem_of_cons in Hin as [?|Hin]; [congruence|].
    simpl. specialize (IH Hin). lia.
Qed.

Lemma RemoveFrameFromSetInternal_length_le (frame_id : Z) (s : list FrameAccessHistory) :
  (length (RemoveFrameFromSetInternal frame_id s) <= length s)%nat.
Proof.
  induction s as [|z s IH]; simpl; [done|].
  destruct (GetFrameId z =? frame_id); simpl; lia.
Qed.

(** X3.  In every state reached from a new replacer, the frames of
    [frame_history_set_] are frames of [frame_index_map_] (under their own
    id, with the same history and flag), no frame is in the set twice, and
    so [Size()] is at most the number of frames the replacer tracks. *)
Theorem candidates_are_tracked_frames (ops : list op) (num_frames k : nat) (r : t) :
  run ops (New num_frames k) = Ok r →
  (∀ f, f ∈ frame_history_set_ r → frame_index_map_ r !! frame_id_ f = Some f) ∧
  NoDup (frame_ids (frame_history_set_ r)) ∧
  (Size r <= size (frame_index_map_ r))%nat.
Proof.
  intros Hrun. destruct (run_coherent _ _ _ _ Hrun) as [Hids Hset Hnd].
  split; [done|]. split; [done|].
  unfold Size. rewrite <- (length_fmap frame_id_).
  rewrite <- (size_list_to_set (C := gset Z)) by done.
  rewrite <- size_dom. apply subseteq_size.
  intros fid Hfid. apply elem_of_list_to_set in Hfid.
  apply list_elem_of_fmap in Hfid as (f & -> & Hf).
  apply elem_of_dom. rewrite (Hset f Hf). eauto.
Qed.

Lemma candidates_are_tracked_frames_witness :
  ∃ r, run six_frames (New 7 2) = Ok r ∧ (Size r <= size (frame_index_map_ r))%nat.
Proof.
  eexists. split; [vm_compute; reflexivity|].
  apply (candidates_are_tracked_frames six_frames 7 2). vm_compute. reflexivity.
Defined.

(** X4.  [Evict] in a reachable state.  With no candidate it returns
    nothing and changes nothing.  Otherwise the victim was a tracked frame;
    afterwards it is neither tracked nor a candidate, [Size()] is one less,
    and every other frame is tracked as before. *)
Theorem Evict_erases_victim (ops : list op) (num_frames k : nat) (r : t) :
  run ops (New num_frames k) = Ok r →
  match Evict r with
  | (None, r') => Size r = 0%nat ∧ r' = r
  | (Some frame_id, r') =>
      is_Some (frame_index_map_ r !! frame_id) ∧
      frame_index_map_ r' !! frame_id = None ∧
      (frame_id ∉ frame_ids (frame_history_set_ r')) ∧
      (Size r' + 1 = Size r)%nat ∧
      ∀ other, other ≠ frame_id → frame_index_map_ r' !! other = frame_index_map_ r !! other
  end.
Proof.
  intros Hrun. destruct (run_coherent _ _ _ _ Hrun) as [Hids Hset Hnd].
  unfold Evict, Size. destruct (rbegin (frame_history_set_ r)) as [f|] eqn:Hf.
  - apply rbegin_elem in Hf. simpl. unfold GetFrameId.
    split; [rewrite (Hset f Hf); eauto|].
    split; [apply lookup_delete_eq|].
    split; [by apply RemoveFrameFromSetInternal_nodup|].
    split; [apply RemoveFrameFromSetInternal_length; by apply list_elem_of_fmap_2|].
    intros other Hne. by apply lookup_delete_ne.
  - apply rbegin_None in Hf. by rewrite Hf.
Qed.

Lemma Evict_erases_victim_witness :
  ∃ r, run six_frames (New 7 2) = Ok r ∧
       (Evict r).1 = Some 1 ∧ frame_index_map_ (Evict r).2 !! 1 = None ∧
       Size (Evict r).2 = 5%nat.
Proof.
  eexists. split; [vm_compute; reflexivity|].
  match goal with |- context [Evict ?r] =>
    pose proof (Evict_erases_victim six_frames 7 2 r ltac:(vm_compute; reflexivity)) as H
  end.
  vm_compute in H. destruct H as (_ & Hgone & _ & Hsize & _).
  split; [reflexivity|]. split; [exact Hgone|]. vm_compute. reflexivity.
Defined.

(** X5.  [SetEvictable(frame_id, false)] in a reachable state, for a frame
    the replacer tracks: the frame stays tracked, its [is_evictable_] flag
    is [false], it is not a candidate any more, [Evict] does not return it,
    and [Size()] has not grown.  For a frame the replacer does not track the source
    dereferences [end()]. *)
Theorem SetEvictable_false_shields_frame (ops : list op) (num_frames k : nat) (r : t)
    (frame_id : Z) :
  run ops (New num_frames k) = Ok r →
  match frame_index_map_ r !! frame_id with
  | None => SetEvictable frame_id false r = Undefined
  | Some frame =>
      ∃ r', SetEvictable frame_id false r = Ok r' ∧
            frame_index_map_ r' !! frame_id = Some (FrameSetEvictable false frame) ∧
            (is_evictable_ <$> frame_index_map_ r' !! frame_id) = Some false ∧
            (frame_id ∉ frame_ids (frame_history_set_ r')) ∧
            (Evict r').1 ≠ Some frame_id ∧
            (Size r' <= Size r)%nat
  end.
Proof.
  intros Hrun. destruct (run_coherent _ _ _ _ Hrun) as [Hids Hset Hnd].
  unfold SetEvictable. destruct (frame_index_map_ r !! frame_id) as [frame|]; [|done].
  simpl. eexists. split; [reflexivity|]. simpl.
  destruct (RemoveFrameFromSetInternal_nodup frame_id _ Hnd) as [_ Hnot].
  split; [apply lookup_insert_eq|]. split; [by rewrite lookup_insert_eq|].
  split; [exact Hnot|]. split.
  - unfold Evict. simpl.
    destruct (rbegin (RemoveFrameFromSetInternal frame_id (frame_history_set_ r))) as [f|] eqn:Hf;
      simpl; [|discriminate].
    intros [= Heq]. apply Hnot. apply rbegin_elem in Hf.
    rewrite <- Heq at 1. by apply (list_elem_of_fmap_2 frame_id_).
  - unfold Size. simpl. apply RemoveFrameFromSetInternal_length_le.
Qed.

Lemma SetEvictable_false_shields_frame_witness :
  ∃ r r', run six_frames (New 7 2) = Ok r ∧
          SetEvictable 1 false r = Ok r' ∧ (Evict r').1 ≠ Some 1 ∧
          SetEvictable 9 false r = Undefined.
Proof.
  eexists.
  match goal with |- ∃ r', run _ _ = Ok ?r ∧ _ =>
    pose proof (SetEvictable_false_shields_frame six_frames 7 2 r 1
                  ltac:(vm_compute; reflexivity)) as H1;
    pose proof (SetEvictable_false_shields_frame six_frames 7 2 r 9
                  ltac:(vm_compute; reflexivity)) as H9
  end.
  vm_compute (frame_index_map_ _ !! _) in H1, H9.
  destruct H1 as (r' & Hset & _ & _ & _ & Hev & _).
  exists r'. split; [vm_compute; reflexivity|]. split; [exact Hset|].
  split; [exact Hev|exact H9].
Defined.

(** X6.  [Remove(frame_id)] in a reachable state: a frame that is not
    tracked changes nothing; a tracked frame that is not evictable ends the
    process ([exit(1)]); a tracked evictable frame is erased from the map
    and from the candidates, and no other frame is touched. *)
Theorem Remove_cases (ops : list op) (num_frames k : nat) (r : t) (frame_id : Z) :
  run ops (New num_frames k) = Ok r →
  match frame_index_map_ r !! frame_id with
  | None => Remove frame_id r = Ok r
  | Some frame =>
      if is_evictable_ frame then
        ∃ r', Remove frame_id r = Ok r' ∧
              frame_index_map_ r' !! frame_id = None ∧
              (frame_id ∉ frame_ids (frame_history_set_ r')) ∧
              (∀ other, other ≠ frame_id →
                        frame_index_map_ r' !! other = frame_index_map_ r !! other) ∧
              (∀ g, g ∈ frame_history_set_ r → frame_id_ g ≠ frame_id →
                    g ∈ frame_history_set_ r')
      else Remove frame_id r = Exit
  end.
Proof.
  intros Hrun. destruct (run_coherent _ _ _ _ Hrun) as [Hids Hset Hnd].
  unfold Remove. destruct (frame_index_map_ r !! frame_id) as [frame|]; [|done].
  unfold IsEvictable. destruct (is_evictable_ frame); [|done].
  eexists. split; [reflexivity|]. simpl.
  split; [apply lookup_delete_eq|].
  split; [by apply RemoveFrameFromSetInternal_nodup|].
  split; [intros other Hne; by apply lookup_delete_ne|].
  intros g Hg Hne. clear -Hg Hne.
  induction (frame_history_set_ r) as [|z s IH]; simpl; [done|].
  unfold GetFrameId. apply elem_of_cons in Hg as [->|Hg].
  - destruct (Z.eqb_spec (frame_id_ z) frame_id); [done|]. apply elem_of_cons. by left.
  - destruct (Z.eqb_spec (frame_id_ z) frame_id); [done|]. apply elem_of_cons. right. by apply IH.
Qed.

Lemma Remove_cases_witness :
  ∃ r, run six_frames (New 7 2) = Ok r ∧
       Remove 9 r = Ok r ∧
       (∃ r', Remove 3 r = Ok r' ∧ frame_index_map_ r' !! 3 = None) ∧
       Remove 1 (RecordAccess 1 1 (New 7 2)) = Exit.
Proof.
  eexists.
  match goal with |- run _ _ = Ok ?r ∧ _ =>
    pose proof (Remove_cases six_frames 7 2 r 9 ltac:(vm_compute; reflexivity)) as H9;
    pose proof (Remove_cases six_frames 7 2 r 3 ltac:(vm_compute; reflexivity)) as H3
  end.
  pose proof (Remove_cases [OpRecordAccess 1 1] 7 2 _ 1 eq_refl) as H1.
  vm_compute (frame_index_map_ _ !! _) in H9, H3, H1. simpl in H3, H1.
  destruct H3 as (r' & Hrm & Hgone & _).
  split; [vm_compute; reflexivity|]. split; [exact H9|].
  split; [by exists r'|exact H1].
Defined.

(** X7.  The victim of [Evict], read through [frame_index_map_]: in a
    reachable state the frame [Evict] returns is a candidate, and against
    the history the map holds for any candidate it has fewer than [k]
    accesses if any candidate has, and within its class (fewer than [k]
    accesses, or at least [k]) no candidate has an earlier [back()]
    timestamp. *)
Theorem Evict_victim_is_lru_k (ops : list op) (num_frames k : nat) (r r' : t) (frame_id : Z) :
  run ops (New num_frames k) = Ok r →
  Evict r = (Some frame_id, r') →
  ∃ f, frame_index_map_ r !! frame_id = Some f ∧
       frame_id ∈ frame_ids (frame_history_set_ r) ∧
       ∀ other g, other ∈ frame_ids (frame_history_set_ r) →
                  frame_index_map_ r !! other = Some g →
                  (hist_available f = true → hist_available g = true) ∧
                  (hist_available f = hist_available g →
                   back (access_history_ f) <= back (access_history_ g)).
Proof.
  intros Hrun Hev. destruct (run_coherent _ _ _ _ Hrun) as [Hids Hset Hnd].
  destruct (Evict_takes_greatest_of_set _ _ _ _ _ _ Hrun Hev) as (f & Hin & Hid & Hmax).
  unfold GetFrameId in Hid. subst frame_id.
  exists f. split; [by apply Hset|].
  split; [by apply (list_elem_of_fmap_2 frame_id_)|].
  intros other g Hother Hg. unfold frame_ids in Hother.
  apply list_elem_of_fmap in Hother as (g' & -> & Hg').
  rewrite (Hset g' Hg') in Hg. injection Hg as <-. by apply Hmax.
Qed.

Lemma Evict_victim_is_lru_k_witness :
  ∃ r f, run six_frames (New 7 2) = Ok r ∧
         frame_index_map_ r !! 1 = Some f ∧ 1 ∈ frame_ids (frame_history_set_ r).
Proof.
  eexists.
  match goal with |- ∃ f, run _ _ = Ok ?r ∧ _ =>
    destruct (Evict_victim_is_lru_k six_frames 7 2 r (Evict r).2 1
                ltac:(vm_compute; reflexivity) ltac:(vm_compute; reflexivity))
      as (f & Hmap & Hin & _)
  end.
  exists f. split; [vm_compute; reflexivity|]. by split.
Defined.

End LRUKReplacerInvariants.

(** * Further properties of the extendible hash table *)

Module ExtendibleHashTableInvariants.

Import ExtendibleHashTable ExtendibleHashTableProperties.

Section table.

Context {K V : Type} `{EqDecision K}.
Variable hash : K → Z.

(** ** One bucket *)

Lemma list_find_key_app (key : K) (l1 l2 : list (K * V)) :
  list_find_key key (l1 ++ l2) =
    match list_find_key key l1 with
    | Some v => Some v
    | None => list_find_key key l2
    end.
Proof.
  induction l1 as [|entry l1 IH]; simpl; [done|].
  by destruct (decide (entry.1 = key)).
Qed.

Lemma list_assign_key_None (key : K) (value : V) (l : list (K * V)) :
  list_find_key key l = None → list_assign_key key value l = None.
Proof.
  induction l as [|entry l IH]; simpl; [done|].
  destruct (decide (entry.1 = key)); [done|]. intros Hn. by rewrite IH.
Qed.

Lemma list_assign_key_other (key key' : K) (value : V) (l l' : list (K * V)) :
  key' ≠ key → list_assign_key key value l = Some l' →
  list_find_key key' l' = list_find_key key' l.
Proof.
  intros Hne. revert l'. induction l as [|entry l IH]; simpl; intros l'; [done|].
  destruct (decide (entry.1 = key)) as [Heq|Hneq].
  - intros [= <-]. simpl. rewrite Heq.
    destruct (decide (key = key')); [congruence|done].
  - destruct (list_assign_key key value l) as [l0|]; [|done]. simpl.
    intros [= <-]. simpl. destruct (decide (entry.1 = key')); [done|]. by apply IH.
Qed.

(** [Bucket::Insert] into a bucket with room: the key has the new value,
    every other key what it had. *)
Lemma BucketInsert_room (key : K) (value : V) (b : Bucket K V) :
  IsFull b = false →
  BucketFind key (BucketInsert key value b).2 = Some value ∧
  ∀ key', key' ≠ key →
          BucketFind key' (BucketInsert key value b).2 = BucketFind key' b.
Proof.
  intros Hfull. unfold BucketInsert, BucketFind. rewrite Hfull.
  destruct (list_find_key key (list_ b)) as [old|] eqn:Hfind.
  - destruct (list_assign_key_found key value (list_ b)) as (l' & Hl' & Hnew & _); [eauto|].
    rewrite Hl'. simpl. split; [done|]. intros key' Hne. by eapply list_assign_key_other.
  - rewrite list_assign_key_None by done. simpl. split.
    + rewrite list_find_key_app, Hfind. simpl. by destruct (decide (key = key)).
    + intros key' Hne. rewrite list_find_key_app.
      destruct (list_find_key key' (list_ b)); [done|]. simpl.
      by destruct (decide (key = key')).
Qed.

Lemma list_erase_key_spec (key : K) (l : list (K * V)) :
  (list_erase_key key l).1 = bool_decide (is_Some (list_find_key key l)) ∧
  (list_find_key key l = None → (list_erase_key key l).2 = l) ∧
  (∀ key', key' ≠ key →
           list_find_key key' (list_erase_key key l).2 = list_find_key key' l) ∧
  (NoDup l.*1 → list_find_key key (list_erase_key key l).2 = None).
Proof.
  induction l as [|entry l (IH1 & IH2 & IH3 & IH4)]; simpl.
  - repeat split; done.
  - destruct (decide (entry.1 = key)) as [Heq|Hne]; simpl.
    + split; [done|]. split; [done|].
      split.
      * intros key' Hne'. destruct (decide (entry.1 = key')); [congruence|done].
      * intros Hnd. apply NoDup_cons in Hnd as [Hnot _].
        clear -Hnot Heq. induction l as [|e l IH]; simpl; [done|].
        apply not_elem_of_cons in Hnot as [Hne Hnot].
        destruct (decide (e.1 = key)); [congruence|]. by apply IH.
    + split; [done|]. split; [intros Hn; by rewrite IH2|]. split.
      * intros key' Hne'. destruct (decide (entry.1 = key')); [done|]. by apply IH3.
      * intros Hnd. apply NoDup_cons in Hnd as [_ Hnd].
        destruct (decide (entry.1 = key)); [done|]. by apply IH4.
Qed.

(** ** The table, through one directory slot *)

Lemma Find_unfold (key : K) (h : t K V) (bucket : nat) (b : Bucket K V) :
  dir_at h (IndexOf hash key h) = Ok bucket →
  buckets_ h !! bucket = Some b →
  Find hash key h = Ok (BucketFind key b).
Proof. intros Hd Hb. unfold Find. rewrite Hd. simpl. by rewrite Hb. Qed.

(** Writing a bucket back in place: [Find] of a key changes only if its
    slot points to that bucket. *)
Lemma Find_update_bucket (key : K) (h : t K V) (bucket : nat) (b b' : Bucket K V) :
  buckets_ h !! bucket = Some b →
  BucketFind key b' = BucketFind key b →
  Find hash key (mk (global_depth_ h) (bucket_size_ h) (num_buckets_ h) (dir_ h)
                    (<[bucket := b']> (buckets_ h)))
  = Find hash key h.
Proof.
  intros Hb Hsame. unfold Find, IndexOf, dir_at. simpl.
  destruct (_ <? 0); [done|]. destruct (dir_ h !! _) as [p|]; [|done]. simpl.
  destruct (decide (p = bucket)) as [->|Hne].
  - rewrite list_lookup_insert_eq by (by eapply lookup_lt_Some). rewrite Hb. simpl.
    by rewrite Hsame.
  - by rewrite list_lookup_insert_ne.
Qed.

(** X8.  [Insert] of a key whose bucket has room, whether or not the key
    is already there: no bucket is split, [Find] of the key returns the new
    value, and [Find] of every other key returns what it did. *)
Theorem Insert_with_room (fuel : nat) (key : K) (value : V) (h : t K V)
    (bucket : nat) (b : Bucket K V) :
  dir_at h (IndexOf hash key h) = Ok bucket →
  buckets_ h !! bucket = Some b →
  IsFull b = false →
  ∃ h', Insert hash (S fuel) key value h = Ok h' ∧
        dir_ h' = dir_ h ∧ global_depth_ h' = global_depth_ h ∧
        length (buckets_ h') = length (buckets_ h) ∧
        Find hash key h' = Ok (Some value) ∧
        ∀ key', key' ≠ key → Find hash key' h' = Find hash key' h.
Proof.
  intros Hdir Hb Hfull. unfold Insert. simpl. rewrite Hdir. simpl. rewrite Hb. simpl.
  rewrite Hfull. simpl. eexists. split; [reflexivity|]. simpl.
  destruct (BucketInsert_room key value b Hfull) as [Hnew Hother].
  split; [done|]. split; [done|]. split; [by rewrite length_insert|]. split.
  - rewrite (Find_unfold key _ bucket (BucketInsert key value b).2); [by rewrite Hnew|done|].
    simpl. apply list_lookup_insert_eq. by eapply lookup_lt_Some.
  - intros key' Hne. apply (Find_update_bucket key' h bucket b); [done|]. by apply Hother.
Qed.

(** X9.  [Remove] of a key through its directory slot: the result tells
    whether the bucket held the key; a missing key leaves the table as it
    is; [Find] of every other key is unchanged; and if the bucket holds no
    key twice, [Find] of the removed key finds nothing. *)
Theorem Remove_through_slot (key : K) (h : t K V) (bucket : nat) (b : Bucket K V) :
  dir_at h (IndexOf hash key h) = Ok bucket →
  buckets_ h !! bucket = Some b →
  ∃ h', Remove hash key h = Ok (bool_decide (is_Some (BucketFind key b)), h') ∧
        (BucketFind key b = None → h' = h) ∧
        (∀ key', key' ≠ key → Find hash key' h' = Find hash key' h) ∧
        (NoDup (list_ b).*1 → Find hash key h' = Ok None).
Proof.
  intros Hdir Hb. unfold Remove. rewrite Hdir. simpl. rewrite Hb. simpl.
  destruct (list_erase_key_spec key (list_ b)) as (Hres & Hmiss & Hother & Hgone).
  eexists. split; [unfold BucketFind; by rewrite <- Hres|].
  split; [|split].
  - unfold BucketFind. intros Hn. rewrite (Hmiss Hn).
    replace (mkBucket (size_ b) (depth_ b) (list_ b)) with b by (by destruct b).
    rewrite list_insert_id by done. by destruct h.
  - intros key' Hne. apply (Find_update_bucket key' h bucket b); [done|].
    unfold BucketFind. simpl. by apply Hother.
  - intros Hnd. rewrite (Find_unfold key _ bucket (BucketRemove key b).2).
    + unfold BucketFind, BucketRemove. simpl. f_equal. by apply Hgone.
    + done.
    + simpl. apply list_lookup_insert_eq. by eapply lookup_lt_Some.
Qed.

End table.

Lemma Insert_with_room_witness :
  ∃ h', Insert std_hash_int 1 6 60 (New 2) = Ok h' ∧
        Find std_hash_int 6 h' = Ok (Some 60) ∧
        Find std_hash_int 7 h' = Find std_hash_int 7 (New 2).
Proof.
  destruct (Insert_with_room std_hash_int 0 6 60 (New 2) 0%nat (mkBucket 2 1 []))
    as (h' & Hins & _ & _ & _ & Hfind & Hother); [reflexivity|reflexivity|reflexivity|].
  exists h'. split; [exact Hins|]. split; [exact Hfind|]. apply Hother. discriminate.
Defined.

Lemma Remove_through_slot_witness :
  let h := mk 1 2 2 [0%nat; 1%nat] [mkBucket 2 1 [(4, 40); (6, 60)]; mkBucket 2 1 []] in
  ∃ h', Remove std_hash_int 6 h = Ok (true, h') ∧ Find std_hash_int 6 h' = Ok None ∧
        Find std_hash_int 4 h' = Find std_hash_int 4 h.
Proof.
  intros h.
  destruct (Remove_through_slot std_hash_int 6 h 0%nat (mkBucket 2 1 [(4, 40); (6, 60)]))
    as (h' & Hrm & _ & Hother & Hgone); [reflexivity|reflexivity|].
  exists h'. split; [exact Hrm|]. split.
  - apply Hgone. simpl. apply NoDup_cons. split; [|apply NoDup_singleton].
    intros Hin. apply list_elem_of_singleton in Hin. discriminate.
  - apply Hother. discriminate.
Defined.

End ExtendibleHashTableInvariants.

(** * Further properties of the B+Tree pages *)

Module BPlusTreePageInvariants.

Import BPlusTreePage BPlusTreeProperties.

(** ** The slots after a shift *)

Lemma slot_insert (a : gmap Z (Z * Z)) (i j : Z) (kv : Z * Z) :
  slot (<[i := kv]> a) j = if decide (i = j) then kv else slot a j.
Proof. unfold slot. rewrite lookup_insert. by destruct (decide (i = j)). Qed.

Lemma shift_right_slot_nat (temp a : gmap Z (Z * Z)) (n : nat) (start j : Z) :
  slot (foldl (λ a i, <[i + 1 := slot temp i]> a) a (seqZ start (Z.of_nat n))) j =
    if decide (start + 1 <= j <= start + Z.of_nat n) then slot temp (j - 1) else slot a j.
Proof.
  revert start a. induction n as [|n IH]; intros start a.
  - simpl. destruct (decide _); [lia|done].
  - rewrite seqZ_cons by lia. simpl.
    replace (Z.pred (Z.of_nat (S n))) with (Z.of_nat n) by lia.
    rewrite IH, slot_insert. unfold Z.succ.
    repeat destruct (decide _); try lia; try done.
    f_equal. lia.
Qed.

Lemma shift_right_slot (temp a : gmap Z (Z * Z)) (start len j : Z) :
  slot (foldl (λ a i, <[i + 1 := slot temp i]> a) a (seqZ start len)) j =
    if decide (start + 1 <= j <= start + len) then slot temp (j - 1) else slot a j.
Proof.
  destruct (Z.le_gt_cases 0 len) as [Hlen|Hlen].
  - rewrite <- (Z2Nat.id len) at 1 by done. rewrite shift_right_slot_nat.
    rewrite Z2Nat.id by done. done.
  - rewrite seqZ_nil by lia. simpl. destruct (decide _); [lia|done].
Qed.

Lemma shift_left_slot_nat (a : gmap Z (Z * Z)) (n : nat) (start j : Z) :
  slot (foldl (λ a i, <[i - 1 := slot a i]> a) a (seqZ start (Z.of_nat n))) j =
    if decide (start - 1 <= j < start - 1 + Z.of_nat n) then slot a (j + 1) else slot a j.
Proof.
  revert start a. induction n as [|n IH]; intros start a.
  - simpl. destruct (decide _); [lia|done].
  - rewrite seqZ_cons by lia. simpl.
    replace (Z.pred (Z.of_nat (S n))) with (Z.of_nat n) by lia.
    rewrite IH, !slot_insert. unfold Z.succ.
    repeat destruct (decide _); try lia; try done.
    f_equal. lia.
Qed.

Lemma shift_left_slot (a : gmap Z (Z * Z)) (start len j : Z) :
  slot (foldl (λ a i, <[i - 1 := slot a i]> a) a (seqZ start len)) j =
    if decide (start - 1 <= j < start - 1 + len) then slot a (j + 1) else slot a j.
Proof.
  destruct (Z.le_gt_cases 0 len) as [Hlen|Hlen].
  - rewrite <- (Z2Nat.id len) at 1 by done. rewrite shift_left_slot_nat.
    rewrite Z2Nat.id by done. done.
  - rewrite seqZ_nil by lia. simpl. destruct (decide _); [lia|done].
Qed.

(** The slots of a page after [InsertKVPairAt]. *)
Lemma InsertKVPairAt_slot (idx : Z) (kv : Z * Z) (p : BPlusTreePage.t) (j : Z) :
  slot (array_ (InsertKVPairAt idx kv p)) j =
    if decide (j = idx) then kv
    else if decide (idx < j <= GetSize p) then slot (array_ p) (j - 1)
    else slot (array_ p) j.
Proof.
  unfold InsertKVPairAt, ShiftUnderlyingArray, PutKeyValuePairAt, IncreaseSize, GetSize.
  simpl. rewrite slot_insert, shift_right_slot.
  repeat destruct (decide _); try lia; done.
Qed.

Lemma InsertKVPairAt_fields (idx : Z) (kv : Z * Z) (p : BPlusTreePage.t) :
  GetSize (InsertKVPairAt idx kv p) = GetSize p + 1 ∧
  page_type_ (InsertKVPairAt idx kv p) = page_type_ p ∧
  GetMaxSize (InsertKVPairAt idx kv p) = GetMaxSize p ∧
  GetParentPageId (InsertKVPairAt idx kv p) = GetParentPageId p ∧
  GetPageId (InsertKVPairAt idx kv p) = GetPageId p ∧
  GetNextPageId (InsertKVPairAt idx kv p) = GetNextPageId p.
Proof. done. Qed.

(** The slots of a leaf after [RemoveAtIndex]. *)
Lemma Leaf_RemoveAtIndex_slot (index : Z) (p : BPlusTreePage.t) (j : Z) :
  slot (array_ (Leaf.RemoveAtIndex index p).2) j =
    if decide (index <= j < GetSize p - 1) then slot (array_ p) (j + 1)
    else slot (array_ p) j.
Proof.
  unfold Leaf.RemoveAtIndex, shift_left. simpl. rewrite shift_left_slot.
  repeat destruct (decide _); try lia; done.
Qed.

(** ** The binary search *)

(** The keys in the slots [[from, GetSize())] are in ascending order. *)
Definition keys_sorted_from (from : Z) (p : BPlusTreePage.t) : Prop :=
  ∀ a b, from <= a → a < b → b < GetSize p → KeyAt a p < KeyAt b p.

(** What the search returns: -1 with a slot that holds the key, or the
    index that separates the smaller keys from the greater ones. *)
Definition search_result (from : Z) (key : Z) (p : BPlusTreePage.t) (r : Z) : Prop :=
  (r = -1 ∧ ∃ i, from <= i ∧ i < GetSize p ∧ KeyAt i p = key) ∨
  (from <= r ∧ r <= GetSize p ∧
   (∀ j, from <= j → j < r → KeyAt j p < key) ∧
   (∀ j, r <= j → j < GetSize p → key < KeyAt j p)).

Lemma binary_search_spec (n : nat) (from key : Z) (p : BPlusTreePage.t) (low high result : Z) :
  0 <= from → from <= low → high < GetSize p → low <= high + 1 →
  (∀ j, from <= j → j < low → KeyAt j p < key) →
  (∀ j, high < j → j < GetSize p → key < KeyAt j p) →
  (result = -1 ∧ high = GetSize p - 1 ∨ result = high + 1 ∧ high < GetSize p - 1) →
  high - low < Z.of_nat n →
  keys_sorted_from from p →
  search_result from key p (binary_search n key p low high result).
Proof.
  intros Hfrom. revert low high result.
  induction n as [|n IH]; intros low high result Hlow Hhigh Hlh Hless Hgreater Hres Hn Hsorted.
  { simpl. right. assert (low = high + 1) as -> by lia.
    destruct Hres as [[-> ->]|[-> ?]]; simpl.
    - repeat split; try lia; intros; first [apply Hless; lia|apply Hgreater; lia].
    - destruct (Z.eqb_spec (high + 1) (-1)); [lia|].
      repeat split; try lia; intros; first [apply Hless; lia|apply Hgreater; lia]. }
  simpl. destruct (Z.leb_spec low high) as [Hle|Hgt].
  - assert (Hmid : low <= Z.quot (low + high) 2 <= high).
    { rewrite Z.quot_div_nonneg by lia. split.
      - apply Z.div_le_lower_bound; lia.
      - apply Z.div_le_upper_bound; lia. }
    set (mid := Z.quot (low + high) 2) in *. clearbody mid.
    destruct (Z.eqb_spec (comparator_ key (KeyAt mid p)) 0) as [Heq|Hne].
    { left. split; [done|]. exists mid. apply (proj1 (comparator_eq _ _)) in Heq. lia. }
    destruct (Z.eqb_spec (comparator_ key (KeyAt mid p)) 1) as [Hg|Hng].
    + apply (proj1 (comparator_gt _ _)) in Hg.
      apply IH; [lia|done|lia| |done|done|lia|done].
      intros j Hj1 Hj2. destruct (Z.eq_dec j mid) as [->|]; [done|].
      destruct (Z.lt_ge_cases j low); [by apply Hless|].
      specialize (Hsorted j mid). lia.
    + assert (key < KeyAt mid p).
      { destruct (Z.lt_trichotomy key (KeyAt mid p)) as [?|[Heq|Hlt]]; [done| |].
        - contradict Hne. by apply comparator_eq.
        - contradict Hng. by apply comparator_gt. }
      apply IH; [lia|lia|lia|done| |right; split; lia|lia|done].
      intros j Hj1 Hj2. destruct (Z.eq_dec j mid) as [->|]; [done|].
      destruct (Z.lt_ge_cases high j); [by apply Hgreater|].
      specialize (Hsorted mid j). lia.
  - right. assert (low = high + 1) as -> by lia.
    destruct Hres as [[-> ->]|[-> ?]]; simpl.
    + repeat split; try lia; intros; first [apply Hless; lia|apply Hgreater; lia].
    + destruct (Z.eqb_spec (high + 1) (-1)); [lia|].
      repeat split; try lia; intros; first [apply Hless; lia|apply Hgreater; lia].
Qed.

Lemma leaf_search_result (key : Z) (p : BPlusTreePage.t) :
  0 <= GetSize p → keys_sorted_from 0 p →
  search_result 0 key p (FindIndexInLeafPageJustGreaterThanKey key p).
Proof.
  intros Hsize Hsorted. unfold FindIndexInLeafPageJustGreaterThanKey.
  apply binary_search_spec; try lia; try done.
Qed.

(** X10.  [FindIndexInLeafPageJustGreaterThanKey] on a leaf whose keys
    are in ascending order: it returns -1 exactly when some slot holds the
    key, and otherwise the index [r] with every key before [r] smaller and
    every key from [r] on greater; [r] is the size when no key is
    greater. *)
Theorem FindIndexInLeafPageJustGreaterThanKey_spec (key : Z) (p : BPlusTreePage.t) :
  0 <= GetSize p → keys_sorted_from 0 p →
  let r := FindIndexInLeafPageJustGreaterThanKey key p in
  (r = -1 ↔ ∃ i, 0 <= i ∧ i < GetSize p ∧ KeyAt i p = key) ∧
  (r ≠ -1 →
   0 <= r ∧ r <= GetSize p ∧
   (∀ j, 0 <= j → j < r → KeyAt j p < key) ∧
   (∀ j, r <= j → j < GetSize p → key < KeyAt j p)).
Proof.
  intros Hsize Hsorted. cbv zeta.
  destruct (leaf_search_result key p Hsize Hsorted)
    as [[Hr Hex]|(Hr0 & Hr1 & Hless & Hgreater)].
  - split; [done|]. by intros Hne.
  - split; [|done]. split; [lia|].
    intros (i & Hi0 & Hi1 & Hkey).
    destruct (Z.lt_ge_cases i (FindIndexInLeafPageJustGreaterThanKey key p)).
    + specialize (Hless i). lia.
    + specialize (Hgreater i). lia.
Qed.

(** X11.  [FindIndexInInternalPageJustGreaterThanKey] on an internal page
    with at least the first child, whose keys from slot 1 on are in
    ascending order: the same, with slot 0 (which holds no key) left out
    of the search. *)
Theorem FindIndexInInternalPageJustGreaterThanKey_spec (key : Z) (p : BPlusTreePage.t) :
  1 <= GetSize p → keys_sorted_from 1 p →
  search_result 1 key p (FindIndexInInternalPageJustGreaterThanKey key p).
Proof.
  intros Hsize Hsorted. unfold FindIndexInInternalPageJustGreaterThanKey.
  apply binary_search_spec; try lia; try done.
Qed.

(** A leaf with the pairs (5,50), (10,100), (20,200) and room for one
    more, and an internal page with the children 7, 8, 9 under the keys
    10 and 20. *)
Definition sample_leaf : BPlusTreePage.t :=
  AddKVPair (20, 200) (AddKVPair (10, 100) (AddKVPair (5, 50)
    (SetPageType LEAF_PAGE (Leaf.Init 1 INVALID_PAGE_ID 4 zeroed)))).

Definition sample_internal : BPlusTreePage.t :=
  AddKVPair (20, 9) (AddKVPair (10, 8) (AddKVPair (0, 7)
    (Internal.Init 3 INVALID_PAGE_ID 4 zeroed))).

Ltac index_cases a :=
  let H := fresh in
  assert (H : a = 0 ∨ a = 1 ∨ a = 2) by (simpl in *; lia);
  destruct H as [-> | [-> | ->]].

Lemma sample_leaf_sorted : keys_sorted_from 0 sample_leaf.
Proof.
  intros a b Ha Hab Hb. change (GetSize sample_leaf) with 3 in Hb.
  index_cases a; index_cases b; try lia; reflexivity.
Qed.

Lemma sample_internal_sorted : keys_sorted_from 1 sample_internal.
Proof.
  intros a b Ha Hab Hb. change (GetSize sample_internal) with 3 in Hb.
  index_cases a; index_cases b; try lia; reflexivity.
Qed.

Lemma FindIndexInLeafPageJustGreaterThanKey_spec_witness :
  (∀ j, 1 <= j → j < GetSize sample_leaf → 7 < KeyAt j sample_leaf) ∧
  ∃ i, 0 <= i ∧ i < GetSize sample_leaf ∧ KeyAt i sample_leaf = 10.
Proof.
  split.
  - destruct (FindIndexInLeafPageJustGreaterThanKey_spec 7 sample_leaf) as [_ Hsep];
      [simpl; lia|apply sample_leaf_sorted|].
    destruct (Hsep ltac:(discriminate)) as (_ & _ & _ & Hgreater). exact Hgreater.
  - destruct (FindIndexInLeafPageJustGreaterThanKey_spec 10 sample_leaf) as [Hfound _];
      [simpl; lia|apply sample_leaf_sorted|].
    apply Hfound. reflexivity.
Defined.

Lemma FindIndexInInternalPageJustGreaterThanKey_spec_witness :
  search_result 1 15 sample_internal 2 ∧ search_result 1 25 sample_internal 3.
Proof.
  split.
  - apply (FindIndexInInternalPageJustGreaterThanKey_spec 15 sample_internal);
      [simpl; lia|apply sample_internal_sorted].
  - apply (FindIndexInInternalPageJustGreaterThanKey_spec 25 sample_internal);
      [simpl; lia|apply sample_internal_sorted].
Defined.

(** ** Insertion and removal keep the order *)

Lemma InsertKVPairAt_KeyAt (idx key value : Z) (p : BPlusTreePage.t) (j : Z) :
  KeyAt j (InsertKVPairAt idx (key, value) p) =
    if decide (j = idx) then key
    else if decide (idx < j <= GetSize p) then KeyAt (j - 1) p
    else KeyAt j p.
Proof.
  unfold KeyAt. rewrite InsertKVPairAt_slot.
  repeat destruct (decide _); done.
Qed.

Lemma InsertKVPairAt_sorted (from idx key value : Z) (p : BPlusTreePage.t) :
  from <= idx → idx <= GetSize p →
  (∀ j, from <= j → j < idx → KeyAt j p < key) →
  (∀ j, idx <= j → j < GetSize p → key < KeyAt j p) →
  keys_sorted_from from p →
  keys_sorted_from from (InsertKVPairAt idx (key, value) p).
Proof.
  intros Hfrom Hidx Hless Hgreater Hsorted a b Ha Hab Hb.
  destruct (InsertKVPairAt_fields idx (key, value) p) as [Hsize _]. rewrite Hsize in Hb.
  rewrite !InsertKVPairAt_KeyAt.
  repeat destruct (decide _); try lia;
    first [apply Hsorted; lia|apply Hgreater; lia|apply Hless; lia].
Qed.

(** X12.  A leaf with ascending keys that does not hold [key]:
    [InsertKVPairAt] at the index that
    [FindIndexInLeafPageJustGreaterThanKey] returns gives a leaf with
    ascending keys, one entry more, the new pair at that index and every
    old pair still there (at its index, or one further); searching the key
    again returns -1. *)
Theorem InsertKVPairAt_keeps_leaf_sorted (key value : Z) (p : BPlusTreePage.t) :
  0 <= GetSize p → keys_sorted_from 0 p →
  FindIndexInLeafPageJustGreaterThanKey key p ≠ -1 →
  let idx := FindIndexInLeafPageJustGreaterThanKey key p in
  let p' := InsertKVPairAt idx (key, value) p in
  keys_sorted_from 0 p' ∧
  GetSize p' = GetSize p + 1 ∧
  GetPairAtIndex idx p' = (key, value) ∧
  (∀ j, 0 <= j → j < GetSize p →
        GetPairAtIndex (if decide (j < idx) then j else j + 1) p' = GetPairAtIndex j p) ∧
  FindIndexInLeafPageJustGreaterThanKey key p' = -1.
Proof.
  intros Hsize Hsorted Hne idx p'.
  destruct (leaf_search_result key p Hsize Hsorted)
    as [[Heq _]|(Hidx0 & Hidx1 & Hless & Hgreater)]; [done|].
  fold idx in Hidx0, Hidx1, Hless, Hgreater.
  assert (Hs' : keys_sorted_from 0 p') by (by apply InsertKVPairAt_sorted).
  split; [done|]. split; [done|].
  assert (Hat : GetPairAtIndex idx p' = (key, value)).
  { unfold GetPairAtIndex, p'. rewrite InsertKVPairAt_slot. by destruct (decide (idx = idx)). }
  split; [done|]. split.
  - intros j Hj0 Hj1. unfold GetPairAtIndex, p'. rewrite InsertKVPairAt_slot.
    repeat destruct (decide _); try lia; try done. f_equal. lia.
  - apply (FindIndexInLeafPageJustGreaterThanKey_present key p' idx).
    + intros a b Ha Hab Hb. by apply Hs'.
    + done.
    + change (GetSize p') with (GetSize p + 1). lia.
    + unfold KeyAt. fold (GetPairAtIndex idx p'). by rewrite Hat.
Qed.

Lemma InsertKVPairAt_keeps_leaf_sorted_witness :
  keys_sorted_from 0 (InsertKVPairAt 1 (7, 70) sample_leaf) ∧
  GetPairAtIndex 2 (InsertKVPairAt 1 (7, 70) sample_leaf) = (10, 100).
Proof.
  destruct (InsertKVPairAt_keeps_leaf_sorted 7 70 sample_leaf)
    as (Hs & _ & _ & Hold & _); [simpl; lia|apply sample_leaf_sorted|discriminate|].
  split; [exact Hs|]. exact (Hold 1 ltac:(lia) ltac:(simpl; lia)).
Defined.

(** X13.  [RemoveAtIndex] of a slot of a leaf with ascending keys: the
    leaf has one entry less, its keys are still ascending, the pairs before
    the slot are where they were and the pairs after it one place to the
    left, and the key that was removed is in no slot. *)
Theorem Leaf_RemoveAtIndex_keeps_leaf_sorted (index : Z) (p : BPlusTreePage.t) :
  0 <= index → index < GetSize p → keys_sorted_from 0 p →
  let p' := (Leaf.RemoveAtIndex index p).2 in
  (Leaf.RemoveAtIndex index p).1 = true ∧
  GetSize p' = GetSize p - 1 ∧
  keys_sorted_from 0 p' ∧
  (∀ j, 0 <= j → j < GetSize p' →
        GetPairAtIndex j p' = GetPairAtIndex (if decide (j < index) then j else j + 1) p) ∧
  (∀ j, 0 <= j → j < GetSize p' → KeyAt j p' ≠ KeyAt index p).
Proof.
  intros Hidx0 Hidx1 Hsorted p'.
  assert (Hpair : ∀ j, 0 <= j → j < GetSize p - 1 →
            GetPairAtIndex j p' = GetPairAtIndex (if decide (j < index) then j else j + 1) p).
  { intros j Hj0 Hj1. unfold GetPairAtIndex, p'. rewrite Leaf_RemoveAtIndex_slot.
    repeat destruct (decide _); try lia; done. }
  assert (Hkey : ∀ j, 0 <= j → j < GetSize p - 1 →
            KeyAt j p' = KeyAt (if decide (j < index) then j else j + 1) p).
  { intros j Hj0 Hj1. unfold KeyAt. fold (GetPairAtIndex j p'). by rewrite Hpair. }
  split; [done|]. split; [done|]. change (GetSize p') with (GetSize p - 1).
  split; [|split; [done|]].
  - intros a b Ha Hab Hb. change (GetSize p') with (GetSize p - 1) in Hb.
    rewrite !Hkey by lia. apply Hsorted; repeat destruct (decide _); lia.
  - intros j Hj0 Hj1. rewrite Hkey by lia. destruct (decide (j < index)).
    + specialize (Hsorted j index). lia.
    + specialize (Hsorted index (j + 1)). lia.
Qed.

Lemma Leaf_RemoveAtIndex_keeps_leaf_sorted_witness :
  GetSize (Leaf.RemoveAtIndex 1 sample_leaf).2 = 2 ∧
  GetPairAtIndex 1 (Leaf.RemoveAtIndex 1 sample_leaf).2 = (20, 200).
Proof.
  destruct (Leaf_RemoveAtIndex_keeps_leaf_sorted 1 sample_leaf)
    as (_ & Hsize & _ & Hold & _); [lia|simpl; lia|apply sample_leaf_sorted|].
  split; [exact Hsize|]. exact (Hold 1 ltac:(lia) ltac:(simpl; lia)).
Defined.

(** ** The children of an internal page *)

(** No page id is the value of two of the slots [[0, GetSize())]. *)
Definition children_distinct (p : BPlusTreePage.t) : Prop :=
  ∀ a b, 0 <= a → a < GetSize p → 0 <= b → b < GetSize p →
         ValueAt a p = ValueAt b p → a = b.

Definition not_a_child (page_id : Z) (p : BPlusTreePage.t) : Prop :=
  ∀ j, 0 <= j → j < GetSize p → ValueAt j p ≠ page_id.

Lemma FindNextPageId_loop_found (n : nat) (curr_page_id : Z) (p : BPlusTreePage.t) (idx i : Z) :
  idx <= i → i < GetSize p → ValueAt i p = curr_page_id →
  (∀ j, idx <= j → j < i → ValueAt j p ≠ curr_page_id) →
  i - idx < Z.of_nat n →
  Internal.FindNextPageId_loop n curr_page_id p idx = ValueAt (i + 1) p.
Proof.
  revert idx. induction n as [|n IH]; intros idx Hle Hlt Hval Hfirst Hn; [lia|].
  simpl. destruct (Z.ltb_spec idx (GetSize p)); [|lia].
  destruct (Z.eqb_spec (ValueAt idx p) curr_page_id) as [Heq|Hne]; simpl.
  - destruct (Z.leb_spec idx (GetSize p - 1)); [|lia].
    destruct (Z.eq_dec idx i) as [->|]; [done|]. exfalso. apply (Hfirst idx); [lia|lia|done].
  - destruct (Z.eq_dec idx i) as [->|]; [done|].
    apply IH; [lia|done|done| |lia]. intros j Hj1 Hj2. apply Hfirst; lia.
Qed.

Lemma FindNextPageId_loop_absent (n : nat) (curr_page_id : Z) (p : BPlusTreePage.t) (idx : Z) :
  0 <= idx → not_a_child curr_page_id p →
  Internal.FindNextPageId_loop n curr_page_id p idx = INVALID_PAGE_ID.
Proof.
  revert idx. induction n as [|n IH]; intros idx Hidx Habs; [done|]. simpl.
  destruct (Z.ltb_spec idx (GetSize p)); [|done].
  destruct (Z.eqb_spec (ValueAt idx p) curr_page_id) as [Heq|Hne]; simpl.
  - by apply Habs in Heq.
  - apply IH; [lia|done].
Qed.

Lemma FindPreviousPageId_loop_found (n : nat) (curr_page_id : Z) (p : BPlusTreePage.t) (idx i : Z) :
  idx <= i → i < GetSize p → 0 < i → ValueAt i p = curr_page_id →
  (∀ j, idx <= j → j < i → 0 < j → ValueAt j p ≠ curr_page_id) →
  i - idx < Z.of_nat n →
  Internal.FindPreviousPageId_loop n curr_page_id p idx = ValueAt (i - 1) p.
Proof.
  revert idx. induction n as [|n IH]; intros idx Hle Hlt Hpos Hval Hfirst Hn; [lia|].
  simpl. destruct (Z.ltb_spec idx (GetSize p)); [|lia].
  destruct (Z.eq_dec idx i) as [->|Hni].
  - rewrite Hval, Z.eqb_refl. simpl. by destruct (Z.ltb_spec 0 i); [|lia].
  - destruct (Z.eqb_spec (ValueAt idx p) curr_page_id) as [Heq|Hne]; simpl.
    + destruct (Z.ltb_spec 0 idx) as [Hp|Hp].
      * exfalso. apply (Hfirst idx); [lia|lia|done|done].
      * apply IH; [lia|done|done|done| |lia]. intros j ? ? ?. apply Hfirst; lia.
    + apply IH; [lia|done|done|done| |lia]. intros j ? ? ?. apply Hfirst; lia.
Qed.

Lemma FindPreviousPageId_loop_none (n : nat) (curr_page_id : Z) (p : BPlusTreePage.t) (idx : Z) :
  (∀ j, idx <= j → j < GetSize p → 0 < j → ValueAt j p ≠ curr_page_id) →
  Internal.FindPreviousPageId_loop n curr_page_id p idx = INVALID_PAGE_ID.
Proof.
  revert idx. induction n as [|n IH]; intros idx Habs; [done|]. simpl.
  destruct (Z.ltb_spec idx (GetSize p)); [|done].
  destruct (Z.eqb_spec (ValueAt idx p) curr_page_id) as [Heq|Hne]; simpl.
  - destruct (Z.ltb_spec 0 idx) as [Hp|Hp].
    + exfalso. by apply (Habs idx); [lia|lia|done|].
    + apply IH. intros j ? ? ?. apply Habs; lia.
  - apply IH. intros j ? ? ?. apply Habs; lia.
Qed.

(** X14.  The siblings of a child, on an internal page whose children are
    distinct.  For the child in slot [i], [FindNextPageId] returns the
    value of slot [i + 1]: for the last child this is the slot at
    [GetSize()], which holds no child, and not [INVALID_PAGE_ID].
    [FindPreviousPageId] returns the value of slot [i - 1], and
    [INVALID_PAGE_ID] for the first child.  For a page id that is no child
    both return [INVALID_PAGE_ID]. *)
Theorem sibling_page_ids (p : BPlusTreePage.t) :
  children_distinct p →
  (∀ i, 0 <= i → i < GetSize p →
        Internal.FindNextPageId (ValueAt i p) p = ValueAt (i + 1) p ∧
        Internal.FindPreviousPageId (ValueAt i p) p =
          if decide (i = 0) then INVALID_PAGE_ID else ValueAt (i - 1) p) ∧
  (∀ page_id, not_a_child page_id p →
              Internal.FindNextPageId page_id p = INVALID_PAGE_ID ∧
              Internal.FindPreviousPageId page_id p = INVALID_PAGE_ID).
Proof.
  intros Hdistinct. split.
  - intros i Hi0 Hi1. split.
    + apply FindNextPageId_loop_found; [done|done|done| |lia].
      intros j Hj0 Hj1 Heq. apply Hdistinct in Heq; lia.
    + destruct (decide (i = 0)) as [->|Hne].
      * apply FindPreviousPageId_loop_none. intros j Hj0 Hj1 Hpos Heq.
        apply Hdistinct in Heq; lia.
      * apply FindPreviousPageId_loop_found; [done|done|lia|done| |lia].
        intros j Hj0 Hj1 Hpos Heq. apply Hdistinct in Heq; lia.
  - intros page_id Habs. split.
    + by apply FindNextPageId_loop_absent.
    + apply FindPreviousPageId_loop_none. intros j ? ? ?. apply Habs; lia.
Qed.

Lemma sample_internal_distinct : children_distinct sample_internal.
Proof.
  intros a b Ha0 Ha1 Hb0 Hb1. change (GetSize sample_internal) with 3 in *.
  index_cases a; index_cases b; try done; vm_compute; discriminate.
Qed.

Lemma sibling_page_ids_witness :
  Internal.FindNextPageId 8 sample_internal = 9 ∧
  Internal.FindPreviousPageId 7 sample_internal = INVALID_PAGE_ID ∧
  Internal.FindNextPageId 9 sample_internal = 0 ∧
  Internal.FindNextPageId 5 sample_internal = INVALID_PAGE_ID.
Proof.
  destruct (sibling_page_ids sample_internal sample_internal_distinct) as [Hchild Habsent].
  split; [exact (proj1 (Hchild 1 ltac:(lia) ltac:(simpl; lia)))|].
  split; [exact (proj2 (Hchild 0 ltac:(lia) ltac:(simpl; lia)))|].
  split; [exact (proj1 (Hchild 2 ltac:(lia) ltac:(simpl; lia)))|].
  apply Habsent. intros j Hj0 Hj1. change (GetSize sample_internal) with 3 in *.
  index_cases j; vm_compute; discriminate.
Defined.

Lemma RemovePageId_loop_found (n : nat) (curr_page_id : Z) (p : BPlusTreePage.t) (idx i : Z) :
  idx <= i → i < GetSize p → ValueAt i p = curr_page_id →
  (∀ j, idx <= j → j < i → ValueAt j p ≠ curr_page_id) →
  i - idx < Z.of_nat n →
  Internal.RemovePageId_loop n curr_page_id p idx = Internal.RemoveAtIndex i p.
Proof.
  revert idx. induction n as [|n IH]; intros idx Hle Hlt Hval Hfirst Hn; [lia|].
  simpl. destruct (Z.ltb_spec idx (GetSize p)); [|lia].
  destruct (Z.eqb_spec (ValueAt idx p) curr_page_id) as [Heq|Hne].
  - destruct (Z.eq_dec idx i) as [->|]; [done|]. exfalso. apply (Hfirst idx); [lia|lia|done].
  - destruct (Z.eq_dec idx i) as [->|]; [done|].
    apply IH; [lia|done|done| |lia]. intros j Hj1 Hj2. apply Hfirst; lia.
Qed.

Lemma RemovePageId_loop_absent (n : nat) (curr_page_id : Z) (p : BPlusTreePage.t) (idx : Z) :
  0 <= idx → not_a_child curr_page_id p →
  Internal.RemovePageId_loop n curr_page_id p idx = (false, p).
Proof.
  revert idx. induction n as [|n IH]; intros idx Hidx Habs; [done|]. simpl.
  destruct (Z.ltb_spec idx (GetSize p)); [|done].
  destruct (Z.eqb_spec (ValueAt idx p) curr_page_id) as [Heq|Hne].
  - by apply Habs in Heq.
  - apply IH; [lia|done].
Qed.

(** X15.  [RemovePageId] on an internal page whose children are distinct.
    For the child in slot [i] it returns [true]; the page has one slot
    less, the slots before [i] are unchanged and the slots after it are
    one place to the left, so the other children keep their order and the
    removed page id is no child any more.  For a page id that is no child
    it returns [false] and the page is unchanged. *)
Theorem RemovePageId_spec (p : BPlusTreePage.t) :
  children_distinct p →
  (∀ i, 0 <= i → i < GetSize p →
        let r := Internal.RemovePageId (ValueAt i p) p in
        r.1 = true ∧ GetSize r.2 = GetSize p - 1 ∧
        (∀ j, 0 <= j → j < GetSize p - 1 →
              GetPairAtIndex j r.2 = GetPairAtIndex (if decide (j < i) then j else j + 1) p) ∧
        not_a_child (ValueAt i p) r.2) ∧
  (∀ page_id, not_a_child page_id p → Internal.RemovePageId page_id p = (false, p)).
Proof.
  intros Hdistinct. split.
  - intros i Hi0 Hi1 r.
    assert (Hr : r = Internal.RemoveAtIndex i p).
    { apply RemovePageId_loop_found; [done|done|done| |lia].
      intros j Hj0 Hj1 Heq. apply Hdistinct in Heq; lia. }
    rewrite Hr. unfold Internal.RemoveAtIndex.
    destruct (Z.ltb_spec i 0); [lia|]. destruct (Z.leb_spec (GetSize p) i); [lia|]. simpl.
    assert (Hpair : ∀ j, 0 <= j → j < GetSize p - 1 →
              slot (shift_left i p) j = GetPairAtIndex (if decide (j < i) then j else j + 1) p).
    { intros j Hj0 Hj1. unfold shift_left, GetPairAtIndex. rewrite shift_left_slot.
      repeat destruct (decide _); try lia; done. }
    split; [done|]. split; [done|]. split; [done|].
    intros j Hj0 Hj1.
    change (j < GetSize p - 1) in Hj1.
    unfold ValueAt at 1. simpl. rewrite (Hpair j Hj0 Hj1).
    change (ValueAt (if decide (j < i) then j else j + 1) p ≠ ValueAt i p).
    intros Heq. destruct (decide (j < i)).
    + apply (Hdistinct j i) in Heq; lia.
    + apply (Hdistinct (j + 1) i) in Heq; lia.
  - intros page_id Habs. by apply RemovePageId_loop_absent.
Qed.

Lemma RemovePageId_spec_witness :
  (Internal.RemovePageId 8 sample_internal).1 = true ∧
  GetPairAtIndex 1 (Internal.RemovePageId 8 sample_internal).2 = (20, 9) ∧
  Internal.RemovePageId 5 sample_internal = (false, sample_internal).
Proof.
  destruct (RemovePageId_spec sample_internal sample_internal_distinct) as [Hchild Habsent].
  destruct (Hchild 1 ltac:(lia) ltac:(simpl; lia)) as (Htrue & _ & Hpairs & _).
  split; [exact Htrue|]. split; [exact (Hpairs 1 ltac:(lia) ltac:(simpl; lia))|].
  apply Habsent. intros j Hj0 Hj1. change (GetSize sample_internal) with 3 in *.
  index_cases j; vm_compute; discriminate.
Defined.

End BPlusTreePageInvariants.

(** * Further properties of the B+Tree *)

Module BPlusTreeInvariants.

Import BPlusTreePage BPlusTree BPlusTreeProperties BPlusTreePageInvariants.

(** ** The scan of a leaf *)

Definition not_a_key (key : Z) (p : BPlusTreePage.t) : Prop :=
  ∀ j, 0 <= j → j < GetSize p → KeyAt j p ≠ key.

Lemma leaf_scan_found (n : nat) (key : Z) (p : BPlusTreePage.t) (i m : Z) :
  i <= m → m < GetSize p → KeyAt m p = key →
  (∀ j, i <= j → j < m → KeyAt j p ≠ key) →
  m - i < Z.of_nat n →
  leaf_scan n key p i = Some m.
Proof.
  revert i. induction n as [|n IH]; intros i Hle Hlt Hkey Hfirst Hn; [lia|].
  simpl. destruct (Z.ltb_spec i (GetSize p)); [|lia].
  destruct (Z.eqb_spec (comparator_ key (KeyAt i p)) 0) as [Heq|Hne].
  - apply (proj1 (comparator_eq _ _)) in Heq.
    destruct (Z.eq_dec i m) as [->|]; [done|]. exfalso. apply (Hfirst i); [lia|lia|done].
  - destruct (Z.eq_dec i m) as [->|].
    + contradict Hne. by apply comparator_eq.
    + apply IH; [lia|done|done| |lia]. intros j ? ?. apply Hfirst; lia.
Qed.

Lemma leaf_scan_absent (n : nat) (key : Z) (p : BPlusTreePage.t) (i : Z) :
  0 <= i → not_a_key key p → leaf_scan n key p i = None.
Proof.
  revert i. induction n as [|n IH]; intros i Hi Habs; [done|]. simpl.
  destruct (Z.ltb_spec i (GetSize p)); [|done].
  destruct (Z.eqb_spec (comparator_ key (KeyAt i p)) 0) as [Heq|Hne].
  - apply (proj1 (comparator_eq _ _)) in Heq. exfalso. by apply (Habs i).
  - apply IH; [lia|done].
Qed.

(** What GetValue reports from a leaf. *)
Definition leaf_lookup (key : Z) (p : BPlusTreePage.t) : bool * list Z :=
  match leaf_scan (Z.to_nat (GetSize p)) key p 0 with
  | Some i => (true, [ValueAt i p])
  | None => (false, [])
  end.

Lemma leaf_lookup_at (key : Z) (p : BPlusTreePage.t) (m : Z) :
  keys_sorted_from 0 p → 0 <= m → m < GetSize p → KeyAt m p = key →
  leaf_lookup key p = (true, [ValueAt m p]).
Proof.
  intros Hsorted Hm0 Hm1 Hkey. unfold leaf_lookup.
  rewrite (leaf_scan_found _ key p 0 m); [done|done|done|done| |lia].
  intros j Hj0 Hj1 Heq. specialize (Hsorted j m). lia.
Qed.

Lemma leaf_lookup_absent (key : Z) (p : BPlusTreePage.t) :
  not_a_key key p → leaf_lookup key p = (false, []).
Proof. intros Habs. unfold leaf_lookup. by rewrite leaf_scan_absent. Qed.

Lemma key_in_leaf_dec (key : Z) (p : BPlusTreePage.t) :
  0 <= GetSize p → keys_sorted_from 0 p →
  (∃ m, 0 <= m ∧ m < GetSize p ∧ KeyAt m p = key) ∨ not_a_key key p.
Proof.
  intros Hsize Hsorted.
  destruct (leaf_search_result key p Hsize Hsorted)
    as [[_ (m & ? & ? & ?)]|(Hr0 & Hr1 & Hless & Hgreater)].
  - left. by exists m.
  - right. intros j Hj0 Hj1 Heq.
    destruct (Z.lt_ge_cases j (FindIndexInLeafPageJustGreaterThanKey key p)).
    + specialize (Hless j). lia.
    + specialize (Hgreater j). lia.
Qed.

(** ** The descent *)

Lemma descend_leaf (fuel : nat) (key curr leaf : Z) (s : BPlusTree.t) :
  descend fuel key curr s = Ok leaf →
  ∃ lp, pages_ s !! leaf = Some lp ∧ IsLeafPage lp = true.
Proof.
  revert curr. induction fuel as [|fuel IH]; intros curr; [done|]. simpl.
  unfold FetchPage. destruct (pages_ s !! curr) as [p|] eqn:Hp; [|done]. simpl.
  destruct (IsLeafPage p) eqn:Hleaf.
  - intros [= <-]. eauto.
  - apply IH.
Qed.

(** A change to a leaf that leaves it a leaf does not change the way
    down. *)
Lemma descend_update_leaf (fuel : nat) (key curr leaf : Z) (s : BPlusTree.t)
    (lp lp' : BPlusTreePage.t) :
  pages_ s !! leaf = Some lp → IsLeafPage lp = true → IsLeafPage lp' = true →
  descend fuel key curr (set_pages (<[leaf := lp']> (pages_ s)) s) = descend fuel key curr s.
Proof.
  intros Hlp Hleaf Hleaf'. revert curr. induction fuel as [|fuel IH]; intros curr; [done|].
  simpl. unfold FetchPage. simpl. destruct (decide (leaf = curr)) as [->|Hne].
  - rewrite lookup_insert_eq, Hlp. simpl. by rewrite Hleaf, Hleaf'.
  - rewrite lookup_insert_ne by done.
    destruct (pages_ s !! curr) as [p|]; [|done]. simpl.
    destruct (IsLeafPage p); [done|]. apply IH.
Qed.

Lemma GetValue_unfold (fuel : nat) (key leaf : Z) (s : BPlusTree.t) (lp : BPlusTreePage.t) :
  descend fuel key (root_page_id_ s) s = Ok leaf →
  pages_ s !! leaf = Some lp →
  GetValue fuel key s = Ok (leaf_lookup key lp).
Proof.
  intros Hd Hlp. unfold GetValue, FetchPage, leaf_lookup. rewrite Hd. simpl. rewrite Hlp. simpl.
  by destruct (leaf_scan _ _ _ _).
Qed.

(** [GetValue] after one leaf has been replaced by a leaf that reports
    the same for [key]. *)
Lemma GetValue_update_leaf (fuel : nat) (key leaf : Z) (s : BPlusTree.t)
    (lp lp' : BPlusTreePage.t) :
  pages_ s !! leaf = Some lp → IsLeafPage lp = true → IsLeafPage lp' = true →
  leaf_lookup key lp' = leaf_lookup key lp →
  GetValue fuel key (set_pages (<[leaf := lp']> (pages_ s)) s) = GetValue fuel key s.
Proof.
  intros Hlp Hleaf Hleaf' Hsame.
  destruct (descend fuel key (root_page_id_ s) s) as [leaf0| | |] eqn:Hd.
  - destruct (descend_leaf _ _ _ _ _ Hd) as (lp0 & Hlp0 & _).
    rewrite (GetValue_unfold fuel key leaf0 s lp0 Hd Hlp0).
    destruct (decide (leaf = leaf0)) as [->|Hne].
    + rewrite (GetValue_unfold fuel key leaf0 _ lp').
      * congruence.
      * simpl. by rewrite (descend_update_leaf _ _ _ _ _ lp lp').
      * simpl. apply lookup_insert_eq.
    + rewrite (GetValue_unfold fuel key leaf0 _ lp0); [done| |].
      * simpl. by rewrite (descend_update_leaf _ _ _ _ _ lp lp').
      * simpl. by rewrite lookup_insert_ne.
  - unfold GetValue. simpl. rewrite (descend_update_leaf _ _ _ _ _ lp lp') by done.
    by rewrite Hd.
  - unfold GetValue. simpl. rewrite (descend_update_leaf _ _ _ _ _ lp lp') by done.
    by rewrite Hd.
  - unfold GetValue. simpl. rewrite (descend_update_leaf _ _ _ _ _ lp lp') by done.
    by rewrite Hd.
Qed.

(** ** A leaf before and after a change *)

Lemma leaf_insert_position (key : Z) (p : BPlusTreePage.t) :
  0 <= GetSize p → keys_sorted_from 0 p → not_a_key key p →
  let idx := FindIndexInLeafPageJustGreaterThanKey key p in
  idx ≠ -1 ∧ 0 <= idx ∧ idx <= GetSize p ∧
  (∀ j, 0 <= j → j < idx → KeyAt j p < key) ∧
  (∀ j, idx <= j → j < GetSize p → key < KeyAt j p).
Proof.
  intros Hsize Hsorted Habs. cbv zeta.
  destruct (leaf_search_result key p Hsize Hsorted)
    as [[_ (m & Hm0 & Hm1 & Hkey)]|(Hr0 & Hr1 & Hless & Hgreater)].
  - exfalso. by apply (Habs m).
  - split; [lia|done].
Qed.

Lemma leaf_lookup_insert (idx key value : Z) (p : BPlusTreePage.t) :
  0 <= idx → idx <= GetSize p → keys_sorted_from 0 p →
  (∀ j, 0 <= j → j < idx → KeyAt j p < key) →
  (∀ j, idx <= j → j < GetSize p → key < KeyAt j p) →
  let p' := InsertKVPairAt idx (key, value) p in
  leaf_lookup key p' = (true, [value]) ∧
  ∀ key', key' ≠ key → leaf_lookup key' p' = leaf_lookup key' p.
Proof.
  intros Hidx0 Hidx1 Hsorted Hless Hgreater p'.
  assert (Hs' : keys_sorted_from 0 p') by (by apply InsertKVPairAt_sorted).
  assert (Hsize' : GetSize p' = GetSize p + 1) by done.
  split.
  - rewrite (leaf_lookup_at key p' idx); [|done|done|lia|].
    + unfold ValueAt, p'. rewrite InsertKVPairAt_slot. by destruct (decide (idx = idx)).
    + unfold p'. rewrite InsertKVPairAt_KeyAt. by destruct (decide (idx = idx)).
  - intros key' Hne.
    destruct (key_in_leaf_dec key' p ltac:(lia) Hsorted) as [(m & Hm0 & Hm1 & Hkey)|Habs].
    + rewrite (leaf_lookup_at key' p m) by done.
      rewrite (leaf_lookup_at key' p' (if decide (m < idx) then m else m + 1)).
      * unfold ValueAt, p'. rewrite InsertKVPairAt_slot.
        repeat destruct (decide _); try lia; try done.
        by replace (m + 1 - 1) with m by lia.
      * done.
      * destruct (decide _); lia.
      * rewrite Hsize'. destruct (decide _); lia.
      * unfold p'. rewrite InsertKVPairAt_KeyAt.
        repeat destruct (decide _); try lia; try done.
        by replace (m + 1 - 1) with m by lia.
    + rewrite (leaf_lookup_absent key' p Habs). apply leaf_lookup_absent.
      intros j Hj0 Hj1. rewrite Hsize' in Hj1. unfold p'. rewrite InsertKVPairAt_KeyAt.
      repeat destruct (decide _); try congruence; apply Habs; lia.
Qed.

Lemma Leaf_RemoveAtIndex_KeyAt (index : Z) (p : BPlusTreePage.t) (j : Z) :
  KeyAt j (Leaf.RemoveAtIndex index p).2 =
    if decide (index <= j < GetSize p - 1) then KeyAt (j + 1) p else KeyAt j p.
Proof.
  unfold KeyAt. rewrite Leaf_RemoveAtIndex_slot. by destruct (decide _).
Qed.

Lemma leaf_lookup_remove (index : Z) (p : BPlusTreePage.t) :
  0 <= index → index < GetSize p → keys_sorted_from 0 p →
  let p' := (Leaf.RemoveAtIndex index p).2 in
  keys_sorted_from 0 p' ∧
  leaf_lookup (KeyAt index p) p' = (false, []) ∧
  ∀ key', key' ≠ KeyAt index p → leaf_lookup key' p' = leaf_lookup key' p.
Proof.
  intros Hidx0 Hidx1 Hsorted p'.
  assert (Hsize' : GetSize p' = GetSize p - 1) by done.
  assert (Hs' : keys_sorted_from 0 p').
  { intros a b Ha Hab Hb. rewrite Hsize' in Hb. unfold p'.
    rewrite !Leaf_RemoveAtIndex_KeyAt. repeat destruct (decide _); try lia; apply Hsorted; lia. }
  split; [done|]. split.
  - apply leaf_lookup_absent. intros j Hj0 Hj1. rewrite Hsize' in Hj1. unfold p'.
    rewrite Leaf_RemoveAtIndex_KeyAt. destruct (decide _).
    + specialize (Hsorted index (j + 1)). lia.
    + specialize (Hsorted j index). lia.
  - intros key' Hne.
    destruct (key_in_leaf_dec key' p ltac:(lia) Hsorted) as [(m & Hm0 & Hm1 & Hkey)|Habs].
    + assert (m ≠ index) by congruence.
      rewrite (leaf_lookup_at key' p m) by done.
      rewrite (leaf_lookup_at key' p' (if decide (m < index) then m else m - 1)).
      * unfold ValueAt, p'. rewrite Leaf_RemoveAtIndex_slot.
        repeat destruct (decide _); try lia; try done.
        by replace (m - 1 + 1) with m by lia.
      * done.
      * destruct (decide _); lia.
      * rewrite Hsize'. destruct (decide _); lia.
      * unfold p'. rewrite Leaf_RemoveAtIndex_KeyAt.
        repeat destruct (decide _); try lia; try done.
        by replace (m - 1 + 1) with m by lia.
    + rewrite (leaf_lookup_absent key' p Habs). apply leaf_lookup_absent.
      intros j Hj0 Hj1. rewrite Hsize' in Hj1. unfold p'. rewrite Leaf_RemoveAtIndex_KeyAt.
      destruct (decide _); apply Habs; lia.
Qed.

(** ** Insert and Remove without a split or a merge *)

(** X16.  [Insert] of a new key on a tree with a root, when the leaf the
    descent ends in has ascending keys and room: the result is [true]; only
    that leaf changes, it gets one entry more and keeps its keys ascending;
    afterwards [GetValue] finds the new value for the key, and returns for
    every other key what it returned before. *)
Theorem Insert_into_leaf_with_room (fuel : nat) (key value : Z) (s : BPlusTree.t)
    (leaf : Z) (lp : BPlusTreePage.t) :
  root_page_id_ s ≠ INVALID_PAGE_ID →
  descend fuel key (root_page_id_ s) s = Ok leaf →
  pages_ s !! leaf = Some lp →
  0 <= GetSize lp → GetSize lp ≠ leaf_max_size_ s →
  keys_sorted_from 0 lp → not_a_key key lp →
  ∃ s' lp', Insert fuel key value s = Ok (true, s') ∧
            root_page_id_ s' = root_page_id_ s ∧
            pages_ s' = <[leaf := lp']> (pages_ s) ∧
            keys_sorted_from 0 lp' ∧ GetSize lp' = GetSize lp + 1 ∧
            GetValue fuel key s' = Ok (true, [value]) ∧
            ∀ key', key' ≠ key → GetValue fuel key' s' = GetValue fuel key' s.
Proof.
  intros Hroot Hdesc Hlp Hsize Hroom Hsorted Habs.
  destruct (leaf_insert_position key lp Hsize Hsorted Habs)
    as (Hne & Hidx0 & Hidx1 & Hless & Hgreater).
  destruct (descend_leaf _ _ _ _ _ Hdesc) as (lp0 & Hlp0 & Hleaf).
  assert (lp0 = lp) as -> by congruence.
  set (idx := FindIndexInLeafPageJustGreaterThanKey key lp) in *.
  set (lp' := InsertKVPairAt idx (key, value) lp).
  destruct (leaf_lookup_insert idx key value lp Hidx0 Hidx1 Hsorted Hless Hgreater)
    as [Hnew Hother].
  exists (set_pages (<[leaf := lp']> (pages_ s)) s), lp'.
  split.
  { unfold Insert. destruct (Z.eqb_spec (root_page_id_ s) INVALID_PAGE_ID); [done|]. simpl.
    rewrite Hdesc. simpl. unfold on_page, FetchPage. rewrite Hlp. simpl.
    destruct (Z.eqb_spec (GetSize lp) (leaf_max_size_ s)); [done|].
    fold idx. by destruct (Z.eqb_spec idx (-1)). }
  split; [done|]. split; [done|].
  split; [by apply InsertKVPairAt_sorted|]. split; [done|]. split.
  - rewrite (GetValue_unfold fuel key leaf _ lp').
    + f_equal. exact Hnew.
    + simpl. by rewrite (descend_update_leaf _ _ _ _ _ lp lp').
    + simpl. apply lookup_insert_eq.
  - intros key' Hne'. apply (GetValue_update_leaf fuel key' leaf s lp lp'); try done.
    by apply Hother.
Qed.

(** X18.  [Remove] of a key that the leaf at the end of the descent holds,
    when the leaf has ascending keys and more than [GetMaxSize()/2 + 1]
    entries, so that no merge is tried: only that leaf changes, it has one
    entry less and keeps its keys ascending; afterwards [GetValue] does not
    find the key, and returns for every other key what it returned
    before. *)
Theorem Remove_from_leaf_above_half (fuel : nat) (key : Z) (s : BPlusTree.t) (leaf : Z)
    (lp : BPlusTreePage.t) (i : Z) :
  descend fuel key (root_page_id_ s) s = Ok leaf →
  pages_ s !! leaf = Some lp →
  keys_sorted_from 0 lp → 0 <= i → i < GetSize lp → KeyAt i lp = key →
  Z.quot (GetMaxSize lp) 2 < GetSize lp - 1 →
  ∃ s' lp', Remove fuel key s = Ok s' ∧
            root_page_id_ s' = root_page_id_ s ∧
            pages_ s' = <[leaf := lp']> (pages_ s) ∧
            keys_sorted_from 0 lp' ∧ GetSize lp' = GetSize lp - 1 ∧
            GetValue fuel key s' = Ok (false, []) ∧
            ∀ key', key' ≠ key → GetValue fuel key' s' = GetValue fuel key' s.
Proof.
  intros Hdesc Hlp Hsorted Hi0 Hi1 Hkey Habove.
  destruct (descend_leaf _ _ _ _ _ Hdesc) as (lp0 & Hlp0 & Hleaf).
  assert (lp0 = lp) as -> by congruence.
  set (lp' := (Leaf.RemoveAtIndex i lp).2).
  destruct (leaf_lookup_remove i lp Hi0 Hi1 Hsorted) as (Hs' & Hgone & Hother).
  rewrite Hkey in Hgone, Hother.
  exists (set_pages (<[leaf := lp']> (pages_ s)) s), lp'.
  split.
  { unfold Remove, FetchPage. rewrite Hdesc. simpl. rewrite Hlp. simpl.
    rewrite (leaf_scan_found _ key lp 0 i); [|done|done|done| |lia].
    - unfold on_page, FetchPage. rewrite Hlp. simpl. rewrite lookup_insert_eq. simpl.
      unfold GetSize, GetMaxSize in Habove.
      by destruct (Z.leb_spec (size_ lp - 1) (Z.quot (max_size_ lp) 2)); [lia|].
    - intros j Hj0 Hj1 Heq. specialize (Hsorted j i). lia. }
  split; [done|]. split; [done|]. split; [done|]. split; [done|]. split.
  - rewrite (GetValue_unfold fuel key leaf _ lp').
    + f_equal. exact Hgone.
    + simpl. by rewrite (descend_update_leaf _ _ _ _ _ lp lp').
    + simpl. apply lookup_insert_eq.
  - intros key' Hne'. apply (GetValue_update_leaf fuel key' leaf s lp lp'); try done.
    by apply Hother.
Qed.

(** A tree whose root is a leaf with the keys 5, 10, 15, 20 and room for
    a fifth. *)
Definition sample_tree : BPlusTree.t :=
  match insert_all 50 [10; 20; 5; 15] (New 5 5) with
  | Ok r => r.2
  | _ => New 5 5
  end.

Definition sample_root_leaf : BPlusTreePage.t :=
  default zeroed (pages_ sample_tree !! 1).

Lemma sample_root_leaf_sorted : keys_sorted_from 0 sample_root_leaf.
Proof.
  intros a b Ha Hab Hb. change (GetSize sample_root_leaf) with 4 in Hb.
  assert (Hc : (a = 0 ∨ a = 1 ∨ a = 2) ∧ (b = 1 ∨ b = 2 ∨ b = 3)) by lia.
  destruct Hc as [[-> | [-> | ->]] [-> | [-> | ->]]]; try lia; reflexivity.
Qed.

Lemma Insert_into_leaf_with_room_witness :
  ∃ s', Insert 50 7 70 sample_tree = Ok (true, s') ∧
        GetValue 50 7 s' = Ok (true, [70]) ∧
        GetValue 50 10 s' = GetValue 50 10 sample_tree.
Proof.
  destruct (Insert_into_leaf_with_room 50 7 70 sample_tree 1 sample_root_leaf)
    as (s' & _ & Hins & _ & _ & _ & _ & Hnew & Hother).
  - vm_compute. discriminate.
  - vm_compute. reflexivity.
  - vm_compute. reflexivity.
  - vm_compute. discriminate.
  - vm_compute. discriminate.
  - apply sample_root_leaf_sorted.
  - intros j Hj0 Hj1. change (GetSize sample_root_leaf) with 4 in Hj1.
    assert (Hc : j = 0 ∨ j = 1 ∨ j = 2 ∨ j = 3) by lia.
    destruct Hc as [-> | [-> | [-> | ->]]]; vm_compute; discriminate.
  - exists s'. split; [exact Hins|]. split; [exact Hnew|]. apply Hother. discriminate.
Defined.

Lemma Remove_from_leaf_above_half_witness :
  ∃ s', Remove 50 15 sample_tree = Ok s' ∧
        GetValue 50 15 s' = Ok (false, []) ∧
        GetValue 50 20 s' = GetValue 50 20 sample_tree.
Proof.
  destruct (Remove_from_leaf_above_half 50 15 sample_tree 1 sample_root_leaf 2)
    as (s' & _ & Hrm & _ & _ & _ & _ & Hgone & Hother).
  - vm_compute. reflexivity.
  - vm_compute. reflexivity.
  - apply sample_root_leaf_sorted.
  - lia.
  - vm_compute. reflexivity.
  - reflexivity.
  - vm_compute. reflexivity.
  - exists s'. split; [exact Hrm|]. split; [exact Hgone|]. apply Hother. discriminate.
Defined.

(** ** The iterator *)

(** X20.  [operator++] on an iterator at slot [idx] of a leaf.  From any
    slot but the last it goes to the next slot of the same leaf; from the
    last slot of a leaf with a next leaf it goes to slot 0 of that leaf;
    on the last slot of a leaf without a next leaf [IsEnd()] holds and the
    iterator stays where it is, so it never takes the value
    [curr_page_id_ = INVALID_PAGE_ID]. *)
Theorem iterator_next_on_leaf (it : IndexIterator) (s : BPlusTree.t) (lp : BPlusTreePage.t) :
  curr_page_id_ it ≠ INVALID_PAGE_ID →
  pages_ s !! curr_page_id_ it = Some lp →
  IsLeafPage lp = true →
  iterator_next it s =
    Ok (if decide (curr_page_id_idx_ it = GetSize lp - 1) then
          if decide (GetNextPageId lp = INVALID_PAGE_ID) then it
          else mkIndexIterator (GetNextPageId lp) 0
        else mkIndexIterator (curr_page_id_ it) (curr_page_id_idx_ it + 1)) ∧
  IsEnd it s =
    Ok (bool_decide (curr_page_id_idx_ it = GetSize lp - 1 ∧
                     GetNextPageId lp = INVALID_PAGE_ID)).
Proof.
  intros Hvalid Hlp Hleaf. unfold iterator_next, IsEnd, FetchPage.
  destruct (Z.eqb_spec (curr_page_id_ it) INVALID_PAGE_ID); [done|].
  rewrite Hlp. simpl. rewrite Hleaf. simpl.
  destruct (Z.eqb_spec (curr_page_id_idx_ it) (GetSize lp - 1)) as [Heq|Hne];
    destruct (Z.eqb_spec (GetNextPageId lp) INVALID_PAGE_ID) as [Hn|Hn]; simpl.
  - rewrite !decide_True by done. by rewrite bool_decide_eq_true_2.
  - rewrite decide_True, decide_False by done.
    rewrite bool_decide_eq_false_2; [done|]. by intros [_ ?].
  - rewrite decide_False by done.
    rewrite bool_decide_eq_false_2; [done|]. by intros [? _].
  - rewrite decide_False by done.
    rewrite bool_decide_eq_false_2; [done|]. by intros [? _].
Qed.

Lemma iterator_next_on_leaf_witness :
  iterator_next (mkIndexIterator 1 1) sample_tree = Ok (mkIndexIterator 1 2) ∧
  iterator_next (mkIndexIterator 1 3) sample_tree = Ok (mkIndexIterator 1 3) ∧
  IsEnd (mkIndexIterator 1 3) sample_tree = Ok true.
Proof.
  split; [|split].
  - apply (iterator_next_on_leaf (mkIndexIterator 1 1) sample_tree sample_root_leaf);
      [discriminate|vm_compute; reflexivity|reflexivity].
  - apply (iterator_next_on_leaf (mkIndexIterator 1 3) sample_tree sample_root_leaf);
      [discriminate|vm_compute; reflexivity|reflexivity].
  - apply (iterator_next_on_leaf (mkIndexIterator 1 3) sample_tree sample_root_leaf);
      [discriminate|vm_compute; reflexivity|reflexivity].
Defined.

End BPlusTreeInvariants.

(** * Further properties of the buffer pool manager *)

Module BufferPoolManagerInstanceInvariants.

Import BufferPoolManagerInstance BufferPoolManagerInstanceProperties.

Section pool.

Context {Data : Type}.
Variable zeroed : Data.

Abbreviation hash := ExtendibleHashTable.std_hash_int.

(** ** Inserting a page id that is in the page table with the same frame *)

Lemma list_assign_key_same {K V : Type} `{EqDecision K} (key : K) (value : V) (l : list (K * V)) :
  ExtendibleHashTable.list_find_key key l = Some value →
  ExtendibleHashTable.list_assign_key key value l = Some l.
Proof.
  induction l as [|[k v] l IH]; simpl; [done|].
  destruct (decide (k = key)) as [->|Hne].
  - by intros [= ->].
  - intros Hf. by rewrite IH.
Qed.

Lemma Insert_same_value {K V : Type} `{EqDecision K} (hash' : K → Z) (fuel : nat)
    (key : K) (value : V) (h : ExtendibleHashTable.t K V) :
  ExtendibleHashTable.Find hash' key h = Ok (Some value) →
  ExtendibleHashTable.Insert hash' (S fuel) key value h = Ok h.
Proof.
  unfold ExtendibleHashTable.Find, ExtendibleHashTable.Insert. simpl.
  destruct (ExtendibleHashTable.dir_at h _) as [bucket| | |]; try done. simpl.
  destruct (ExtendibleHashTable.buckets_ h !! bucket) as [b|] eqn:Hb; [|done]. simpl.
  intros [= Hfind]. unfold ExtendibleHashTable.BucketFind in Hfind.
  assert (Hsame : (ExtendibleHashTable.BucketInsert key value b).2 = b).
  { unfold ExtendibleHashTable.BucketInsert. destruct (ExtendibleHashTable.IsFull b); [done|].
    rewrite (list_assign_key_same key value _ Hfind). by destruct b. }
  destruct (ExtendibleHashTable.IsFull b); simpl.
  - unfold ExtendibleHashTable.BucketFind. rewrite Hfind. simpl.
    rewrite Hsame, list_insert_id by done. by destruct h.
  - rewrite Hsame, list_insert_id by done. by destruct h.
Qed.

(** What [PostSuccessfullPageAllocation] leaves alone. *)
Lemma PostSuccessfullPageAllocation_frame (fuel : nat) (nanos page_id frame_id : Z) (s s' : t Data) :
  PostSuccessfullPageAllocation fuel nanos page_id frame_id s = Ok s' →
  pages_ s' = pages_ s ∧ disk_manager_ s' = disk_manager_ s ∧
  free_list_ s' = free_list_ s ∧ next_page_id_ s' = next_page_id_ s ∧
  pool_size_ s' = pool_size_ s ∧
  ExtendibleHashTable.Insert hash fuel page_id frame_id (page_table_ s) = Ok (page_table_ s') ∧
  LRUKReplacer.SetEvictable frame_id false
    (LRUKReplacer.RecordAccess nanos frame_id (replacer_ s)) = Ok (replacer_ s').
Proof.
  unfold PostSuccessfullPageAllocation.
  destruct (ExtendibleHashTable.Insert _ _ _ _ _) as [h| | |]; try done. simpl.
  destruct (LRUKReplacer.SetEvictable _ _ _) as [r| | |]; try done. simpl.
  by intros [= <-].
Qed.

(** [SetEvictable] right after [RecordAccess] of the same frame always
    finds the frame. *)
Lemma SetEvictable_after_RecordAccess (nanos frame_id : Z) (b : bool) (r : LRUKReplacer.t) :
  ∃ r', LRUKReplacer.SetEvictable frame_id b (LRUKReplacer.RecordAccess nanos frame_id r) = Ok r' ∧
        (LRUKReplacer.is_evictable_ <$> LRUKReplacer.frame_index_map_ r' !! frame_id) = Some b.
Proof.
  unfold LRUKReplacer.SetEvictable, LRUKReplacer.RecordAccess.
  destruct (LRUKReplacer.frame_index_map_ r !! frame_id); simpl;
    rewrite lookup_insert_eq; simpl; eexists; (split; [reflexivity|]);
    simpl; by rewrite lookup_insert_eq.
Qed.

(** X21.  [FetchPgImp] of a page that is in the page table: the frame of
    the page is returned with its pin count one higher; its data, id and
    dirty flag, every other frame, the page table, the free list and the
    disk are unchanged (nothing is read or written); and the replacer has
    the frame flagged as not evictable. *)
Theorem FetchPgImp_resident (fuel : nat) (nanos page_id frame_id : Z) (s : t Data) (page : Page Data) :
  ExtendibleHashTable.Find hash page_id (page_table_ s) = Ok (Some frame_id) →
  page_at frame_id s = Ok page →
  ∃ s', FetchPgImp zeroed (S fuel) nanos page_id s = Ok (Some frame_id, s') ∧
        pages_ s' = <[Z.to_nat frame_id :=
                        mkPage (data_ page) (page_id_ page) (pin_count_ page + 1) (is_dirty_ page)]>
                      (pages_ s) ∧
        page_table_ s' = page_table_ s ∧
        free_list_ s' = free_list_ s ∧
        disk_manager_ s' = disk_manager_ s ∧
        next_page_id_ s' = next_page_id_ s ∧
        (LRUKReplacer.is_evictable_ <$>
           LRUKReplacer.frame_index_map_ (replacer_ s') !! frame_id) = Some false.
Proof.
  intros Hfind Hpage.
  destruct (SetEvictable_after_RecordAccess nanos frame_id false (replacer_ s)) as (r' & Hr & Hflag).
  assert (Hpost : ∀ s1 : t Data,
            page_table_ s1 = page_table_ s → replacer_ s1 = replacer_ s →
            PostSuccessfullPageAllocation (S fuel) nanos page_id frame_id s1
            = Ok (set_replacer r' (set_page_table (page_table_ s) s1))).
  { intros s1 Ht Hrep. unfold PostSuccessfullPageAllocation. rewrite Ht, Hrep.
    rewrite (Insert_same_value hash fuel page_id frame_id _ Hfind).
    unfold mbind, result_mbind. cbn [result_bind]. rewrite Hr. done. }
  unfold FetchPgImp. rewrite Hfind.
  unfold mbind, result_mbind. cbn [result_bind]. rewrite Hpage. cbn [result_bind].
  rewrite Hpost by done. cbn [result_bind].
  eexists. split; [reflexivity|]. by simpl.
Qed.

(** X22.  [FlushPgImp]: for a page that is not in the page table the
    result is [false] and nothing changes.  For a page in the page table
    there is exactly one [WritePage], with the id and the data of the page
    in its frame, whether or not the page is dirty or pinned; the frame is
    left clean with its pin count, and nothing else changes. *)
Theorem FlushPgImp_spec (page_id : Z) (s : t Data) :
  (ExtendibleHashTable.Find hash page_id (page_table_ s) = Ok None →
   FlushPgImp page_id s = Ok (false, s)) ∧
  (∀ frame_id page,
     ExtendibleHashTable.Find hash page_id (page_table_ s) = Ok (Some frame_id) →
     page_at frame_id s = Ok page →
     ∃ s', FlushPgImp page_id s = Ok (true, s') ∧
           disk_manager_ s' = (page_id_ page, data_ page) :: disk_manager_ s ∧
           pages_ s' = <[Z.to_nat frame_id :=
                           mkPage (data_ page) (page_id_ page) (pin_count_ page) false]> (pages_ s) ∧
           page_table_ s' = page_table_ s ∧ replacer_ s' = replacer_ s ∧
           free_list_ s' = free_list_ s).
Proof.
  split.
  - intros Hfind. unfold FlushPgImp. by rewrite Hfind.
  - intros frame_id page Hfind Hpage. unfold FlushPgImp, FlushPgImpInternal.
    rewrite Hfind. simpl. rewrite Hpage. simpl. eexists. split; [reflexivity|]. done.
Qed.

(** X23.  With an empty free list and no candidate in the replacer,
    [NewPgImp] returns nothing and [FetchPgImp] of a page that is not in
    the page table returns nothing; the pool is left as it was, and no page
    id is used up. *)
Theorem no_frame_available (fuel : nat) (nanos : Z) (s : t Data) :
  free_list_ s = [] →
  LRUKReplacer.Size (replacer_ s) = 0%nat →
  NewPgImp zeroed fuel nanos s = Ok (None, s) ∧
  ∀ page_id, ExtendibleHashTable.Find hash page_id (page_table_ s) = Ok None →
             FetchPgImp zeroed fuel nanos page_id s = Ok (None, s).
Proof.
  intros Hfree Hsize. unfold LRUKReplacer.Size in Hsize.
  apply length_zero_iff_nil in Hsize.
  assert (Hev : LRUKReplacer.Evict (replacer_ s) = (None, replacer_ s)).
  { unfold LRUKReplacer.Evict. by rewrite Hsize. }
  split.
  - unfold NewPgImp. by rewrite Hfree, Hev.
  - intros page_id Hfind. unfold FetchPgImp. rewrite Hfind. simpl. by rewrite Hfree, Hev.
Qed.

(** X24.  [NewPgImp] with an empty free list and the victim frame
    [frame_id] of the replacer: if it returns, it returns the next page id
    in that frame; the frame holds a zeroed, clean page with that id,
    pinned once; and the disk has received one [WritePage] with the victim
    page's id and data if that page was dirty, and none if it was clean. *)
Theorem NewPgImp_writes_back_dirty_victim (fuel : nat) (nanos frame_id : Z) (s s' : t Data)
    (r : LRUKReplacer.t) (victim : Page Data) (result : option (Z * Z)) :
  free_list_ s = [] →
  LRUKReplacer.Evict (replacer_ s) = (Some frame_id, r) →
  page_at frame_id s = Ok victim →
  NewPgImp zeroed fuel nanos s = Ok (result, s') →
  result = Some (next_page_id_ s, frame_id) ∧
  pages_ s' = <[Z.to_nat frame_id := mkPage zeroed (next_page_id_ s) 1 false]> (pages_ s) ∧
  disk_manager_ s' =
    (if is_dirty_ victim then [(page_id_ victim, data_ victim)] else []) ++ disk_manager_ s ∧
  free_list_ s' = [] ∧
  next_page_id_ s' = wrap_int32 (next_page_id_ s + 1).
Proof.
  intros Hfree Hev Hvictim. unfold NewPgImp. rewrite Hfree, Hev.
  assert (Hat : ∀ s0 : t Data, pages_ s0 = pages_ s → page_at frame_id s0 = Ok victim).
  { intros s0 Hp. unfold page_at in *. by rewrite Hp. }
  rewrite (Hat (set_replacer r s)) by done. simpl.
  destruct (ExtendibleHashTable.Remove _ _ _) as [rm| | |]; try done. simpl.
  destruct (page_at_inv _ _ _ Hvictim) as [Hnonneg Hlook].
  assert (Hlt : (Z.to_nat frame_id < length (pages_ s))%nat) by (by eapply lookup_lt_Some).
  unfold IsDirty. destruct (is_dirty_ victim) eqn:Hdirty; simpl.
  - unfold FlushPgImpInternal. rewrite Hat by done. simpl.
    unfold page_at. simpl. destruct (Z.ltb_spec frame_id 0); [lia|].
    rewrite list_lookup_insert_eq by done. simpl.
    destruct (PostSuccessfullPageAllocation _ _ _ _ _) as [s5| | |] eqn:Hpost; try done.
    simpl. intros [= <- <-].
    apply PostSuccessfullPageAllocation_frame in Hpost as (Hp & Hd & Hf & Hn & _).
    simpl in *. rewrite Hp, Hd, Hf, Hn. rewrite list_insert_insert_eq. done.
  - rewrite Hat by done. simpl.
    destruct (PostSuccessfullPageAllocation _ _ _ _ _) as [s5| | |] eqn:Hpost; try done.
    simpl. intros [= <- <-].
    apply PostSuccessfullPageAllocation_frame in Hpost as (Hp & Hd & Hf & Hn & _).
    simpl in *. by rewrite Hp, Hd, Hf, Hn.
Qed.

(** X25.  [DeletePgImp]: a page that is not in the page table gives
    [true] and changes nothing; a page that is pinned gives [false] and
    changes nothing.  For an unpinned page, if the call returns, the frame
    holds a zeroed clean page with id [INVALID_PAGE_ID], the frame is at
    the back of the free list, and the disk has received one [WritePage]
    with the page's data if the page was dirty, and none otherwise. *)
Theorem DeletePgImp_cases (page_id : Z) (s : t Data) :
  (ExtendibleHashTable.Find hash page_id (page_table_ s) = Ok None →
   DeletePgImp zeroed page_id s = Ok (true, s)) ∧
  (∀ frame_id page,
     ExtendibleHashTable.Find hash page_id (page_table_ s) = Ok (Some frame_id) →
     page_at frame_id s = Ok page →
     (0 < GetPinCount page → DeletePgImp zeroed page_id s = Ok (false, s)) ∧
     (GetPinCount page <= 0 →
      ∀ b s', DeletePgImp zeroed page_id s = Ok (b, s') →
              b = true ∧
              pages_ s' = <[Z.to_nat frame_id :=
                              mkPage zeroed INVALID_PAGE_ID (pin_count_ page) false]> (pages_ s) ∧
              free_list_ s' = free_list_ s ++ [frame_id] ∧
              disk_manager_ s' =
                (if is_dirty_ page then [(page_id_ page, data_ page)] else [])
                ++ disk_manager_ s ∧
              LRUKReplacer.frame_index_map_ (replacer_ s') !! frame_id = None)).
Proof.
  split.
  { intros Hfind. unfold DeletePgImp. by rewrite Hfind. }
  intros frame_id page Hfind Hpage. split.
  { intros Hpin. unfold DeletePgImp. rewrite Hfind. simpl. rewrite Hpage. simpl.
    by destruct (Z.ltb_spec 0 (GetPinCount page)); [|lia]. }
  intros Hpin b s'. unfold DeletePgImp. rewrite Hfind. simpl. rewrite Hpage. simpl.
  destruct (Z.ltb_spec 0 (GetPinCount page)); [lia|].
  destruct (page_at_inv _ _ _ Hpage) as [Hnonneg Hlook].
  assert (Hlt : (Z.to_nat frame_id < length (pages_ s))%nat) by (by eapply lookup_lt_Some).
  assert (Hremove : ∀ r0 r1, LRUKReplacer.Remove frame_id r0 = Ok r1 →
                             LRUKReplacer.frame_index_map_ r1 !! frame_id = None).
  { intros r0 r1. unfold LRUKReplacer.Remove.
    destruct (LRUKReplacer.frame_index_map_ r0 !! frame_id) as [fr|] eqn:Hfr.
    - destruct (LRUKReplacer.IsEvictable fr); [|done]. intros [= <-]. simpl.
      apply lookup_delete_eq.
    - by intros [= <-]. }
  unfold IsDirty. destruct (is_dirty_ page) eqn:Hdirty; simpl.
  - unfold FlushPgImpInternal. rewrite Hpage. simpl.
    unfold page_at. simpl. destruct (Z.ltb_spec frame_id 0); [lia|].
    rewrite list_lookup_insert_eq by done. simpl.
    destruct (ExtendibleHashTable.Remove _ _ _) as [rm| | |]; try done. simpl.
    destruct (LRUKReplacer.Remove frame_id (replacer_ s)) as [r1| | |] eqn:Hrm; try done. simpl.
    intros [= <- <-]. simpl. rewrite list_insert_insert_eq.
    split; [done|]. split; [done|]. split; [done|]. split; [done|]. by eapply Hremove.
  - rewrite Hpage. simpl.
    destruct (ExtendibleHashTable.Remove _ _ _) as [rm| | |]; try done. simpl.
    destruct (LRUKReplacer.Remove frame_id (replacer_ s)) as [r1| | |] eqn:Hrm; try done. simpl.
    intros [= <- <-]. simpl.
    split; [done|]. split; [done|]. split; [done|]. split; [done|]. by eapply Hremove.
Qed.

Lemma FlushAllPgsImp_loop_fields (n : nat) (frame_id : Z) (s s' : t Data) :
  FlushAllPgsImp_loop n frame_id s = Ok s' →
  pool_size_ s' = pool_size_ s ∧ next_page_id_ s' = next_page_id_ s ∧
  length (pages_ s') = length (pages_ s).
Proof.
  revert frame_id s. induction n as [|n IH]; intros frame_id s; simpl.
  - by intros [= <-].
  - unfold FlushPgImpInternal. destruct (page_at frame_id s) as [page| | |]; try done. simpl.
    intros Hrun. apply IH in Hrun as (Hp & Hn & Hl). simpl in *.
    by rewrite length_insert in Hl.
Qed.

(** X26.  [FlushAllPgsImp] does not look at the dirty flag or at the pin
    count: run twice in a row on a pool, the second run writes every frame
    again, in frame order, with the same ids and data as the first, and
    leaves the frames as the first run left them.  Neither run changes the
    page table, the replacer, the free list or the page id counter. *)
Theorem FlushAllPgsImp_twice (s : t Data) :
  length (pages_ s) = pool_size_ s →
  ∃ s1 s2, FlushAllPgsImp s = Ok s1 ∧ FlushAllPgsImp s1 = Ok s2 ∧
           disk_manager_ s1 = rev (written <$> pages_ s) ++ disk_manager_ s ∧
           disk_manager_ s2 = rev (written <$> pages_ s) ++ disk_manager_ s1 ∧
           pages_ s1 = cleaned <$> pages_ s ∧ pages_ s2 = pages_ s1 ∧
           page_table_ s2 = page_table_ s ∧ replacer_ s2 = replacer_ s ∧
           free_list_ s2 = free_list_ s ∧ next_page_id_ s2 = next_page_id_ s.
Proof.
  intros Hlen. unfold FlushAllPgsImp.
  destruct (FlushAllPgsImp_loop_spec (pool_size_ s) 0 s)
    as (s1 & Hrun1 & Hdisk1 & Hpages1 & Htab1 & Hrep1 & Hfree1); [by rewrite Hlen|].
  destruct (FlushAllPgsImp_loop_fields _ _ _ _ Hrun1) as (Hpool1 & Hnext1 & Hlen1).
  destruct (FlushAllPgsImp_loop_spec (pool_size_ s1) 0 s1)
    as (s2 & Hrun2 & Hdisk2 & Hpages2 & Htab2 & Hrep2 & Hfree2); [by rewrite Hpool1, Hlen1|].
  destruct (FlushAllPgsImp_loop_fields _ _ _ _ Hrun2) as (Hpool2 & Hnext2 & Hlen2).
  rewrite drop_0, take_0 in *. simpl in *.
  assert (Hwritten : written <$> (cleaned <$> pages_ s) = written <$> pages_ s).
  { rewrite <- list_fmap_compose. by apply list_fmap_ext. }
  assert (Hcleaned : cleaned <$> (cleaned <$> pages_ s) = cleaned <$> pages_ s).
  { rewrite <- list_fmap_compose. by apply list_fmap_ext. }
  exists s1, s2. split; [done|]. split; [done|]. split; [done|].
  split; [by rewrite Hdisk2, Hpages1, Hwritten|]. split; [done|].
  split; [by rewrite Hpages2, Hpages1, Hcleaned|].
  split; [congruence|]. split; [congruence|]. split; congruence.
Qed.

End pool.

(** Three frames, all in use: page 0 unpinned and dirty, pages 1 and 2
    pinned. *)
Definition dirty_victim_pool : t Z :=
  match (r ← NewPgImp 0 10 1 (New 0 3 4 2); r ← NewPgImp 0 10 2 r.2;
         r ← NewPgImp 0 10 3 r.2; UnpinPgImp 0 true r.2) with
  | Ok r => r.2
  | _ => New 0 3 4 2
  end.

(** One frame, in use by page 0, pinned. *)
Definition pinned_pool : t Z :=
  match NewPgImp 0 10 1 (New 0 1 4 2) with
  | Ok r => r.2
  | _ => New 0 1 4 2
  end.

Lemma FetchPgImp_resident_witness :
  ∃ s', FetchPgImp 0 10 2 0 one_page_pool = Ok (Some 0, s') ∧
        pin_count_ <$> pages_ s' = [2; 0; 0] ∧ disk_manager_ s' = [].
Proof.
  destruct (FetchPgImp_resident 0 9 2 0 0 one_page_pool (mkPage 0 0 1 false))
    as (s' & Hfetch & Hpages & _ & _ & Hdisk & _);
    [vm_compute; reflexivity|vm_compute; reflexivity|].
  exists s'. split; [exact Hfetch|]. split; [by rewrite Hpages|by rewrite Hdisk].
Defined.

Lemma FlushPgImp_spec_witness :
  FlushPgImp 7 one_page_pool = Ok (false, one_page_pool) ∧
  ∃ s', FlushPgImp 0 one_page_pool = Ok (true, s') ∧ disk_manager_ s' = [(0, 0)].
Proof.
  split.
  - apply (proj1 (FlushPgImp_spec 7 one_page_pool)). vm_compute. reflexivity.
  - destruct (proj2 (FlushPgImp_spec 0 one_page_pool) 0 (mkPage 0 0 1 false))
      as (s' & Hflush & Hdisk & _); [vm_compute; reflexivity|vm_compute; reflexivity|].
    exists s'. split; [exact Hflush|by rewrite Hdisk].
Defined.

Lemma no_frame_available_witness :
  NewPgImp 0 10 2 pinned_pool = Ok (None, pinned_pool) ∧
  FetchPgImp 0 10 2 5 pinned_pool = Ok (None, pinned_pool).
Proof.
  destruct (no_frame_available 0 10 2 pinned_pool) as [Hnew Hfetch];
    [vm_compute; reflexivity|vm_compute; reflexivity|].
  split; [exact Hnew|]. apply Hfetch. vm_compute. reflexivity.
Defined.

Lemma NewPgImp_writes_back_dirty_victim_witness :
  ∃ s', NewPgImp 0 10 5 dirty_victim_pool = Ok (Some (3, 0), s') ∧
        disk_manager_ s' = [(0, 0)] ∧ page_id_ <$> pages_ s' = [3; 1; 2].
Proof.
  destruct (NewPgImp 0 10 5 dirty_victim_pool) as [[result s']| | |] eqn:Hnew;
    try (vm_compute in Hnew; discriminate).
  destruct (NewPgImp_writes_back_dirty_victim 0 10 5 0 dirty_victim_pool s'
              (LRUKReplacer.Evict (replacer_ dirty_victim_pool)).2
              (mkPage 0 0 0 true) result)
    as (Hres & Hpages & Hdisk & _);
    [vm_compute; reflexivity|vm_compute; reflexivity|vm_compute; reflexivity|exact Hnew|].
  exists s'. split; [by rewrite Hres|]. split; [by rewrite Hdisk|by rewrite Hpages].
Defined.

Lemma DeletePgImp_cases_witness :
  DeletePgImp 0 7 one_page_pool = Ok (true, one_page_pool) ∧
  DeletePgImp 0 0 one_page_pool = Ok (false, one_page_pool) ∧
  ∃ s', DeletePgImp 0 0 dirty_victim_pool = Ok (true, s') ∧
        free_list_ s' = [0] ∧ disk_manager_ s' = [(0, 0)].
Proof.
  split; [|split].
  - apply (proj1 (DeletePgImp_cases 0 7 one_page_pool)). vm_compute. reflexivity.
  - destruct (proj2 (DeletePgImp_cases 0 0 one_page_pool) 0 (mkPage 0 0 1 false)) as [Hpinned _];
      [vm_compute; reflexivity|vm_compute; reflexivity|].
    apply Hpinned. simpl. lia.
  - destruct (DeletePgImp 0 0 dirty_victim_pool) as [[b s']| | |] eqn:Hdel;
      try (vm_compute in Hdel; discriminate).
    destruct (proj2 (DeletePgImp_cases 0 0 dirty_victim_pool) 0 (mkPage 0 0 0 true)) as [_ Hfree];
      [vm_compute; reflexivity|vm_compute; reflexivity|].
    destruct (Hfree ltac:(simpl; lia) b s' Hdel) as (-> & _ & Hlist & Hdisk & _).
    exists s'. split; [reflexivity|]. split; [by rewrite Hlist|by rewrite Hdisk].
Defined.

Lemma FlushAllPgsImp_twice_witness :
  ∃ s1 s2, FlushAllPgsImp one_page_pool = Ok s1 ∧ FlushAllPgsImp s1 = Ok s2 ∧
           length (disk_manager_ s2) = 6%nat.
Proof.
  destruct (FlushAllPgsImp_twice one_page_pool) as (s1 & s2 & H1 & H2 & Hd1 & Hd2 & _);
    [vm_compute; reflexivity|].
  exists s1, s2. split; [exact H1|]. split; [exact H2|]. by rewrite Hd2, Hd1.
Defined.

End BufferPoolManagerInstanceInvariants.

(** * The directory of the extendible hash table

    [1 << d] and the masks made from it are read over the integers, as in
    [IndexOf] and [SplitBucket] of the model. *)

Module ExtendibleHashTableDirectory.

Import ExtendibleHashTable ExtendibleHashTableProperties ExtendibleHashTableInvariants.

(** ** Bit masks as arithmetic *)

Definition same_low_bits (d x y : Z) : Prop := x mod 2 ^ d = y mod 2 ^ d.

#[local] Instance same_low_bits_dec (d x y : Z) : Decision (same_low_bits d x y).
Proof. unfold same_low_bits. apply _. Defined.

Lemma mask_mod (d x : Z) : 0 <= d → Z.land x (Z.shiftl 1 d - 1) = x mod 2 ^ d.
Proof.
  intros Hd. rewrite Z.shiftl_1_l. rewrite <- Z.land_ones by done.
  by rewrite Z.ones_equiv, <- Z.sub_1_r.
Qed.

Lemma bit_mask (d x : Z) : 0 <= d → Z.land x (Z.shiftl 1 d) = 2 ^ d * ((x / 2 ^ d) mod 2).
Proof.
  intros Hd. rewrite Z.shiftl_1_l.
  rewrite <- (Z.testbit_spec' x d Hd).
  apply Z.bits_inj'. intros n Hn. rewrite Z.land_spec, Z.pow2_bits_eqb by done.
  destruct (Z.testbit x d) eqn:Hbit; simpl.
  - rewrite Z.mul_1_r, Z.pow2_bits_eqb by done.
    destruct (Z.eqb_spec d n) as [->|]; [by rewrite Hbit|by rewrite andb_false_r].
  - rewrite Z.mul_0_r, Z.bits_0.
    destruct (Z.eqb_spec d n) as [->|]; [by rewrite Hbit|by rewrite andb_false_r].
Qed.

Lemma mod_pow2_succ (d x : Z) :
  0 <= d → x mod 2 ^ (d + 1) = x mod 2 ^ d + 2 ^ d * ((x / 2 ^ d) mod 2).
Proof.
  intros Hd. rewrite Z.pow_add_r, Z.pow_1_r by lia.
  apply Z.rem_mul_r; [|lia]. apply Z.pow_nonzero; lia.
Qed.

Lemma same_low_bits_succ (d x y : Z) :
  0 <= d →
  same_low_bits (d + 1) x y ↔
  same_low_bits d x y ∧ Z.land x (Z.shiftl 1 d) = Z.land y (Z.shiftl 1 d).
Proof.
  intros Hd. unfold same_low_bits. rewrite !bit_mask, !mod_pow2_succ by done.
  assert (0 < 2 ^ d) by (apply Z.pow_pos_nonneg; lia).
  pose proof (Z.mod_pos_bound x (2 ^ d) ltac:(lia)).
  pose proof (Z.mod_pos_bound y (2 ^ d) ltac:(lia)).
  pose proof (Z.mod_pos_bound (x / 2 ^ d) 2 ltac:(lia)).
  pose proof (Z.mod_pos_bound (y / 2 ^ d) 2 ltac:(lia)).
  split; [|intros [-> ->]; done].
  intros Heq.
  assert (Hx : (x / 2 ^ d) mod 2 = 0 ∨ (x / 2 ^ d) mod 2 = 1) by lia.
  assert (Hy : (y / 2 ^ d) mod 2 = 0 ∨ (y / 2 ^ d) mod 2 = 1) by lia.
  destruct Hx as [Hx|Hx], Hy as [Hy|Hy]; rewrite Hx, Hy in *; lia.
Qed.

Lemma same_low_bits_le (d d' x y : Z) :
  0 <= d → d <= d' → same_low_bits d' x y → same_low_bits d x y.
Proof.
  intros Hd Hle. unfold same_low_bits. intros Heq.
  replace d' with (d + (d' - d)) in Heq by lia.
  rewrite Z.pow_add_r in Heq by lia.
  assert (0 < 2 ^ d) by (apply Z.pow_pos_nonneg; lia).
  assert (0 < 2 ^ (d' - d)) by (apply Z.pow_pos_nonneg; lia).
  rewrite !Z.rem_mul_r in Heq by lia.
  apply (f_equal (λ z, z mod 2 ^ d)) in Heq.
  rewrite !(Z.mul_comm (2 ^ d)), !Z.mod_add, !Z.mod_mod in Heq by lia. done.
Qed.

Lemma same_low_bits_mod (d g x : Z) :
  0 <= d → d <= g → same_low_bits d (x mod 2 ^ g) x.
Proof.
  intros Hd Hle. unfold same_low_bits.
  replace g with (d + (g - d)) by lia. rewrite Z.pow_add_r by lia.
  assert (0 < 2 ^ d) by (apply Z.pow_pos_nonneg; lia).
  assert (0 < 2 ^ (g - d)) by (apply Z.pow_pos_nonneg; lia).
  rewrite Z.rem_mul_r by lia.
  by rewrite (Z.mul_comm (2 ^ d)), Z.mod_add, Z.mod_mod by lia.
Qed.

Lemma split_slot_eq (dir_index d i : Z) :
  0 <= d → 0 <= i → split_slot dir_index d i = i * 2 ^ d + dir_index mod 2 ^ d.
Proof.
  intros Hd Hi. unfold split_slot. rewrite mask_mod by done.
  destruct (Z.eqb_spec i 0) as [->|Hne]; [lia|].
  rewrite Z.shiftl_mul_pow2 by done.
  rewrite <- Z.lxor_lor, <- Z.add_nocarry_lxor; [done| |].
  all: rewrite <- Z.shiftl_mul_pow2, <- Z.land_ones by done;
    apply Z.bits_inj'; intros n Hn;
    rewrite !Z.land_spec, Z.bits_0, Z.shiftl_spec by done;
    destruct (Z.ltb_spec n d);
    [rewrite (Z.testbit_neg_r i) by lia; done
    |rewrite Z.ones_spec_high by lia; by rewrite !andb_false_r].
Qed.

Section table.

Context {K V : Type} `{EqDecision K}.
Variable hash : K → Z.

(** ** A bucket without repeated keys, as a map *)

Lemma list_find_key_None (key : K) (l : list (K * V)) :
  list_find_key key l = None ↔ key ∉ l.*1.
Proof.
  induction l as [|entry l IH]; simpl.
  - split; [intros _; apply not_elem_of_nil|done].
  - rewrite not_elem_of_cons. destruct (decide (entry.1 = key)) as [Heq|Hne].
    + split; [done|]. by intros [? _].
    + rewrite IH. split; [intros Hnot; split; [congruence|done]|by intros [_ ?]].
Qed.

Lemma list_find_key_Some (key : K) (value : V) (l : list (K * V)) :
  NoDup l.*1 → list_find_key key l = Some value ↔ (key, value) ∈ l.
Proof.
  induction l as [|entry l IH]; simpl; intros Hnd.
  - split; [done|]. intros Hin. by apply elem_of_nil in Hin.
  - apply NoDup_cons in Hnd as [Hnot Hnd]. rewrite elem_of_cons.
    destruct (decide (entry.1 = key)) as [Heq|Hne].
    + split.
      * intros [= <-]. left. destruct entry. simpl in *. by subst.
      * intros [Hentry|Hin]; [by subst entry|]. exfalso. apply Hnot. rewrite Heq.
        by apply (list_elem_of_fmap_2 fst) in Hin.
    + rewrite (IH Hnd). split; [by right|]. intros [Hentry|Hin]; [by subst entry|done].
Qed.

(** Two lists without repeated keys and with the same entries answer
    every [Find] alike. *)
Lemma list_find_key_ext (key : K) (l l' : list (K * V)) :
  NoDup l.*1 → NoDup l'.*1 →
  (∀ value, (key, value) ∈ l ↔ (key, value) ∈ l') →
  list_find_key key l = list_find_key key l'.
Proof.
  intros Hnd Hnd' Hsame.
  destruct (list_find_key key l) as [v|] eqn:Hl.
  - symmetry. apply list_find_key_Some; [done|]. apply Hsame. by apply list_find_key_Some.
  - destruct (list_find_key key l') as [v'|] eqn:Hl'; [|done].
    apply list_find_key_Some in Hl'; [|done]. apply Hsame in Hl'.
    apply list_find_key_Some in Hl'; [|done]. congruence.
Qed.

Lemma NoDup_keys_filter (P : K * V → Prop) `{∀ e, Decision (P e)} (l : list (K * V)) :
  NoDup l.*1 → NoDup (filter P l).*1.
Proof.
  intros Hnd. eapply sublist_NoDup; [exact Hnd|]. apply fmap_sublist. apply sublist_filter.
Qed.

Lemma filter_all (P : K * V → Prop) `{∀ e, Decision (P e)} (l : list (K * V)) :
  length (filter P l) = length l → filter P l = l.
Proof.
  induction l as [|e l IH]; [done|]. rewrite filter_cons.
  destruct (decide (P e)); simpl.
  - intros [= Hlen]. by rewrite IH.
  - pose proof (length_filter P l). lia.
Qed.

Lemma filter_ext_elem (P Q : K * V → Prop) `{∀ e, Decision (P e)} `{∀ e, Decision (Q e)}
    (l : list (K * V)) :
  (∀ e, e ∈ l → P e ↔ Q e) → filter P l = filter Q l.
Proof.
  induction l as [|e l IH]; [done|]. intros Hext. rewrite !filter_cons.
  assert (He : P e ↔ Q e) by (apply Hext, elem_of_cons; by left).
  rewrite IH by (intros x Hx; apply Hext, elem_of_cons; by right).
  destruct (decide (P e)), (decide (Q e)); tauto.
Qed.

Lemma list_erase_key_filter (key : K) (l : list (K * V)) :
  NoDup l.*1 → (list_erase_key key l).2 = filter (λ e, e.1 ≠ key) l.
Proof.
  induction l as [|entry l IH]; simpl; [done|]. intros Hnd.
  apply NoDup_cons in Hnd as [Hnot Hnd]. rewrite filter_cons.
  destruct (decide (entry.1 = key)) as [Heq|Hne]; simpl.
  - destruct (decide (entry.1 ≠ key)); [done|].
    symmetry. rewrite <- (filter_all (λ e, e.1 ≠ key) l) at 2; [done|].
    clear IH. induction l as [|e l IH]; [done|].
    apply not_elem_of_cons in Hnot as [Hne Hnot]. apply NoDup_cons in Hnd as [_ Hnd].
    rewrite filter_cons_True by (simpl; congruence). simpl. by rewrite IH.
  - destruct (decide (entry.1 ≠ key)); [|done]. by rewrite IH.
Qed.

(** The second loop of [SplitBucket]. *)
Lemma remove_all_filter (keys : list K) (b : Bucket K V) :
  NoDup (list_ b).*1 →
  foldl (λ (acc : Bucket K V) (remove_k : K), (BucketRemove remove_k acc).2) b keys
  = mkBucket (size_ b) (depth_ b) (filter (λ e, e.1 ∉ keys) (list_ b)).
Proof.
  revert b. induction keys as [|k keys IH]; intros b Hnd; simpl.
  - destruct b as [sz d l]. simpl. f_equal. symmetry. apply filter_all.
    clear. induction l as [|e l IH]; [done|].
    rewrite filter_cons_True by apply not_elem_of_nil. simpl. by rewrite IH.
  - rewrite IH; simpl.
    + f_equal. rewrite list_erase_key_filter by done. rewrite list_filter_filter.
      apply list_filter_iff. intros e. rewrite not_elem_of_cons. split; intros [? ?]; done.
    + rewrite list_erase_key_filter by done. by apply NoDup_keys_filter.
Qed.

(** The first loop of [SplitBucket]: the entries that do not stay are
    appended to the new bucket, in order. *)
Lemma move_all_filter (stay : K → bool) (items : list (K * V)) (acc : Bucket K V) (keys : list K) :
  NoDup (list_ acc ++ items).*1 →
  (length (list_ acc) + length (filter (λ e, stay e.1 = false) items) <= size_ acc)%nat →
  foldl (λ (a : Bucket K V * list K) (item : K * V),
           if stay item.1 then a
           else ((BucketInsert item.1 item.2 a.1).2, a.2 ++ [item.1]))
        (acc, keys) items
  = (mkBucket (size_ acc) (depth_ acc)
              (list_ acc ++ filter (λ e, stay e.1 = false) items),
     keys ++ (filter (λ e, stay e.1 = false) items).*1).
Proof.
  revert acc keys. induction items as [|item items IH]; intros acc keys Hnd Hlen; simpl.
  - rewrite !app_nil_r. by destruct acc.
  - rewrite filter_cons in *. destruct (stay item.1) eqn:Hstay; simpl in *.
    + destruct (decide (true = false)) as [?|_]; [done|]. apply IH; [|done].
      rewrite fmap_app in *. simpl in Hnd.
      apply NoDup_app in Hnd as (Hacc & Hdisj & Hitems).
      apply NoDup_cons in Hitems as [_ Hitems].
      apply NoDup_app. split; [done|]. split; [|done].
      intros x Hx Hin. apply (Hdisj x Hx). apply elem_of_cons. by right.
    + destruct (decide (false = false)) as [_|?]; [|done]. simpl in Hlen.
      assert (Hfresh : list_find_key item.1 (list_ acc) = None).
      { apply list_find_key_None. intros Hin. rewrite fmap_app in Hnd.
        apply NoDup_app in Hnd as (_ & Hdisj & _). apply (Hdisj _ Hin).
        simpl. apply elem_of_cons. by left. }
      assert (Hinsert : (BucketInsert item.1 item.2 acc).2
                        = mkBucket (size_ acc) (depth_ acc) (list_ acc ++ [item])).
      { unfold BucketInsert, IsFull.
        destruct (Nat.eqb_spec (length (list_ acc)) (size_ acc)); [lia|].
        rewrite list_assign_key_None by done. simpl. by destruct item. }
      rewrite Hinsert, IH; simpl.
      * by rewrite <- !app_assoc.
      * by rewrite <- app_assoc.
      * rewrite length_app. simpl. lia.
Qed.

(** ** The directory invariant

    A bucket of local depth [d] reached through slot [i] is the bucket of
    exactly the slots that agree with [i] in the low [d] bits, and holds
    only keys whose hash agrees with [i] in those bits, each once. *)
Record bucket_ok (h : t K V) (i bucket : nat) (b : Bucket K V) : Prop := mk_bucket_ok {
  depth_range : 0 <= depth_ b <= global_depth_ h;
  capacity : size_ b = bucket_size_ h;
  fits : (length (list_ b) <= size_ b)%nat;
  keys_nodup : NoDup (list_ b).*1;
  keys_here : ∀ e, e ∈ list_ b → same_low_bits (depth_ b) (hash e.1) (Z.of_nat i);
  slots : ∀ j, (j < length (dir_ h))%nat →
               dir_ h !! j = Some bucket ↔ same_low_bits (depth_ b) (Z.of_nat j) (Z.of_nat i)
}.

Record well_formed (h : t K V) : Prop := mk_well_formed {
  wf_depth : 0 <= global_depth_ h;
  wf_dir : Z.of_nat (length (dir_ h)) = 2 ^ global_depth_ h;
  wf_bucket : ∀ i bucket, dir_ h !! i = Some bucket →
                          ∃ b, buckets_ h !! bucket = Some b ∧ bucket_ok h i bucket b
}.

Lemma New_well_formed (bucket_size : nat) : well_formed (New bucket_size).
Proof.
  split; [done|done|]. intros i bucket Hi.
  assert (Hcases : (i = 0 ∧ bucket = 0)%nat ∨ (i = 1 ∧ bucket = 1)%nat).
  { destruct i as [|[|i]]; simpl in Hi; [left|right|done]; by injection Hi as <-. }
  exists (mkBucket bucket_size 1 []).
  split; [by destruct Hcases as [[-> ->]|[-> ->]]|].
  split; simpl; [lia|done|lia|apply NoDup_nil_2| |].
  - intros e He. by apply elem_of_nil in He.
  - intros j Hj. unfold same_low_bits.
    destruct Hcases as [[-> ->]|[-> ->]]; destruct j as [|[|j]]; simpl in *; try lia;
      split; done.
Qed.

(** The slot of a key. *)
Lemma key_slot (key : K) (h : t K V) :
  well_formed h →
  ∃ i bucket b,
    IndexOf hash key h = Z.of_nat i ∧ Z.of_nat i = hash key mod 2 ^ global_depth_ h ∧
    dir_ h !! i = Some bucket ∧ dir_at h (IndexOf hash key h) = Ok bucket ∧
    buckets_ h !! bucket = Some b ∧ bucket_ok h i bucket b.
Proof.
  intros [Hdepth Hdir Hbucket].
  assert (0 < 2 ^ global_depth_ h) by (apply Z.pow_pos_nonneg; lia).
  pose proof (Z.mod_pos_bound (hash key) (2 ^ global_depth_ h) ltac:(lia)) as Hbound.
  assert (Hindex : IndexOf hash key h = hash key mod 2 ^ global_depth_ h).
  { unfold IndexOf. by apply mask_mod. }
  destruct (lookup_lt_is_Some_2 (dir_ h) (Z.to_nat (hash key mod 2 ^ global_depth_ h)))
    as [bucket Hslot]; [lia|].
  destruct (Hbucket _ _ Hslot) as (b & Hb & Hok).
  exists (Z.to_nat (hash key mod 2 ^ global_depth_ h)), bucket, b.
  rewrite Hindex. split; [lia|]. split; [lia|]. split; [done|]. split; [|done].
  unfold dir_at. destruct (Z.ltb_spec (hash key mod 2 ^ global_depth_ h) 0); [lia|].
  by rewrite Hslot.
Qed.

(** Writing back the bucket of slot [i] with the same depth and capacity,
    no key twice, and only keys that were there or belong to slot [i]. *)
Lemma update_bucket_well_formed (h : t K V) (i bucket : nat) (b b' : Bucket K V) :
  well_formed h →
  dir_ h !! i = Some bucket →
  buckets_ h !! bucket = Some b →
  depth_ b' = depth_ b → size_ b' = size_ b →
  (length (list_ b') <= size_ b')%nat →
  NoDup (list_ b').*1 →
  (∀ e, e ∈ list_ b' → e ∈ list_ b ∨ same_low_bits (depth_ b) (hash e.1) (Z.of_nat i)) →
  well_formed (mk (global_depth_ h) (bucket_size_ h) (num_buckets_ h) (dir_ h)
                  (<[bucket := b']> (buckets_ h))).
Proof.
  intros [Hdepth Hdir Hbucket] Hi Hb Hd Hsize Hfits Hnd Hkeys.
  split; simpl; [done|done|]. intros j x Hj.
  destruct (Hbucket _ _ Hj) as (bx & Hbx & Hok).
  destruct (decide (x = bucket)) as [->|Hne].
  - exists b'. split; [apply list_lookup_insert_eq; by eapply lookup_lt_Some|].
    assert (bx = b) as -> by congruence.
    destruct Hok as [Hrange Hcap Hfit Hnodup Hhere Hslots].
    split; simpl; rewrite ?Hd, ?Hsize; try done.
    + by rewrite <- Hsize.
    + intros e He. destruct (Hkeys e He) as [Hold|Hnew]; [by apply Hhere|].
      unfold same_low_bits in *. rewrite Hnew.
      apply Hslots; [by eapply lookup_lt_Some|done].
  - exists bx. split; [by rewrite list_lookup_insert_ne|].
    by destruct Hok.
Qed.

(** ** Doubling the directory *)

Definition doubled (h : t K V) : t K V :=
  mk (global_depth_ h + 1) (bucket_size_ h) (num_buckets_ h) (dir_ h ++ dir_ h) (buckets_ h).

Lemma doubled_lookup (h : t K V) (j : nat) :
  well_formed h → (j < 2 * length (dir_ h))%nat →
  (dir_ h ++ dir_ h) !! j = dir_ h !! Z.to_nat (Z.of_nat j mod 2 ^ global_depth_ h).
Proof.
  intros [Hdepth Hdir _] Hj.
  destruct (Nat.lt_ge_cases j (length (dir_ h))) as [Hlt|Hge].
  - rewrite lookup_app_l by done. rewrite Z.mod_small by lia. by rewrite Nat2Z.id.
  - rewrite lookup_app_r by done. f_equal.
    rewrite <- (Z.mod_unique (Z.of_nat j) (2 ^ global_depth_ h) 1
                 (Z.of_nat j - 2 ^ global_depth_ h)); lia.
Qed.

Lemma doubled_well_formed (h : t K V) : well_formed h → well_formed (doubled h).
Proof.
  intros Hwf. pose proof Hwf as [Hdepth Hdir Hbucket].
  assert (0 < 2 ^ global_depth_ h) by (apply Z.pow_pos_nonneg; lia).
  split; simpl; [lia| |].
  { rewrite length_app, Z.pow_add_r by lia. lia. }
  intros j bucket Hj.
  assert (Hlt : (j < 2 * length (dir_ h))%nat).
  { apply lookup_lt_Some in Hj. rewrite length_app in Hj. lia. }
  rewrite doubled_lookup in Hj by done.
  destruct (Hbucket _ _ Hj) as (b & Hb & [Hrange Hcap Hfit Hnodup Hhere Hslots]).
  pose proof (Z.mod_pos_bound (Z.of_nat j) (2 ^ global_depth_ h) ltac:(lia)) as Hbound.
  rewrite Z2Nat.id in Hhere, Hslots by lia.
  assert (Hmod : ∀ x, same_low_bits (depth_ b) (x mod 2 ^ global_depth_ h) x).
  { intros x. apply same_low_bits_mod; lia. }
  exists b. split; [done|]. split; simpl; try done; [lia| |].
  - intros e He. unfold same_low_bits in *. rewrite (Hhere e He). apply Hmod.
  - intros j' Hj'. rewrite length_app in Hj'. rewrite doubled_lookup by (done || lia).
    pose proof (Z.mod_pos_bound (Z.of_nat j') (2 ^ global_depth_ h) ltac:(lia)).
    rewrite Hslots by lia. rewrite Z2Nat.id by lia.
    unfold same_low_bits in *. by rewrite !Hmod.
Qed.

Lemma doubled_Find (key : K) (h : t K V) :
  well_formed h → Find hash key (doubled h) = Find hash key h.
Proof.
  intros Hwf. pose proof Hwf as [Hdepth Hdir _].
  assert (0 < 2 ^ global_depth_ h) by (apply Z.pow_pos_nonneg; lia).
  assert (0 < 2 ^ (global_depth_ h + 1)) by (apply Z.pow_pos_nonneg; lia).
  unfold Find, IndexOf, dir_at. simpl. rewrite !mask_mod by lia.
  pose proof (Z.mod_pos_bound (hash key) (2 ^ global_depth_ h) ltac:(lia)).
  pose proof (Z.mod_pos_bound (hash key) (2 ^ (global_depth_ h + 1)) ltac:(lia)).
  destruct (Z.ltb_spec (hash key mod 2 ^ (global_depth_ h + 1)) 0); [lia|].
  destruct (Z.ltb_spec (hash key mod 2 ^ global_depth_ h) 0); [lia|].
  rewrite doubled_lookup; [|done|].
  - rewrite Z2Nat.id by lia.
    by rewrite (same_low_bits_mod (global_depth_ h) (global_depth_ h + 1) (hash key)) by lia.
  - rewrite Z.pow_add_r in * by lia. lia.
Qed.

(** ** The directory loop of [SplitBucket] *)

Definition write_slot (dir_index d bit0 : Z) (bucket new_bucket : nat)
    (dir : list nat) (i : Z) : list nat :=
  let idx := split_slot dir_index d i in
  if Z.land idx (Z.shiftl 1 d) =? bit0
  then <[Z.to_nat idx := bucket]> dir
  else <[Z.to_nat idx := new_bucket]> dir.

Lemma split_dir (dir_index d bit0 : Z) (bucket new_bucket : nat)
    (steps : list Z) (dir : list nat) :
  length (foldl (write_slot dir_index d bit0 bucket new_bucket) dir steps) = length dir ∧
  ∀ j x, foldl (write_slot dir_index d bit0 bucket new_bucket) dir steps !! j = Some x →
         (∃ i, i ∈ steps ∧ Z.to_nat (split_slot dir_index d i) = j ∧
               x = if Z.land (split_slot dir_index d i) (Z.shiftl 1 d) =? bit0
                   then bucket else new_bucket) ∨
         ((∀ i, i ∈ steps → Z.to_nat (split_slot dir_index d i) ≠ j) ∧ dir !! j = Some x).
Proof.
  revert dir. induction steps as [|i steps IH]; intros dir; simpl.
  - split; [done|]. intros j x Hj. right. split; [|done].
    intros i Hi. by apply elem_of_nil in Hi.
  - destruct (IH (write_slot dir_index d bit0 bucket new_bucket dir i)) as [Hlen Hlook].
    assert (Hwrite : write_slot dir_index d bit0 bucket new_bucket dir i
                     = <[Z.to_nat (split_slot dir_index d i) :=
                           if Z.land (split_slot dir_index d i) (Z.shiftl 1 d) =? bit0
                           then bucket else new_bucket]> dir).
    { unfold write_slot. simpl. by destruct (_ =? _). }
    split; [by rewrite Hlen, Hwrite, length_insert|].
    intros j x Hj. destruct (Hlook j x Hj) as [(i' & Hi' & Hpos & Hx)|[Hnone Hold]].
    + left. exists i'. split; [apply elem_of_cons; by right|done].
    + rewrite Hwrite in Hold.
      destruct (decide (Z.to_nat (split_slot dir_index d i) = j)) as [Heq|Hne].
      * left. exists i. split; [apply elem_of_cons; by left|]. split; [done|].
        rewrite Heq in Hold. rewrite list_lookup_insert_eq in Hold; [congruence|].
        apply lookup_lt_Some in Hold. by rewrite length_insert in Hold.
      * right. rewrite list_lookup_insert_ne in Hold by done. split; [|done].
        intros i0 Hi0. apply elem_of_cons in Hi0 as [->|Hi0]; [done|by apply Hnone].
Qed.

(** The slots the loop visits are the slots that agree with [dir_index]
    in the low [d] bits. *)
Lemma split_slot_range (dir_index d g i : Z) :
  0 <= d → d <= g → 0 <= i → i < 2 ^ (g - d) →
  0 <= split_slot dir_index d i < 2 ^ g ∧
  same_low_bits d (split_slot dir_index d i) dir_index.
Proof.
  intros Hd Hg Hi Hlt. rewrite split_slot_eq by done.
  assert (0 < 2 ^ d) by (apply Z.pow_pos_nonneg; lia).
  pose proof (Z.mod_pos_bound dir_index (2 ^ d) ltac:(lia)).
  assert (Hpow : 2 ^ g = 2 ^ (g - d) * 2 ^ d).
  { rewrite <- Z.pow_add_r by lia. f_equal. lia. }
  split; [nia|]. unfold same_low_bits.
  by rewrite Z.add_comm, Z.mod_add, Z.mod_mod by lia.
Qed.

Lemma split_slot_visits (dir_index d g j : Z) :
  0 <= d → d <= g → 0 <= j → j < 2 ^ g → same_low_bits d j dir_index →
  ∃ i, 0 <= i ∧ i < 2 ^ (g - d) ∧ split_slot dir_index d i = j.
Proof.
  intros Hd Hg Hj Hlt Hsame.
  assert (0 < 2 ^ d) by (apply Z.pow_pos_nonneg; lia).
  exists (j / 2 ^ d). split; [apply Z.div_pos; lia|]. split.
  - apply Z.div_lt_upper_bound; [lia|]. rewrite <- Z.pow_add_r by lia.
    by replace (d + (g - d)) with g by lia.
  - rewrite split_slot_eq by (done || apply Z.div_pos; lia).
    unfold same_low_bits in Hsame. rewrite <- Hsame.
    rewrite (Z.div_mod j (2 ^ d)) at 3 by lia. lia.
Qed.

(** ** [SplitBucket] *)

(** The side of the split an index or a hash is on: the side of the first
    item of the bucket, or the other. *)
Definition stay_side (d bit0 x : Z) : bool := Z.land x (Z.shiftl 1 d) =? bit0.

Lemma SplitBucket_unfold (h : t K V) (bucket : nat) (dir_index : Z) (b : Bucket K V)
    (first : K * V) (rest : list (K * V)) :
  buckets_ h !! bucket = Some b →
  list_ b = first :: rest →
  NoDup (list_ b).*1 →
  (length (list_ b) <= bucket_size_ h)%nat →
  let d := depth_ b in
  let bit0 := Z.land (hash first.1) (Z.shiftl 1 d) in
  SplitBucket hash bucket dir_index h =
  Ok (mk (global_depth_ h) (bucket_size_ h) (num_buckets_ h)
         (foldl (write_slot dir_index d bit0 bucket (length (buckets_ h)))
                (dir_ h) (seqZ 0 (Z.shiftl 1 (global_depth_ h - d))))
         (<[bucket := mkBucket (size_ b) (d + 1)
                        (filter (λ e, stay_side d bit0 (hash e.1) = true) (list_ b))]>
            (buckets_ h)
          ++ [mkBucket (bucket_size_ h) (d + 1)
                (filter (λ e, stay_side d bit0 (hash e.1) = false) (list_ b))])).
Proof.
  intros Hb Hlist Hnd Hlen d bit0.
  assert (Hfirst : GetFirstItem b = Ok first.1).
  { unfold GetFirstItem. by rewrite Hlist. }
  unfold SplitBucket. rewrite Hb. unfold mbind, result_mbind. cbn [result_bind deref].
  rewrite Hfirst. cbn [result_bind]. unfold GetDepth, GetItems, GetGlobalDepthInternal.
  pose proof (move_all_filter (λ k, Z.land (hash k) (Z.shiftl 1 (depth_ b))
                                    =? Z.land (hash first.1) (Z.shiftl 1 (depth_ b)))
                (list_ b) (mkBucket (bucket_size_ h) (depth_ b + 1) []) []) as Hmoved.
  cbv beta in Hmoved. rewrite Hmoved; clear Hmoved; simpl.
  - rewrite (remove_all_filter _ b Hnd). simpl. unfold IncrementDepth. simpl.
    do 5 f_equal. apply filter_ext_elem. intros e He. unfold stay_side. split.
    + intros Hnot. destruct (_ =? _) eqn:Hside; [done|]. exfalso. apply Hnot.
      apply (list_elem_of_fmap_2 fst). apply list_elem_of_filter. by split.
    + intros Hside Hin. apply list_elem_of_fmap in Hin as (e' & He' & Hin).
      apply list_elem_of_filter in Hin as [Hmoved _]. rewrite <- He' in Hmoved.
      fold d bit0 in Hmoved. congruence.
  - done.
  - pose proof (length_filter (λ e : K * V, (Z.land (hash e.1) (Z.shiftl 1 (depth_ b))
                                  =? Z.land (hash first.1) (Z.shiftl 1 (depth_ b))) = false)
                  (list_ b)). lia.
Qed.

Lemma stay_side_eq (d z x y : Z) :
  0 <= d →
  stay_side d (Z.land z (Z.shiftl 1 d)) x = stay_side d (Z.land z (Z.shiftl 1 d)) y ↔
  Z.land x (Z.shiftl 1 d) = Z.land y (Z.shiftl 1 d).
Proof.
  intros Hd. unfold stay_side. rewrite !bit_mask by done.
  assert (0 < 2 ^ d) by (apply Z.pow_pos_nonneg; lia).
  pose proof (Z.mod_pos_bound (x / 2 ^ d) 2 ltac:(lia)).
  pose proof (Z.mod_pos_bound (y / 2 ^ d) 2 ltac:(lia)).
  pose proof (Z.mod_pos_bound (z / 2 ^ d) 2 ltac:(lia)).
  assert (Hx : (x / 2 ^ d) mod 2 = 0 ∨ (x / 2 ^ d) mod 2 = 1) by lia.
  assert (Hy : (y / 2 ^ d) mod 2 = 0 ∨ (y / 2 ^ d) mod 2 = 1) by lia.
  assert (Hz : (z / 2 ^ d) mod 2 = 0 ∨ (z / 2 ^ d) mod 2 = 1) by lia.
  destruct Hx as [->| ->], Hy as [->| ->], Hz as [->| ->];
    repeat match goal with |- context [?a =? ?b] => destruct (Z.eqb_spec a b) end;
    split; intros; try done; lia.
Qed.

Lemma dir_at_lookup (h : t K V) (i x : nat) :
  dir_ h !! i = Some x → dir_at h (Z.of_nat i) = Ok x.
Proof.
  intros Hi. unfold dir_at. destruct (Z.ltb_spec (Z.of_nat i) 0); [lia|].
  by rewrite Nat2Z.id, Hi.
Qed.

Lemma SplitBucket_spec (h h2 : t K V) (i0 bucket : nat) (b : Bucket K V) :
  well_formed h →
  dir_ h !! i0 = Some bucket →
  buckets_ h !! bucket = Some b →
  depth_ b < global_depth_ h →
  SplitBucket hash bucket (Z.of_nat i0) h = Ok h2 →
  well_formed h2 ∧
  global_depth_ h2 = global_depth_ h ∧ bucket_size_ h2 = bucket_size_ h ∧
  num_buckets_ h2 = num_buckets_ h ∧
  (∀ key, Find hash key h2 = Find hash key h) ∧
  (∀ j, dir_ h !! j = Some bucket →
        ∃ x b2, dir_ h2 !! j = Some x ∧ buckets_ h2 !! x = Some b2 ∧
                (IsFull b2 = false ∨ (depth_ b2 = depth_ b + 1 ∧ list_ b2 = list_ b))).
Proof.
  intros Hwf Hi0 Hb Hlt Hsplit. pose proof Hwf as [Hdepth Hdir Hbucket].
  destruct (Hbucket _ _ Hi0) as (b0 & Hb0 & Hok).
  assert (b0 = b) as -> by congruence. clear Hb0.
  destruct Hok as [Hrange Hcap Hfit Hnodup Hhere Hslots].
  destruct (list_ b) as [|first rest] eqn:Hlist.
  { unfold SplitBucket in Hsplit. rewrite Hb in Hsplit. simpl in Hsplit.
    unfold GetFirstItem in Hsplit. by rewrite Hlist in Hsplit. }
  rewrite <- Hlist in *.
  rewrite (SplitBucket_unfold h bucket _ b first rest Hb Hlist Hnodup) in Hsplit by lia.
  rewrite Hcap in Hsplit. injection Hsplit as <-. simpl.
  set (d := depth_ b) in *.
  set (bit0 := Z.land (hash first.1) (Z.shiftl 1 d)).
  set (new := length (buckets_ h)).
  set (part := λ side : bool,
         mkBucket (bucket_size_ h) (d + 1)
           (filter (λ e : K * V, stay_side d bit0 (hash e.1) = side) (list_ b))).
  set (target := λ side : bool, if side then bucket else new).
  destruct (split_dir (Z.of_nat i0) d bit0 bucket new
              (seqZ 0 (Z.shiftl 1 (global_depth_ h - d))) (dir_ h)) as [Hlen' Hlook].
  set (dir' := foldl _ (dir_ h) _) in *. rewrite Z.shiftl_1_l in Hlook.
  assert (Hpow : 0 < 2 ^ d) by (apply Z.pow_pos_nonneg; lia).
  assert (Hfresh : ∀ j x, dir_ h !! j = Some x → (x < new)%nat).
  { intros j x Hj. destruct (Hbucket _ _ Hj) as (bx & Hbx & _). by eapply lookup_lt_Some. }
  assert (Hbucket_lt : (bucket < new)%nat) by (by eapply Hfresh).
  (* the directory after the split *)
  assert (HdirA : ∀ j, (j < length (dir_ h))%nat → same_low_bits d (Z.of_nat j) (Z.of_nat i0) →
                       dir' !! j = Some (target (stay_side d bit0 (Z.of_nat j)))).
  { intros j Hj Hsame.
    destruct (lookup_lt_is_Some_2 dir' j) as [x Hx]; [by rewrite Hlen'|].
    rewrite Hx. f_equal.
    destruct (Hlook j x Hx) as [(i & Hi & Hpos & ->)|[Hnone _]].
    - apply elem_of_seqZ in Hi.
      destruct (split_slot_range (Z.of_nat i0) d (global_depth_ h) i) as [Hidx _]; try lia.
      replace (split_slot (Z.of_nat i0) d i) with (Z.of_nat j) by lia.
      unfold target, stay_side. by rewrite Z.shiftl_1_l.
    - exfalso.
      destruct (split_slot_visits (Z.of_nat i0) d (global_depth_ h) (Z.of_nat j))
        as (i & Hi1 & Hi2 & Hidx); try lia; [done|].
      apply (Hnone i); [apply elem_of_seqZ; lia|]. rewrite Hidx. lia. }
  assert (HdirB : ∀ j, ¬ same_low_bits d (Z.of_nat j) (Z.of_nat i0) → dir' !! j = dir_ h !! j).
  { intros j Hdiff. destruct (dir' !! j) as [x|] eqn:Hx.
    - destruct (Hlook j x Hx) as [(i & Hi & Hpos & _)|[_ Hold]]; [|done].
      exfalso. apply Hdiff. apply elem_of_seqZ in Hi.
      destruct (split_slot_range (Z.of_nat i0) d (global_depth_ h) i) as [Hidx Hsame]; try lia.
      by replace (Z.of_nat j) with (split_slot (Z.of_nat i0) d i) by lia.
    - symmetry. apply lookup_ge_None. apply lookup_ge_None in Hx. lia. }
  (* the buckets after the split *)
  set (buckets' := <[bucket := part true]> (buckets_ h) ++ [part false]).
  assert (Hpart : ∀ side, buckets' !! target side = Some (part side)).
  { intros [|]; unfold buckets', target.
    - rewrite lookup_app_l by (by rewrite length_insert).
      by apply list_lookup_insert_eq.
    - rewrite lookup_app_r by (rewrite length_insert; unfold new; lia).
      rewrite length_insert. by replace (new - length (buckets_ h))%nat with 0%nat by (unfold new; lia). }
  assert (Hother : ∀ x bx, x ≠ bucket → buckets_ h !! x = Some bx → buckets' !! x = Some bx).
  { intros x bx Hne Hx. unfold buckets'. apply lookup_app_l_Some.
    by rewrite list_lookup_insert_ne. }
  assert (Htarget : ∀ side side', target side = target side' → side = side').
  { intros [|] [|]; unfold target; try done; lia. }
  assert (Hside : ∀ x y, same_low_bits (d + 1) x y ↔
                         same_low_bits d x y ∧ stay_side d bit0 x = stay_side d bit0 y).
  { intros x y. rewrite same_low_bits_succ by lia. unfold bit0.
    by rewrite stay_side_eq by lia. }
  assert (Hpart_nodup : ∀ side, NoDup (list_ (part side)).*1).
  { intros side. simpl. by apply NoDup_keys_filter. }
  assert (Hpart_ok : ∀ side j, (j < length (dir_ h))%nat →
            same_low_bits d (Z.of_nat j) (Z.of_nat i0) →
            stay_side d bit0 (Z.of_nat j) = side →
            bucket_ok (mk (global_depth_ h) (bucket_size_ h) (num_buckets_ h) dir' buckets')
                      j (target side) (part side)).
  { intros side j Hj Hsame Hstay. split; simpl.
    - lia.
    - done.
    - pose proof (length_filter (λ e : K * V, stay_side d bit0 (hash e.1) = side) (list_ b)). lia.
    - by apply NoDup_keys_filter.
    - intros e He. apply list_elem_of_filter in He as [Hes He].
      apply Hside. split; [|congruence].
      unfold same_low_bits in *. by rewrite (Hhere e He).
    - intros j' Hj'. rewrite Hlen' in Hj'. rewrite Hside.
      destruct (decide (same_low_bits d (Z.of_nat j') (Z.of_nat i0))) as [Hsame'|Hdiff].
      + rewrite HdirA by done. split.
        * intros [= Heq]. apply Htarget in Heq.
          split; [unfold same_low_bits in *; congruence|congruence].
        * intros [_ Heq]. f_equal. f_equal. congruence.
      + rewrite HdirB by done. split.
        * intros Hold. exfalso. apply Hdiff.
          destruct side; unfold target in Hold.
          -- by apply Hslots.
          -- apply Hfresh in Hold. lia.
        * intros [Hsame' _]. exfalso. apply Hdiff. unfold same_low_bits in *. congruence. }
  split; [|split; [done|split; [done|split; [done|split]]]].
  - (* the invariant *)
    split; simpl; [done|by rewrite Hlen'|].
    intros j x Hj.
    assert (Hjlt : (j < length (dir_ h))%nat).
    { rewrite <- Hlen'. by eapply lookup_lt_Some. }
    destruct (decide (same_low_bits d (Z.of_nat j) (Z.of_nat i0))) as [Hsame|Hdiff].
    + rewrite HdirA in Hj by done. injection Hj as <-.
      exists (part (stay_side d bit0 (Z.of_nat j))). split; [apply Hpart|by apply Hpart_ok].
    + rewrite HdirB in Hj by done.
      destruct (Hbucket _ _ Hj) as (bx & Hbx & [Hrx Hcx Hfx Hnx Hhx Hsx]).
      assert (Hne : x ≠ bucket).
      { intros ->. apply Hdiff. by apply Hslots. }
      exists bx. split; [by apply Hother|]. split; simpl; try done.
      intros j' Hj'. rewrite Hlen' in Hj'. rewrite <- Hsx by done.
      destruct (decide (same_low_bits d (Z.of_nat j') (Z.of_nat i0))) as [Hsame'|Hdiff'].
      * rewrite HdirA by done. apply Hslots in Hsame'; [|done]. rewrite Hsame'.
        apply Hfresh in Hj.
        split; intros [= Heq]; [|done].
        destruct (stay_side d bit0 (Z.of_nat j')); unfold target in Heq; [done|lia].
      * by rewrite HdirB.
  - (* Find *)
    intros key. destruct (key_slot key h Hwf) as (i & bk & bb & Hidx & Hmod & Hslot & Hat & Hbb & Hokb).
    rewrite (Find_unfold hash key h bk bb Hat Hbb).
    assert (Hilt : (i < length (dir_ h))%nat) by (by eapply lookup_lt_Some).
    destruct (decide (same_low_bits d (Z.of_nat i) (Z.of_nat i0))) as [Hsame|Hdiff].
    + assert (bk = bucket) as ->.
      { apply Hslots in Hsame; [|done]. congruence. }
      assert (bb = b) as -> by congruence.
      assert (Hkey : stay_side d bit0 (Z.of_nat i) = stay_side d bit0 (hash key)).
      { apply Hside. rewrite Hmod. apply same_low_bits_mod; lia. }
      rewrite (Find_unfold hash key _ (target (stay_side d bit0 (Z.of_nat i)))
                 (part (stay_side d bit0 (Z.of_nat i)))).
      * f_equal. unfold BucketFind. simpl. symmetry.
        apply list_find_key_ext; [done|by apply NoDup_keys_filter|].
        intros value. rewrite list_elem_of_filter. simpl. split; [by split|by intros [_ ?]].
      * replace (IndexOf hash key _) with (Z.of_nat i) by (by rewrite <- Hidx).
        apply dir_at_lookup. simpl. by apply HdirA.
      * apply Hpart.
    + assert (Hne : bk ≠ bucket).
      { intros ->. apply Hdiff. by apply Hslots. }
      rewrite (Find_unfold hash key _ bk bb); [done| |by apply Hother].
      replace (IndexOf hash key _) with (Z.of_nat i) by (by rewrite <- Hidx).
      apply dir_at_lookup. simpl. by rewrite HdirB.
  - (* the bucket of a slot of the split bucket *)
    intros j Hj.
    assert (Hjlt : (j < length (dir_ h))%nat) by (by eapply lookup_lt_Some).
    assert (Hsame : same_low_bits d (Z.of_nat j) (Z.of_nat i0)) by (by apply Hslots).
    exists (target (stay_side d bit0 (Z.of_nat j))), (part (stay_side d bit0 (Z.of_nat j))).
    split; [by apply HdirA|]. split; [apply Hpart|].
    unfold IsFull. simpl.
    destruct (Nat.eqb_spec
                (length (filter (λ e : K * V, stay_side d bit0 (hash e.1)
                                              = stay_side d bit0 (Z.of_nat j)) (list_ b)))
                (bucket_size_ h)) as [Hfull|]; [right|by left].
    split; [done|]. revert Hfull.
    destruct (stay_side d bit0 (Z.of_nat j)); intros Hfull.
    + apply filter_all.
      pose proof (length_filter (λ e : K * V, stay_side d bit0 (hash e.1) = true) (list_ b)).
      lia.
    + exfalso.
      assert (Hin : first ∈ list_ b) by (rewrite Hlist; apply elem_of_cons; by left).
      pose proof (length_filter_lt (λ e : K * V, stay_side d bit0 (hash e.1) = false)
                    (list_ b) first Hin) as Hshort.
      assert (stay_side d bit0 (hash first.1) = true) by apply Z.eqb_refl.
      assert ((length (filter (λ e : K * V, stay_side d bit0 (hash e.1) = false) (list_ b))
               < length (list_ b))%nat) by (apply Hshort; congruence).
      lia.
Qed.

Lemma SplitBucket_returns (h : t K V) (bucket : nat) (dir_index : Z) (b : Bucket K V) :
  buckets_ h !! bucket = Some b → list_ b ≠ [] →
  ∃ h2, SplitBucket hash bucket dir_index h = Ok h2.
Proof.
  intros Hb Hlist. unfold SplitBucket. rewrite Hb. simpl.
  unfold GetFirstItem. destruct (list_ b); [done|]. simpl. by eexists.
Qed.

(** ** One call of [InsertInternal] *)

Lemma list_assign_key_keys (key : K) (value : V) (l l' : list (K * V)) :
  list_assign_key key value l = Some l' →
  l'.*1 = l.*1 ∧ ∀ e, e ∈ l' → e ∈ l ∨ e.1 = key.
Proof.
  revert l'. induction l as [|entry l IH]; simpl; intros l'; [done|].
  destruct (decide (entry.1 = key)) as [Heq|Hne].
  - intros [= <-]. simpl. split; [done|].
    intros e He. apply elem_of_cons in He as [->|He]; [by right|].
    left. apply elem_of_cons. by right.
  - destruct (list_assign_key key value l) as [l0|]; [|done]. simpl. intros [= <-].
    destruct (IH l0 eq_refl) as [Hkeys Helem]. split; [rewrite !fmap_cons; by rewrite Hkeys|].
    intros e He. apply elem_of_cons in He as [->|He]; [left; apply elem_of_cons; by left|].
    destruct (Helem e He) as [Hin|Hkey]; [left; apply elem_of_cons; by right|by right].
Qed.

Lemma list_assign_key_absent (key : K) (value : V) (l : list (K * V)) :
  list_assign_key key value l = None → key ∉ l.*1.
Proof.
  induction l as [|entry l IH]; simpl; [intros _; apply not_elem_of_nil|].
  destruct (decide (entry.1 = key)) as [Heq|Hne]; [done|].
  destruct (list_assign_key key value l); [done|]. intros _.
  apply not_elem_of_cons. split; [congruence|by apply IH].
Qed.

Lemma BucketInsert_bucket (key : K) (value : V) (b : Bucket K V) :
  NoDup (list_ b).*1 → (length (list_ b) <= size_ b)%nat →
  depth_ (BucketInsert key value b).2 = depth_ b ∧
  size_ (BucketInsert key value b).2 = size_ b ∧
  (length (list_ (BucketInsert key value b).2) <= size_ b)%nat ∧
  NoDup (list_ (BucketInsert key value b).2).*1 ∧
  ∀ e, e ∈ list_ (BucketInsert key value b).2 → e ∈ list_ b ∨ e.1 = key.
Proof.
  intros Hnd Hfit. unfold BucketInsert, IsFull.
  destruct (Nat.eqb_spec (length (list_ b)) (size_ b)) as [Hfull|Hroom]; simpl.
  { repeat split; try done. intros e He. by left. }
  destruct (list_assign_key key value (list_ b)) as [l'|] eqn:Hassign; simpl.
  - destruct (list_assign_key_keys _ _ _ _ Hassign) as [Hkeys Helem].
    repeat split; try done; [|by rewrite Hkeys].
    rewrite <- (length_fmap fst), Hkeys, length_fmap. done.
  - apply list_assign_key_absent in Hassign.
    repeat split; try done.
    + rewrite length_app. simpl. lia.
    + rewrite fmap_app. apply NoDup_app. split; [done|]. split; [|apply NoDup_singleton].
      intros x Hx Hin. apply list_elem_of_singleton in Hin. simpl in Hin. by subst.
    + intros e He. apply elem_of_app in He as [He|He]; [by left|].
      apply list_elem_of_singleton in He. right. by subst.
Qed.

Lemma BucketRemove_bucket (key : K) (b : Bucket K V) :
  NoDup (list_ b).*1 → (length (list_ b) <= size_ b)%nat →
  depth_ (BucketRemove key b).2 = depth_ b ∧
  size_ (BucketRemove key b).2 = size_ b ∧
  (length (list_ (BucketRemove key b).2) <= size_ b)%nat ∧
  NoDup (list_ (BucketRemove key b).2).*1 ∧
  ∀ e, e ∈ list_ (BucketRemove key b).2 → e ∈ list_ b.
Proof.
  intros Hnd Hfit. unfold BucketRemove. simpl. rewrite list_erase_key_filter by done.
  pose proof (length_filter (λ e : K * V, e.1 ≠ key) (list_ b)).
  repeat split; try done; [lia|by apply NoDup_keys_filter|].
  intros e He. by apply list_elem_of_filter in He as [_ ?].
Qed.

(** The directory before [SplitBucket]: doubled if the bucket is at the
    global depth. *)
Lemma grow_spec (key : K) (h : t K V) (i bucket : nat) (b : Bucket K V) :
  well_formed h →
  Z.of_nat i = hash key mod 2 ^ global_depth_ h →
  dir_ h !! i = Some bucket →
  buckets_ h !! bucket = Some b →
  0 <= depth_ b <= global_depth_ h →
  let h1 := if depth_ b =? global_depth_ h then doubled h else h in
  well_formed h1 ∧ dir_ h1 !! i = Some bucket ∧ buckets_ h1 = buckets_ h ∧
  depth_ b < global_depth_ h1 ∧ bucket_size_ h1 = bucket_size_ h ∧
  num_buckets_ h1 = num_buckets_ h ∧
  (∀ key', Find hash key' h1 = Find hash key' h) ∧
  dir_ h1 !! Z.to_nat (hash key mod 2 ^ global_depth_ h1) = Some bucket.
Proof.
  intros Hwf Hi Hslot Hb Hrange h1. pose proof Hwf as [Hdepth Hdir _].
  subst h1. destruct (Z.eqb_spec (depth_ b) (global_depth_ h)) as [Heq|Hne].
  - split; [by apply doubled_well_formed|]. simpl.
    split; [by apply lookup_app_l_Some|]. split; [done|]. split; [lia|].
    split; [done|]. split; [done|]. split; [intros key'; by apply doubled_Find|].
    assert (0 < 2 ^ global_depth_ h) by (apply Z.pow_pos_nonneg; lia).
    assert (0 < 2 ^ (global_depth_ h + 1)) by (apply Z.pow_pos_nonneg; lia).
    pose proof (Z.mod_pos_bound (hash key) (2 ^ (global_depth_ h + 1)) ltac:(lia)).
    rewrite doubled_lookup; [|done|].
    + rewrite Z2Nat.id by lia.
      rewrite (same_low_bits_mod (global_depth_ h) (global_depth_ h + 1) (hash key)) by lia.
      by rewrite <- Hi, Nat2Z.id.
    + rewrite Z.pow_add_r in * by lia. lia.
  - split; [done|]. split; [done|]. split; [done|]. split; [lia|].
    split; [done|]. split; [done|]. split; [done|]. by rewrite <- Hi, Nat2Z.id.
Qed.

(** [InsertInternal] keeps the invariant, whatever it does. *)
Lemma InsertInternal_well_formed (key : K) (value : V) (fuel : nat) :
  ∀ h h', well_formed h → InsertInternal hash fuel key value h = Ok h' →
          well_formed h' ∧ bucket_size_ h' = bucket_size_ h ∧ num_buckets_ h' = num_buckets_ h.
Proof.
  induction fuel as [|fuel IH]; intros h h' Hwf; simpl; [done|].
  destruct (key_slot key h Hwf) as (i & bucket & b & Hidx & Hmod & Hslot & Hat & Hb & Hok).
  rewrite Hat. simpl. rewrite Hb. simpl.
  pose proof Hok as [Hrange Hcap Hfit Hnodup Hhere Hslots].
  assert (Hupdate : well_formed (mk (global_depth_ h) (bucket_size_ h) (num_buckets_ h) (dir_ h)
                                    (<[bucket := (BucketInsert key value b).2]> (buckets_ h)))).
  { destruct (BucketInsert_bucket key value b Hnodup Hfit) as (Hd & Hs & Hl & Hn & He).
    apply (update_bucket_well_formed h i bucket b); try done; [by rewrite Hs|].
    intros e Hin. destruct (He e Hin) as [? | ->]; [by left|right].
    unfold same_low_bits. rewrite Hmod. symmetry. apply same_low_bits_mod; lia. }
  destruct (IsFull b) eqn:Hfull; simpl; [|by intros [= <-]].
  destruct (bool_decide (is_Some (BucketFind key b))); [by intros [= <-]|].
  rewrite Hidx.
  destruct (grow_spec key h i bucket b Hwf Hmod Hslot Hb Hrange)
    as (Hwf1 & Hslot1 & Hb1 & Hlt1 & Hsize1 & Hnum1 & _).
  unfold GetDepth, GetGlobalDepthInternal. fold (doubled h).
  set (h1 := if depth_ b =? global_depth_ h then doubled h else h) in *.
  destruct (SplitBucket hash bucket (Z.of_nat i) h1) as [h2| | |] eqn:Hsplit; try done. simpl.
  rewrite <- Hb1 in Hb.
  destruct (SplitBucket_spec h1 h2 i bucket b Hwf1 Hslot1 Hb Hlt1 Hsplit)
    as (Hwf2 & _ & Hsize2 & Hnum2 & _).
  intros Hrec. destruct (IH h2 h' Hwf2 Hrec) as (Hwf' & Hsize' & Hnum').
  split; [done|]. split; congruence.
Qed.

(** [InsertInternal] of a key that is not in the table returns, after as
    many splits as it takes to separate the key from an entry of its
    bucket whose hash differs from the key's in the low [n] bits. *)
Lemma InsertInternal_new_key (n : Z) (key : K) (value : V) (fuel : nat) :
  0 <= n →
  ∀ h, well_formed h → (0 < bucket_size_ h)%nat →
       Find hash key h = Ok None →
       (1 <= fuel)%nat →
       (∀ i bucket b,
          IndexOf hash key h = Z.of_nat i → dir_ h !! i = Some bucket →
          buckets_ h !! bucket = Some b → IsFull b = true →
          n - depth_ b < Z.of_nat fuel ∧
          ∃ e, e ∈ list_ b ∧ ¬ same_low_bits n (hash e.1) (hash key)) →
       ∃ h', InsertInternal hash fuel key value h = Ok h' ∧
             Find hash key h' = Ok (Some value) ∧
             ∀ key', key' ≠ key → Find hash key' h' = Find hash key' h.
Proof.
  intros Hn. induction fuel as [|fuel IH]; intros h Hwf Hsize Hfind Hfuel Hsep; [lia|].
  destruct (key_slot key h Hwf) as (i & bucket & b & Hidx & Hmod & Hslot & Hat & Hb & Hok).
  pose proof Hok as [Hrange Hcap Hfit Hnodup Hhere Hslots].
  rewrite (Find_unfold hash key h bucket b Hat Hb) in Hfind. injection Hfind as Hfind.
  simpl. rewrite Hat. simpl. rewrite Hb. simpl.
  destruct (IsFull b) eqn:Hfull; simpl.
  - (* the bucket is full: split and try again *)
    rewrite Hfind. simpl.
    rewrite Hidx.
    destruct (grow_spec key h i bucket b Hwf Hmod Hslot Hb Hrange)
      as (Hwf1 & Hslot1 & Hb1 & Hlt1 & Hsize1 & Hnum1 & Hfind1 & Hkey1).
    unfold GetDepth, GetGlobalDepthInternal. fold (doubled h).
    set (h1 := if depth_ b =? global_depth_ h then doubled h else h) in *.
    assert (Hnonempty : list_ b ≠ []).
    { unfold IsFull in Hfull. apply Nat.eqb_eq in Hfull.
      intros Hnil. rewrite Hnil in Hfull. simpl in Hfull. lia. }
    rewrite <- Hb1 in Hb.
    destruct (SplitBucket_returns h1 bucket (Z.of_nat i) b Hb Hnonempty) as [h2 Hsplit].
    rewrite Hsplit. simpl.
    destruct (SplitBucket_spec h1 h2 i bucket b Hwf1 Hslot1 Hb Hlt1 Hsplit)
      as (Hwf2 & Hdepth2 & Hsize2 & _ & Hfind2 & Hnext).
    destruct (Hsep i bucket b Hidx Hslot ltac:(by rewrite <- Hb1) Hfull)
      as (Hbound & e & He & Hdiff).
    assert (Hdeep : depth_ b < n).
    { destruct (Z.lt_ge_cases (depth_ b) n) as [|Hle]; [done|]. exfalso. apply Hdiff.
      apply (same_low_bits_le n (depth_ b)); [done|lia|].
      unfold same_low_bits in *. rewrite (Hhere e He), Hmod.
      apply same_low_bits_mod; lia. }
    destruct (IH h2) as (h' & Hins & Hnew & Hother).
    + done.
    + by rewrite Hsize2, Hsize1.
    + by rewrite Hfind2, Hfind1, (Find_unfold hash key h bucket b Hat ltac:(by rewrite <- Hb1)), Hfind.
    + lia.
    + intros i2 bucket2 b2 Hidx2 Hslot2 Hb2 Hfull2.
      assert (Hi2 : i2 = Z.to_nat (hash key mod 2 ^ global_depth_ h1)).
      { unfold IndexOf in Hidx2. rewrite Hdepth2 in Hidx2.
        rewrite mask_mod in Hidx2 by (destruct Hwf1; lia). lia. }
      destruct (Hnext _ Hkey1) as (x & bx & Hx & Hbx & Hcase).
      rewrite <- Hi2 in Hx.
      assert (x = bucket2) as -> by congruence.
      assert (bx = b2) as -> by congruence.
      destruct Hcase as [Hroom|[Hd2 Hl2]]; [congruence|].
      rewrite Hd2, Hl2. split; [lia|]. by exists e.
    + exists h'. split; [done|]. split; [done|].
      intros key' Hne. by rewrite (Hother key' Hne), Hfind2, Hfind1.
  - (* the bucket has room *)
    eexists. split; [reflexivity|].
    destruct (BucketInsert_room key value b Hfull) as [Hnew Hother]. split.
    + rewrite (Find_unfold hash key _ bucket (BucketInsert key value b).2);
        [by rewrite Hnew|done|].
      simpl. apply list_lookup_insert_eq. by eapply lookup_lt_Some.
    + intros key' Hne. apply (Find_update_bucket hash key' h bucket b); [done|].
      by apply Hother.
Qed.

(** ** Tables reached from a new one *)

Inductive op : Type :=
  | OpInsert (key : K) (value : V)
  | OpRemove (key : K).

Definition step (fuel : nat) (o : op) (h : t K V) : result (t K V) :=
  match o with
  | OpInsert key value => Insert hash fuel key value h
  | OpRemove key => r ← Remove hash key h; Ok r.2
  end.

Fixpoint run (fuel : nat) (ops : list op) (h : t K V) : result (t K V) :=
  match ops with
  | [] => Ok h
  | o :: ops' => h' ← step fuel o h; run fuel ops' h'
  end.

Lemma Remove_well_formed (key : K) (h : t K V) :
  well_formed h →
  ∃ found h', Find hash key h = Ok found ∧
              Remove hash key h = Ok (bool_decide (is_Some found), h') ∧
              well_formed h' ∧
              bucket_size_ h' = bucket_size_ h ∧ num_buckets_ h' = num_buckets_ h ∧
              Find hash key h' = Ok None ∧
              ∀ key', key' ≠ key → Find hash key' h' = Find hash key' h.
Proof.
  intros Hwf.
  destruct (key_slot key h Hwf) as (i & bucket & b & Hidx & Hmod & Hslot & Hat & Hb & Hok).
  pose proof Hok as [Hrange Hcap Hfit Hnodup Hhere Hslots].
  destruct (list_erase_key_spec key (list_ b)) as (Hres & _ & Hother & Hgone).
  exists (BucketFind key b). eexists.
  split; [by apply (Find_unfold hash key h bucket b)|].
  split; [unfold Remove; rewrite Hat; simpl; rewrite Hb; simpl;
          unfold BucketFind; by rewrite <- Hres|].
  split; [|split; [done|split; [done|split]]].
  - destruct (BucketRemove_bucket key b Hnodup Hfit) as (Hd & Hs & Hl & Hn & He).
    apply (update_bucket_well_formed h i bucket b); try done.
    intros e Hin. left. by apply He.
  - rewrite (Find_unfold hash key _ bucket (BucketRemove key b).2).
    + unfold BucketFind, BucketRemove. simpl. f_equal. by apply Hgone.
    + done.
    + simpl. apply list_lookup_insert_eq. by eapply lookup_lt_Some.
  - intros key' Hne. apply (Find_update_bucket hash key' h bucket b); [done|].
    unfold BucketFind. simpl. by apply Hother.
Qed.

Lemma step_well_formed (fuel : nat) (o : op) (h h' : t K V) :
  well_formed h → step fuel o h = Ok h' →
  well_formed h' ∧ bucket_size_ h' = bucket_size_ h ∧ num_buckets_ h' = num_buckets_ h.
Proof.
  intros Hwf. destruct o as [key value|key]; simpl.
  - by apply InsertInternal_well_formed.
  - destruct (Remove_well_formed key h Hwf) as (found & h0 & _ & -> & Hwf0 & Hs & Hn & _).
    simpl. by intros [= <-].
Qed.

Lemma run_well_formed (fuel : nat) (ops : list op) (h h' : t K V) :
  well_formed h → run fuel ops h = Ok h' →
  well_formed h' ∧ bucket_size_ h' = bucket_size_ h ∧ num_buckets_ h' = num_buckets_ h.
Proof.
  revert h. induction ops as [|o ops IH]; intros h Hwf; simpl.
  - by intros [= <-].
  - destruct (step fuel o h) as [h1| | |] eqn:Hstep; try done. simpl.
    destruct (step_well_formed _ _ _ _ Hwf Hstep) as (Hwf1 & Hs1 & Hn1).
    intros Hrun. destruct (IH h1 Hwf1 Hrun) as (Hwf' & Hs' & Hn').
    split; [done|]. split; congruence.
Qed.

Lemma SplitBucket_buckets_length (h h2 : t K V) (bucket : nat) (dir_index : Z) :
  SplitBucket hash bucket dir_index h = Ok h2 →
  num_buckets_ h2 = num_buckets_ h ∧ length (buckets_ h2) = S (length (buckets_ h)).
Proof.
  unfold SplitBucket. destruct (buckets_ h !! bucket) as [b|]; [|done]. simpl.
  destruct (GetFirstItem b) as [first| | |]; try done. simpl. intros [= <-]. simpl.
  split; [done|]. rewrite length_app, length_insert. simpl. lia.
Qed.

(** X27.  The directory invariant of the hash table.  In every table
    reached from a new one by [Insert] and [Remove]: the directory has
    [2^global_depth_] slots; every slot points to a bucket of the table's
    capacity whose local depth is between 0 and the global depth, that
    holds at most [bucket_size] entries and no key twice; the bucket of a
    slot is the bucket of exactly the slots that agree with it in the low
    local-depth bits; and every key in it has a hash that agrees with the
    slot in those bits.  So [Find] and [Remove] never leave the directory,
    and after [Remove] of a key [Find] does not find it, while every other
    key is found as before. *)
Theorem run_keeps_directory_invariant (fuel : nat) (ops : list op) (bucket_size : nat)
    (h : t K V) :
  run fuel ops (New bucket_size) = Ok h →
  well_formed h ∧ bucket_size_ h = bucket_size ∧
  ∀ key, ∃ found h',
    Find hash key h = Ok found ∧
    Remove hash key h = Ok (bool_decide (is_Some found), h') ∧
    well_formed h' ∧
    Find hash key h' = Ok None ∧
    ∀ key', key' ≠ key → Find hash key' h' = Find hash key' h.
Proof.
  intros Hrun.
  destruct (run_well_formed _ _ _ _ (New_well_formed bucket_size) Hrun) as (Hwf & Hsize & _).
  split; [done|]. split; [done|]. intros key.
  destruct (Remove_well_formed key h Hwf)
    as (found & h' & Hfind & Hremove & Hwf' & _ & _ & Hgone & Hother).
  by exists found, h'.
Qed.

(** X28.  [Insert] of a key that is not in a reachable table returns, and
    then [Find] of the key gives the value and [Find] of every other key
    gives what it gave before, however many times the bucket had to be
    split and the directory doubled.  The condition is that the bucket of
    the key, if it is full, holds some entry whose hash differs from the
    hash of the key in the low [n] bits: then fewer than [n] splits
    separate them, and [fuel] calls of [InsertInternal] are enough for any
    [fuel] above [n].  Shifts are over the integers, as in [IndexOf] and
    [SplitBucket]. *)
Theorem Insert_new_key (n : Z) (fuel fuel' : nat) (ops : list op) (bucket_size : nat)
    (key : K) (value : V) (h : t K V) :
  (0 < bucket_size)%nat →
  run fuel' ops (New bucket_size) = Ok h →
  Find hash key h = Ok None →
  0 <= n → n < Z.of_nat fuel →
  (∀ bucket b, dir_at h (IndexOf hash key h) = Ok bucket →
               buckets_ h !! bucket = Some b → IsFull b = true →
               ∃ e, e ∈ list_ b ∧ hash e.1 mod 2 ^ n ≠ hash key mod 2 ^ n) →
  ∃ h', Insert hash fuel key value h = Ok h' ∧
        Find hash key h' = Ok (Some value) ∧
        ∀ key', key' ≠ key → Find hash key' h' = Find hash key' h.
Proof.
  intros Hpos Hrun Hfind Hn Hfuel Hsep.
  destruct (run_well_formed _ _ _ _ (New_well_formed bucket_size) Hrun) as (Hwf & Hsize & _).
  unfold Insert. apply (InsertInternal_new_key n); try done; [simpl in *; lia|lia|].
  intros i bucket b Hidx Hslot Hb Hfull.
  destruct Hwf as [_ _ Hbucket]. destruct (Hbucket _ _ Hslot) as (b0 & Hb0 & [Hrange _ _ _ _ _]).
  assert (b0 = b) as -> by congruence.
  split; [lia|]. apply (Hsep bucket b); [|done|done].
  rewrite Hidx. by apply dir_at_lookup.
Qed.

(** X29.  No operation updates [num_buckets_]: in every table reached
    from a new one [GetNumBuckets] returns 2, and a [SplitBucket] on it
    makes one more bucket and leaves [GetNumBuckets] at 2. *)
Theorem num_buckets_is_never_updated (fuel : nat) (ops : list op) (bucket_size : nat)
    (h : t K V) :
  run fuel ops (New bucket_size) = Ok h →
  GetNumBucketsInternal h = 2 ∧
  ∀ bucket dir_index h2,
    SplitBucket hash bucket dir_index h = Ok h2 →
    GetNumBucketsInternal h2 = 2 ∧ length (buckets_ h2) = S (length (buckets_ h)).
Proof.
  intros Hrun.
  destruct (run_well_formed _ _ _ _ (New_well_formed bucket_size) Hrun) as (_ & _ & Hnum).
  simpl in Hnum. unfold GetNumBucketsInternal. split; [done|].
  intros bucket dir_index h2 Hsplit.
  destruct (SplitBucket_buckets_length h h2 bucket dir_index Hsplit) as [Hnum2 Hlen].
  split; [by rewrite Hnum2|done].
Qed.

End table.

(** The keys 4 and 12 in a table with [bucket_size = 2]: both in the
    bucket of slot 0, which is full. *)
Definition two_keys : list (op (K := Z) (V := Z)) := [OpInsert 4 40; OpInsert 12 120].

Lemma run_keeps_directory_invariant_witness :
  ∃ h h', run std_hash_int 5 two_keys (New 2) = Ok h ∧
          Find std_hash_int 12 h = Ok (Some 120) ∧
          Remove std_hash_int 12 h = Ok (true, h') ∧
          Find std_hash_int 12 h' = Ok None ∧
          Find std_hash_int 4 h' = Ok (Some 40).
Proof.
  eexists.
  match goal with |- ∃ h', run _ _ _ _ = Ok ?h ∧ _ =>
    destruct (run_keeps_directory_invariant std_hash_int 5 two_keys 2 h
                ltac:(vm_compute; reflexivity)) as (_ & _ & Hkey)
  end.
  destruct (Hkey 12) as (found & h' & Hfind & Hremove & _ & Hgone & Hother).
  vm_compute in Hfind. injection Hfind as <-.
  exists h'. split; [vm_compute; reflexivity|]. split; [vm_compute; reflexivity|].
  split; [exact Hremove|]. split; [exact Hgone|].
  rewrite (Hother 4) by discriminate. vm_compute. reflexivity.
Defined.

Lemma Insert_new_key_witness :
  ∃ h h', run std_hash_int 5 two_keys (New 2) = Ok h ∧
          Insert std_hash_int 5 16 160 h = Ok h' ∧
          global_depth_ h = 1 ∧ global_depth_ h' = 3 ∧
          Find std_hash_int 16 h' = Ok (Some 160) ∧
          Find std_hash_int 12 h' = Ok (Some 120).
Proof.
  eexists.
  match goal with |- ∃ h', run _ _ _ _ = Ok ?h ∧ _ =>
    destruct (Insert_new_key std_hash_int 3 5 5 two_keys 2 16 160 h)
      as (h' & Hinsert & Hfind & Hother)
  end.
  - lia.
  - vm_compute. reflexivity.
  - vm_compute. reflexivity.
  - lia.
  - lia.
  - intros bucket b Hat Hb _. vm_compute in Hat. injection Hat as <-.
    vm_compute in Hb. injection Hb as <-.
    exists (4, 40). split; [apply elem_of_cons; by left|]. vm_compute. discriminate.
  - exists h'. split; [vm_compute; reflexivity|]. split; [exact Hinsert|].
    split; [reflexivity|].
    split; [vm_compute in Hinsert; injection Hinsert as <-; reflexivity|].
    split; [exact Hfind|]. rewrite (Hother 12) by discriminate. vm_compute. reflexivity.
Defined.

Lemma num_buckets_is_never_updated_witness :
  ∃ h, run std_hash_int 5 (two_keys ++ [OpInsert 16 160]) (New 2) = Ok h ∧
       GetNumBucketsInternal h = 2 ∧ length (buckets_ h) = 4%nat.
Proof.
  eexists. split; [vm_compute; reflexivity|]. split; [|vm_compute; reflexivity].
  match goal with |- GetNumBucketsInternal ?h = 2 =>
    apply (num_buckets_is_never_updated std_hash_int 5 (two_keys ++ [OpInsert 16 160]) 2 h)
  end.
  vm_compute. reflexivity.
Defined.

End ExtendibleHashTableDirectory.

(** * Splitting a leaf of the B+Tree *)

Module BPlusTreeSplit.

Import BPlusTreePage BPlusTree BPlusTreeProperties BPlusTreePageInvariants BPlusTreeInvariants.

Lemma set_array_set_array (a b : gmap Z (Z * Z)) (p : BPlusTreePage.t) :
  set_array a (set_array b p) = set_array a p.
Proof. done. Qed.


(** ** A sorted run of entries cut in two leaves *)


End BPlusTreeSplit.

(** * The page table of the buffer pool *)

Module PageTableInvariants.

Import ExtendibleHashTable ExtendibleHashTableProperties ExtendibleHashTableInvariants
  ExtendibleHashTableDirectory.

Abbreviation hash := ExtendibleHashTable.std_hash_int.

(** [page_id_t] is a 32-bit integer. *)
Definition int32 (z : Z) : Prop := - 2 ^ 31 <= z < 2 ^ 31.

(** The page table of a pool: the directory invariant, buckets that hold
    at least one entry, and 32-bit page ids as keys. *)
Record table_ok (h : ExtendibleHashTable.t Z Z) : Prop := mk_table_ok {
  table_wf : well_formed hash h;
  table_room : (0 < bucket_size_ h)%nat;
  table_keys : ∀ page_id frame_id, Find hash page_id h = Ok (Some frame_id) → int32 page_id
}.

Lemma std_hash_int_inj (x y : Z) :
  int32 x → int32 y → same_low_bits 64 (hash x) (hash y) → x = y.
Proof.
  unfold int32, same_low_bits, std_hash_int. intros Hx Hy. rewrite !Z.mod_mod by lia.
  intros Heq.
  assert (Hd : (x - y) mod 2 ^ 64 = 0).
  { rewrite Zminus_mod, Heq, Z.sub_diag. done. }
  apply Z.mod_divide in Hd; [|lia]. destruct Hd as [c Hc]. lia.
Qed.

(** An entry of the bucket of a slot is found under its key. *)
Lemma Find_entry (h : ExtendibleHashTable.t Z Z) (i bucket : nat) (b : Bucket Z Z) (e : Z * Z) :
  well_formed hash h →
  dir_ h !! i = Some bucket → buckets_ h !! bucket = Some b → bucket_ok hash h i bucket b →
  e ∈ list_ b → Find hash e.1 h = Ok (Some e.2).
Proof.
  intros Hwf Hslot Hb Hok He.
  destruct (key_slot hash e.1 h Hwf) as (i' & bucket' & b' & Hidx & Hmod & Hslot' & Hat & Hb' & Hok').
  pose proof Hok as [Hrange Hcap Hfit Hnodup Hhere Hslots].
  assert (Hsame : dir_ h !! i' = Some bucket).
  { apply Hslots; [by eapply lookup_lt_Some|].
    unfold same_low_bits. rewrite Hmod. rewrite <- (Hhere e He).
    apply same_low_bits_mod; lia. }
  assert (bucket' = bucket) as -> by congruence.
  assert (b' = b) as -> by congruence.
  rewrite (Find_unfold hash e.1 h bucket b Hat Hb). f_equal. unfold BucketFind.
  apply list_find_key_Some; [done|]. by destruct e.
Qed.

(** A page id that is not in the page table can always be inserted: 64
    splits at most separate it from the entries of its bucket. *)
Lemma Insert_new_page_id (fuel : nat) (page_id frame_id : Z) (h : ExtendibleHashTable.t Z Z) :
  table_ok h → int32 page_id → Find hash page_id h = Ok None → (65 <= fuel)%nat →
  ∃ h', Insert hash fuel page_id frame_id h = Ok h' ∧ table_ok h' ∧
        Find hash page_id h' = Ok (Some frame_id) ∧
        ∀ page_id', page_id' ≠ page_id → Find hash page_id' h' = Find hash page_id' h.
Proof.
  intros [Hwf Hroom Hkeys] Hid Hfind Hfuel.
  destruct (InsertInternal_new_key hash 64 page_id frame_id fuel ltac:(lia) h Hwf Hroom Hfind
              ltac:(lia)) as (h' & Hins & Hnew & Hother).
  { intros i bucket b Hidx Hslot Hb Hfull.
    destruct (wf_bucket hash h Hwf i bucket Hslot) as (b0 & Hb0 & Hok).
    assert (b0 = b) as -> by congruence.
    pose proof Hok as [Hrange Hcap Hfit Hnodup Hhere Hslots].
    split; [lia|].
    destruct (list_ b) as [|e l] eqn:Hl.
    { unfold IsFull in Hfull. rewrite Hl in Hfull. apply Nat.eqb_eq in Hfull.
      simpl in Hfull. lia. }
    exists e. split; [apply elem_of_cons; by left|].
    assert (He : e ∈ list_ b) by (rewrite Hl; apply elem_of_cons; by left).
    pose proof (Find_entry h i bucket b e Hwf Hslot Hb Hok He) as Hfe.
    intros Hsame. apply std_hash_int_inj in Hsame; [|by eapply Hkeys|done].
    rewrite Hsame in Hfe. congruence. }
  exists h'. split; [done|].
  destruct (InsertInternal_well_formed hash page_id frame_id fuel h h' Hwf Hins) as (Hwf' & Hsize' & _).
  split; [|done]. split; [done|by rewrite Hsize'|].
  intros id f Hf. destruct (decide (id = page_id)) as [->|Hne]; [done|].
  rewrite Hother in Hf by done. by eapply Hkeys.
Qed.

End PageTableInvariants.

(** * Properties of the B+Tree on the buffer pool manager instance *)

Module BPlusTreeOnPoolProperties.

Import BPlusTreePage.
Import BufferPoolManagerInstance BufferPoolManagerInstanceProperties
  BufferPoolManagerInstanceInvariants PageTableInvariants.

Abbreviation hash := ExtendibleHashTable.std_hash_int.
Abbreviation Pool := (BufferPoolManagerInstance.t BPlusTreePage.t).
Abbreviation TreePage := (BufferPoolManagerInstance.Page BPlusTreePage.t).
Abbreviation Tree := BPlusTreeOnPool.t.
Abbreviation pool := BPlusTreeOnPool.buffer_pool_manager_.
Abbreviation table := (λ s : BPlusTreeOnPool.t, page_table_ (BPlusTreeOnPool.buffer_pool_manager_ s)).

(** ** The states of the pool that the tree goes through

    What a call of the pool that finds a frame does to the pool, written
    as a function of the frame; the lemmas after each definition say when
    the call is that function. *)

Section pool.

Variable table_fuel : nat.

(** [frame_id] is a frame of the pool. *)
Definition frame (b : Pool) (frame_id : Z) : Prop :=
  0 <= frame_id < Z.of_nat (length (BufferPoolManagerInstance.pages_ b)).

(** The tree page in a frame. *)
Definition data_at (frame_id : Z) (b : Pool) : result BPlusTreePage.t :=
  page ← page_at frame_id b; Ok (data_ page).

Lemma frame_page_at (b : Pool) (frame_id : Z) :
  frame b frame_id → ∃ page, page_at frame_id b = Ok page.
Proof.
  intros [H0 H1]. unfold page_at. destruct (Z.ltb_spec frame_id 0); [lia|].
  destruct (lookup_lt_is_Some_2 (BufferPoolManagerInstance.pages_ b) (Z.to_nat frame_id)) as [page Hp];
    [lia|].
  exists page. by rewrite Hp.
Qed.

Lemma page_at_frame (b : Pool) (frame_id : Z) (page : TreePage) :
  page_at frame_id b = Ok page → frame b frame_id.
Proof.
  intros Hp. apply page_at_inv in Hp as [H0 Hp]. apply lookup_lt_Some in Hp.
  unfold frame. lia.
Qed.

Lemma data_at_frame (b : Pool) (frame_id : Z) (d : BPlusTreePage.t) :
  data_at frame_id b = Ok d → frame b frame_id.
Proof.
  unfold data_at. destruct (page_at frame_id b) as [page| | |] eqn:Hp; try done.
  intros _. by eapply page_at_frame.
Qed.

Lemma frame_data_at (b : Pool) (frame_id : Z) :
  frame b frame_id → ∃ d, data_at frame_id b = Ok d.
Proof.
  intros Hf. destruct (frame_page_at b frame_id Hf) as [page Hp].
  exists (data_ page). unfold data_at. by rewrite Hp.
Qed.

Lemma list_insert_alter_lookup {A : Type} (h : A → A) (l : list A) (i : nat) (x : A) :
  l !! i = Some x → <[i := h x]> l = alter h i l.
Proof.
  intros Hx. apply list_eq. intros j. destruct (decide (i = j)) as [<-|Hne].
  - rewrite list_lookup_alter_eq, Hx. apply list_lookup_insert_eq. by eapply lookup_lt_Some.
  - by rewrite list_lookup_alter_ne, list_lookup_insert_ne.
Qed.

(** A change to the page of one frame. *)
Definition alter_page (h : TreePage → TreePage) (frame_id : Z) (b : Pool) : Pool :=
  if frame_id <? 0 then b
  else BufferPoolManagerInstance.mk (pool_size_ b)
         (alter h (Z.to_nat frame_id) (BufferPoolManagerInstance.pages_ b))
         (page_table_ b) (replacer_ b) (free_list_ b)
         (BufferPoolManagerInstance.next_page_id_ b) (disk_manager_ b).

Lemma set_page_alter_page (h : TreePage → TreePage) (frame_id : Z) (b : Pool) (page : TreePage) :
  page_at frame_id b = Ok page → set_page frame_id (h page) b = alter_page h frame_id b.
Proof.
  intros Hp. apply page_at_inv in Hp as [H0 Hp]. unfold set_page, alter_page.
  destruct (Z.ltb_spec frame_id 0); [lia|]. by rewrite (list_insert_alter_lookup h _ _ page).
Qed.

Lemma page_at_alter_page_eq (h : TreePage → TreePage) (frame_id : Z) (b : Pool) (page : TreePage) :
  page_at frame_id b = Ok page → page_at frame_id (alter_page h frame_id b) = Ok (h page).
Proof.
  intros Hp. apply page_at_inv in Hp as [H0 Hp]. unfold alter_page, page_at.
  destruct (Z.ltb_spec frame_id 0); [lia|]. simpl. by rewrite list_lookup_alter_eq, Hp.
Qed.

Lemma page_at_alter_page_ne (h : TreePage → TreePage) (frame_id frame_id' : Z) (b : Pool) :
  frame_id' ≠ frame_id → page_at frame_id' (alter_page h frame_id b) = page_at frame_id' b.
Proof.
  intros Hne. unfold alter_page, page_at.
  destruct (Z.ltb_spec frame_id 0); [done|]. simpl.
  destruct (Z.ltb_spec frame_id' 0); [done|].
  rewrite list_lookup_alter_ne; [done|lia].
Qed.

Lemma length_alter_page (h : TreePage → TreePage) (frame_id : Z) (b : Pool) :
  length (BufferPoolManagerInstance.pages_ (alter_page h frame_id b))
  = length (BufferPoolManagerInstance.pages_ b).
Proof. unfold alter_page. destruct (frame_id <? 0); [done|]. simpl. apply length_alter. Qed.

Lemma fields_alter_page (h : TreePage → TreePage) (frame_id : Z) (b : Pool) :
  page_table_ (alter_page h frame_id b) = page_table_ b ∧
  replacer_ (alter_page h frame_id b) = replacer_ b ∧
  free_list_ (alter_page h frame_id b) = free_list_ b ∧
  BufferPoolManagerInstance.next_page_id_ (alter_page h frame_id b)
  = BufferPoolManagerInstance.next_page_id_ b ∧
  disk_manager_ (alter_page h frame_id b) = disk_manager_ b ∧
  pool_size_ (alter_page h frame_id b) = pool_size_ b.
Proof. unfold alter_page. by destruct (frame_id <? 0). Qed.

(** [RecordAccess] and [SetEvictable(frame_id, false)], the part of
    [PostSuccessfullPageAllocation] on the replacer. *)
Definition touch (nanos frame_id : Z) (r : LRUKReplacer.t) : LRUKReplacer.t :=
  match LRUKReplacer.SetEvictable frame_id false (LRUKReplacer.RecordAccess nanos frame_id r) with
  | Ok r' => r'
  | _ => r
  end.

Lemma SetEvictable_touch (nanos frame_id : Z) (r : LRUKReplacer.t) :
  LRUKReplacer.SetEvictable frame_id false (LRUKReplacer.RecordAccess nanos frame_id r)
  = Ok (touch nanos frame_id r).
Proof.
  unfold touch.
  by destruct (SetEvictable_after_RecordAccess nanos frame_id false r) as (r' & -> & _).
Qed.


(** The page table after [Insert(page_id, frame_id)]. *)
Definition inserted (page_id frame_id : Z) (h : ExtendibleHashTable.t Z Z) : ExtendibleHashTable.t Z Z :=
  match ExtendibleHashTable.Insert hash table_fuel page_id frame_id h with
  | Ok h' => h'
  | _ => h
  end.

Lemma inserted_spec (page_id frame_id : Z) (h : ExtendibleHashTable.t Z Z) :
  table_ok h → int32 page_id → ExtendibleHashTable.Find hash page_id h = Ok None →
  (65 <= table_fuel)%nat →
  ExtendibleHashTable.Insert hash table_fuel page_id frame_id h = Ok (inserted page_id frame_id h) ∧
  table_ok (inserted page_id frame_id h) ∧
  ExtendibleHashTable.Find hash page_id (inserted page_id frame_id h) = Ok (Some frame_id) ∧
  ∀ page_id', page_id' ≠ page_id →
     ExtendibleHashTable.Find hash page_id' (inserted page_id frame_id h)
     = ExtendibleHashTable.Find hash page_id' h.
Proof.
  intros Hok Hid Hfind Hfuel. unfold inserted.
  by destruct (Insert_new_page_id table_fuel page_id frame_id h Hok Hid Hfind Hfuel)
    as (h' & -> & ? & ? & ?).
Qed.

(** *** [FetchPgImp] of a page in the page table *)

Definition pin (nanos frame_id : Z) (b : Pool) : Pool :=
  set_replacer (touch nanos frame_id (replacer_ b))
    (alter_page (λ page, mkPage (data_ page) (BufferPoolManagerInstance.page_id_ page)
                                (pin_count_ page + 1) (is_dirty_ page)) frame_id b).

Lemma FetchPgImp_pin (nanos page_id frame_id : Z) (b : Pool) :
  ExtendibleHashTable.Find hash page_id (page_table_ b) = Ok (Some frame_id) →
  frame b frame_id → (1 <= table_fuel)%nat →
  FetchPgImp zeroed table_fuel nanos page_id b = Ok (Some frame_id, pin nanos frame_id b).
Proof.
  intros Hfind Hframe Hfuel. destruct table_fuel as [|fuel] eqn:Hf; [lia|].
  destruct (frame_page_at b frame_id Hframe) as [page Hpage].
  unfold FetchPgImp. rewrite Hfind. unfold mbind, result_mbind. cbn [result_bind].
  rewrite Hpage. cbn [result_bind]. unfold PostSuccessfullPageAllocation.
  cbn [page_table_ set_page replacer_].
  rewrite (Insert_same_value hash fuel page_id frame_id _ Hfind).
  unfold mbind, result_mbind. cbn [result_bind]. rewrite SetEvictable_touch. cbn [result_bind].
  do 2 f_equal. unfold pin.
  rewrite <- (set_page_alter_page
                (λ page, mkPage (data_ page) (BufferPoolManagerInstance.page_id_ page)
                                (pin_count_ page + 1) (is_dirty_ page)) frame_id b page Hpage).
  by destruct b.
Qed.

(** *** [FetchPgImp] of a page that is not in the page table, and
        [NewPgImp], with a frame on the free list *)

Definition load (nanos page_id frame_id : Z) (b : Pool) : Pool :=
  set_replacer (touch nanos frame_id (replacer_ b))
    (set_page_table (inserted page_id frame_id (page_table_ b))
       (alter_page (λ page, mkPage (ReadPage zeroed page_id (disk_manager_ b)) page_id 1
                                   (is_dirty_ page)) frame_id
          (set_free_list (tail (free_list_ b)) b))).


Definition fresh (nanos frame_id : Z) (b : Pool) : Pool :=
  set_replacer (touch nanos frame_id (replacer_ b))
    (set_page_table (inserted (BufferPoolManagerInstance.next_page_id_ b) frame_id (page_table_ b))
       (alter_page (λ _, mkPage zeroed (BufferPoolManagerInstance.next_page_id_ b) 1 false) frame_id
          (set_free_list (tail (free_list_ b)) (AllocatePage b).2))).

Lemma NewPgImp_fresh (nanos frame_id : Z) (rest : list Z) (b : Pool) :
  free_list_ b = frame_id :: rest → frame b frame_id →
  table_ok (page_table_ b) →
  ExtendibleHashTable.Find hash (BufferPoolManagerInstance.next_page_id_ b) (page_table_ b) = Ok None →
  int32 (BufferPoolManagerInstance.next_page_id_ b) → (65 <= table_fuel)%nat →
  NewPgImp zeroed table_fuel nanos b
  = Ok (Some (BufferPoolManagerInstance.next_page_id_ b, frame_id), fresh nanos frame_id b).
Proof.
  intros Hfree Hframe Hok Hfind Hid Hfuel.
  destruct (frame_page_at b frame_id Hframe) as [page Hpage].
  destruct (inserted_spec _ frame_id (page_table_ b) Hok Hid Hfind Hfuel) as (Hins & _).
  unfold NewPgImp. rewrite Hfree. cbn [AllocatePage].
  set (b1 := BufferPoolManagerInstance.mk _ _ _ _ _ _ _).
  assert (Hpage' : page_at frame_id (set_free_list rest b1) = Ok page) by exact Hpage.
  unfold mbind, result_mbind. rewrite Hpage'. cbn [result_bind].
  unfold PostSuccessfullPageAllocation.
  cbn [page_table_ set_page set_free_list replacer_ b1].
  rewrite Hins. unfold mbind, result_mbind. cbn [result_bind].
  rewrite SetEvictable_touch. cbn [result_bind].
  do 2 f_equal. unfold fresh. rewrite Hfree. cbn [tail AllocatePage snd]. fold b1.
  rewrite <- (set_page_alter_page
                (λ _, mkPage zeroed (BufferPoolManagerInstance.next_page_id_ b) 1 false)
                frame_id (set_free_list rest b1) page Hpage').
  reflexivity.
Qed.

(** *** No frame to be had *)

Lemma FetchPgImp_NewPgImp_nullptr (nanos : Z) (b : Pool) :
  free_list_ b = [] → LRUKReplacer.Size (replacer_ b) = 0%nat →
  NewPgImp zeroed table_fuel nanos b = Ok (None, b) ∧
  ∀ page_id, ExtendibleHashTable.Find hash page_id (page_table_ b) = Ok None →
             FetchPgImp zeroed table_fuel nanos page_id b = Ok (None, b).
Proof.
  intros Hfree Hsize. unfold LRUKReplacer.Size in Hsize.
  apply length_zero_iff_nil in Hsize.
  assert (Hev : LRUKReplacer.Evict (replacer_ b) = (None, replacer_ b)).
  { unfold LRUKReplacer.Evict. by rewrite Hsize. }
  split.
  - unfold NewPgImp. by rewrite Hfree, Hev.
  - intros page_id Hfind. unfold FetchPgImp. rewrite Hfind. simpl. by rewrite Hfree, Hev.
Qed.

(** *** A member function called through a page pointer *)

Definition write (frame_id : Z) (g : BPlusTreePage.t → BPlusTreePage.t) (b : Pool) : Pool :=
  alter_page (λ page, mkPage (g (data_ page)) (BufferPoolManagerInstance.page_id_ page)
                             (pin_count_ page) (is_dirty_ page)) frame_id b.

(** *** [UnpinPgImp] *)




(** *** What the pool holds after each of them *)

Lemma pin_fields (nanos frame_id : Z) (b : Pool) :
  page_table_ (pin nanos frame_id b) = page_table_ b ∧
  free_list_ (pin nanos frame_id b) = free_list_ b ∧
  BufferPoolManagerInstance.next_page_id_ (pin nanos frame_id b)
  = BufferPoolManagerInstance.next_page_id_ b ∧
  disk_manager_ (pin nanos frame_id b) = disk_manager_ b ∧
  replacer_ (pin nanos frame_id b) = touch nanos frame_id (replacer_ b) ∧
  length (BufferPoolManagerInstance.pages_ (pin nanos frame_id b))
  = length (BufferPoolManagerInstance.pages_ b).
Proof.
  unfold pin. cbn [page_table_ free_list_ BufferPoolManagerInstance.next_page_id_ disk_manager_
                   replacer_ BufferPoolManagerInstance.pages_ set_replacer].
  destruct (fields_alter_page
              (λ page, mkPage (data_ page) (BufferPoolManagerInstance.page_id_ page)
                              (pin_count_ page + 1) (is_dirty_ page)) frame_id b)
    as (-> & _ & -> & -> & -> & _).
  by rewrite length_alter_page.
Qed.

Lemma page_at_pin_eq (nanos frame_id : Z) (b : Pool) (page : TreePage) :
  page_at frame_id b = Ok page →
  page_at frame_id (pin nanos frame_id b)
  = Ok (mkPage (data_ page) (BufferPoolManagerInstance.page_id_ page) (pin_count_ page + 1)
               (is_dirty_ page)).
Proof.
  intros Hp. unfold pin.
  exact (page_at_alter_page_eq
           (λ page, mkPage (data_ page) (BufferPoolManagerInstance.page_id_ page)
                           (pin_count_ page + 1) (is_dirty_ page)) frame_id b page Hp).
Qed.

Lemma page_at_pin_ne (nanos frame_id frame_id' : Z) (b : Pool) :
  frame_id' ≠ frame_id → page_at frame_id' (pin nanos frame_id b) = page_at frame_id' b.
Proof. intros Hne. unfold pin. by apply page_at_alter_page_ne. Qed.


Lemma write_fields (frame_id : Z) (g : BPlusTreePage.t → BPlusTreePage.t) (b : Pool) :
  page_table_ (write frame_id g b) = page_table_ b ∧
  free_list_ (write frame_id g b) = free_list_ b ∧
  BufferPoolManagerInstance.next_page_id_ (write frame_id g b)
  = BufferPoolManagerInstance.next_page_id_ b ∧
  disk_manager_ (write frame_id g b) = disk_manager_ b ∧
  replacer_ (write frame_id g b) = replacer_ b ∧
  length (BufferPoolManagerInstance.pages_ (write frame_id g b))
  = length (BufferPoolManagerInstance.pages_ b).
Proof.
  unfold write.
  destruct (fields_alter_page
              (λ page, mkPage (g (data_ page)) (BufferPoolManagerInstance.page_id_ page)
                              (pin_count_ page) (is_dirty_ page)) frame_id b)
    as (-> & -> & -> & -> & -> & _).
  by rewrite length_alter_page.
Qed.

Lemma page_at_write_eq (frame_id : Z) (g : BPlusTreePage.t → BPlusTreePage.t) (b : Pool)
    (page : TreePage) :
  page_at frame_id b = Ok page →
  page_at frame_id (write frame_id g b)
  = Ok (mkPage (g (data_ page)) (BufferPoolManagerInstance.page_id_ page) (pin_count_ page)
               (is_dirty_ page)).
Proof.
  intros Hp. unfold write.
  exact (page_at_alter_page_eq
           (λ page, mkPage (g (data_ page)) (BufferPoolManagerInstance.page_id_ page)
                           (pin_count_ page) (is_dirty_ page)) frame_id b page Hp).
Qed.

Lemma page_at_write_ne (frame_id frame_id' : Z) (g : BPlusTreePage.t → BPlusTreePage.t) (b : Pool) :
  frame_id' ≠ frame_id → page_at frame_id' (write frame_id g b) = page_at frame_id' b.
Proof. intros Hne. unfold write. by apply page_at_alter_page_ne. Qed.





Lemma page_at_load_ne (nanos page_id frame_id frame_id' : Z) (b : Pool) :
  frame_id' ≠ frame_id → page_at frame_id' (load nanos page_id frame_id b) = page_at frame_id' b.
Proof.
  intros Hne. unfold load.
  match goal with |- context [alter_page ?h ?f ?x] =>
    exact (page_at_alter_page_ne h f frame_id' x Hne)
  end.
Qed.


Lemma data_at_load_ne (nanos page_id frame_id frame_id' : Z) (b : Pool) :
  frame_id' ≠ frame_id → data_at frame_id' (load nanos page_id frame_id b) = data_at frame_id' b.
Proof. intros Hne. unfold data_at. by rewrite page_at_load_ne. Qed.

Lemma fresh_fields (nanos frame_id : Z) (b : Pool) :
  page_table_ (fresh nanos frame_id b)
  = inserted (BufferPoolManagerInstance.next_page_id_ b) frame_id (page_table_ b) ∧
  free_list_ (fresh nanos frame_id b) = tail (free_list_ b) ∧
  BufferPoolManagerInstance.next_page_id_ (fresh nanos frame_id b)
  = wrap_int32 (BufferPoolManagerInstance.next_page_id_ b + 1) ∧
  disk_manager_ (fresh nanos frame_id b) = disk_manager_ b ∧
  replacer_ (fresh nanos frame_id b) = touch nanos frame_id (replacer_ b) ∧
  length (BufferPoolManagerInstance.pages_ (fresh nanos frame_id b))
  = length (BufferPoolManagerInstance.pages_ b).
Proof.
  unfold fresh. cbn [page_table_ free_list_ BufferPoolManagerInstance.next_page_id_ disk_manager_
                     replacer_ BufferPoolManagerInstance.pages_ set_replacer set_page_table].
  match goal with |- context [alter_page ?h ?f ?x] =>
    destruct (fields_alter_page h f x) as (_ & _ & -> & -> & -> & _);
    rewrite (length_alter_page h f x)
  end.
  done.
Qed.

Lemma page_at_fresh_eq (nanos frame_id : Z) (b : Pool) :
  frame b frame_id →
  page_at frame_id (fresh nanos frame_id b)
  = Ok (mkPage zeroed (BufferPoolManagerInstance.next_page_id_ b) 1 false).
Proof.
  intros Hf. destruct (frame_page_at b frame_id Hf) as [page Hp]. unfold fresh.
  match goal with |- context [alter_page ?h ?f ?x] =>
    exact (page_at_alter_page_eq h f x page Hp)
  end.
Qed.

Lemma page_at_fresh_ne (nanos frame_id frame_id' : Z) (b : Pool) :
  frame_id' ≠ frame_id → page_at frame_id' (fresh nanos frame_id b) = page_at frame_id' b.
Proof.
  intros Hne. unfold fresh.
  match goal with |- context [alter_page ?h ?f ?x] =>
    exact (page_at_alter_page_ne h f frame_id' x Hne)
  end.
Qed.



(** The frames stay the frames. *)
Lemma frame_length (b b' : Pool) (frame_id : Z) :
  length (BufferPoolManagerInstance.pages_ b') = length (BufferPoolManagerInstance.pages_ b) →
  frame b frame_id → frame b' frame_id.
Proof. unfold frame. intros ->. done. Qed.




Lemma frame_fresh (nanos f frame_id : Z) (b : Pool) :
  frame b frame_id → frame (fresh nanos f b) frame_id.
Proof. apply frame_length. apply fresh_fields. Qed.






End pool.

(** ** The members of the pool after each call *)











(** ** Pools that differ in pin counts and in the replacer only *)

Definition same_page_but_pins (page page' : TreePage) : Prop :=
  data_ page' = data_ page ∧
  BufferPoolManagerInstance.page_id_ page' = BufferPoolManagerInstance.page_id_ page ∧
  is_dirty_ page' = is_dirty_ page ∧
  pin_count_ page <= pin_count_ page'.

(** [b'] has the page table, the free list, the page id counter and the
    disk of [b], and in every frame the page of [b] with its data, id and
    dirty flag, pinned at least as often. *)
Record only_pinned (b b' : Pool) : Prop := mk_only_pinned {
  op_table : page_table_ b' = page_table_ b;
  op_free : free_list_ b' = free_list_ b;
  op_next : BufferPoolManagerInstance.next_page_id_ b' = BufferPoolManagerInstance.next_page_id_ b;
  op_disk : disk_manager_ b' = disk_manager_ b;
  op_length : length (BufferPoolManagerInstance.pages_ b') = length (BufferPoolManagerInstance.pages_ b);
  op_pages : ∀ frame_id page, page_at frame_id b = Ok page →
               ∃ page', page_at frame_id b' = Ok page' ∧ same_page_but_pins page page'
}.

Lemma only_pinned_refl (b : Pool) : only_pinned b b.
Proof. split; try done. intros f page Hp. exists page. split; [done|]. by repeat split. Qed.

Lemma only_pinned_trans (b1 b2 b3 : Pool) :
  only_pinned b1 b2 → only_pinned b2 b3 → only_pinned b1 b3.
Proof.
  intros [Ht Hf Hn Hd Hl Hp] [Ht' Hf' Hn' Hd' Hl' Hp'].
  split; try congruence.
  intros f page Hpage. destruct (Hp f page Hpage) as (page2 & Hpage2 & H1 & H2 & H3 & H4).
  destruct (Hp' f page2 Hpage2) as (page3 & Hpage3 & H1' & H2' & H3' & H4').
  exists page3. split; [done|]. repeat split; try congruence. lia.
Qed.

Lemma only_pinned_pin (nanos frame_id : Z) (b : Pool) : only_pinned b (pin nanos frame_id b).
Proof.
  destruct (pin_fields nanos frame_id b) as (Ht & Hf & Hn & Hd & _ & Hl).
  split; try done. intros f page Hp. destruct (decide (f = frame_id)) as [->|Hne].
  - rewrite (page_at_pin_eq _ _ _ _ Hp). eexists. split; [done|]. repeat split; simpl. lia.
  - rewrite page_at_pin_ne by done. exists page. split; [done|]. by repeat split.
Qed.

Lemma only_pinned_data_at (b b' : Pool) (frame_id : Z) (d : BPlusTreePage.t) :
  only_pinned b b' → data_at frame_id b = Ok d → data_at frame_id b' = Ok d.
Proof.
  intros Hop. unfold data_at. destruct (page_at frame_id b) as [page| | |] eqn:Hp; try done.
  intros [= <-]. destruct (op_pages _ _ Hop _ _ Hp) as (page' & -> & Hd & _). simpl. by rewrite Hd.
Qed.

(** A frame whose flag in the replacer is [false]. *)
Definition shielded (frame_id : Z) (b : Pool) : Prop :=
  (LRUKReplacer.is_evictable_ <$> LRUKReplacer.frame_index_map_ (replacer_ b) !! frame_id)
  = Some false.

Lemma shielded_pin (nanos frame_id : Z) (b : Pool) : shielded frame_id (pin nanos frame_id b).
Proof.
  unfold shielded. rewrite (proj1 (proj2 (proj2 (proj2 (proj2 (pin_fields _ _ _)))))).
  unfold touch.
  by destruct (SetEvictable_after_RecordAccess nanos frame_id false (replacer_ b)) as (r' & -> & ?).
Qed.

(** ** The way down through pages that are in the pool *)

(** [path key b frame_id n leaf]: the page in [frame_id] leads in [n]
    steps to the leaf in the frame [leaf], and the page id read at every
    step is in the page table. *)
Inductive path (key : Z) (b : Pool) : Z → nat → Z → Prop :=
| path_leaf (frame_id : Z) (d : BPlusTreePage.t) :
    data_at frame_id b = Ok d → IsLeafPage d = true → path key b frame_id 0 frame_id
| path_child (frame_id frame_id' leaf : Z) (n : nat) (d : BPlusTreePage.t) :
    data_at frame_id b = Ok d → IsLeafPage d = false →
    ExtendibleHashTable.Find hash (ValueAt (BPlusTree.child_index key d - 1) d) (page_table_ b)
    = Ok (Some frame_id') →
    path key b frame_id' n leaf → path key b frame_id (S n) leaf.

Lemma path_frame (key : Z) (b : Pool) (frame_id leaf : Z) (n : nat) :
  path key b frame_id n leaf → frame b frame_id.
Proof. intros [f d Hd _|f f' l m d Hd _ _ _]; by eapply data_at_frame. Qed.

Lemma path_end (key : Z) (b : Pool) (frame_id leaf : Z) (n : nat) :
  path key b frame_id n leaf → ∃ d, data_at leaf b = Ok d ∧ IsLeafPage d = true.
Proof. induction 1; eauto. Qed.

Lemma path_only_pinned (key : Z) (b b' : Pool) (frame_id leaf : Z) (n : nat) :
  only_pinned b b' → path key b frame_id n leaf → path key b' frame_id n leaf.
Proof.
  intros Hop. induction 1 as [f d Hd Hleaf|f f' l m d Hd Hleaf Hfind _ IH].
  - apply (path_leaf key b' f d); [by eapply only_pinned_data_at|done].
  - apply (path_child key b' f f' l m d); [by eapply only_pinned_data_at|done| |done].
    by rewrite (op_table _ _ Hop).
Qed.


(** ** Writes to one frame *)


Lemma write_ext (frame_id : Z) (g g' : BPlusTreePage.t → BPlusTreePage.t) (b : Pool)
    (d : BPlusTreePage.t) :
  data_at frame_id b = Ok d → g d = g' d → write frame_id g b = write frame_id g' b.
Proof.
  unfold data_at. destruct (page_at frame_id b) as [page| | |] eqn:Hp; try done.
  intros [= <-] Hg. apply page_at_inv in Hp as [H0 Hp].
  unfold write, alter_page. destruct (frame_id <? 0); [done|]. f_equal.
  apply list_alter_ext; [|done]. intros x Hx. rewrite Hp in Hx. injection Hx as <-.
  by rewrite Hg.
Qed.


(** ** The calls of the tree *)

Section tree.

Variable table_fuel : nat.
Variable now : nat → Z.

Import BPlusTreeOnPool.

Lemma page_data_data_at (ptr : Z) (s : Tree) : page_data ptr s = data_at ptr (pool s).
Proof. reflexivity. Qed.

Lemma on_page_write (ptr : Z) (g : BPlusTreePage.t → BPlusTreePage.t) (s : Tree) :
  frame (pool s) ptr → on_page ptr g s = Ok (set_pool (write ptr g (pool s)) s).
Proof.
  intros Hf. destruct (frame_page_at _ _ Hf) as [page Hp]. unfold on_page. rewrite Hp.
  unfold mbind, result_mbind. cbn [result_bind]. do 2 f_equal.
  exact (set_page_alter_page
           (λ page, mkPage (g (data_ page)) (BufferPoolManagerInstance.page_id_ page)
                           (pin_count_ page) (is_dirty_ page)) ptr (pool s) page Hp).
Qed.

Lemma FetchPage_pin (page_id frame_id : Z) (s : Tree) :
  ExtendibleHashTable.Find hash page_id (table s) = Ok (Some frame_id) →
  frame (pool s) frame_id → (1 <= table_fuel)%nat →
  FetchPage table_fuel now page_id s
  = Ok (Some frame_id, tick (set_pool (pin (now (clock_ s)) frame_id (pool s)) s)).
Proof.
  intros Hfind Hf Hfuel. unfold FetchPage.
  by rewrite (FetchPgImp_pin table_fuel _ page_id frame_id (pool s) Hfind Hf Hfuel).
Qed.


Lemma NewPage_fresh (frame_id : Z) (rest : list Z) (s : Tree) :
  free_list_ (pool s) = frame_id :: rest → frame (pool s) frame_id →
  table_ok (table s) →
  ExtendibleHashTable.Find hash (BufferPoolManagerInstance.next_page_id_ (pool s)) (table s) = Ok None →
  int32 (BufferPoolManagerInstance.next_page_id_ (pool s)) → (65 <= table_fuel)%nat →
  NewPage table_fuel now s
  = Ok (Some (BufferPoolManagerInstance.next_page_id_ (pool s), frame_id),
        tick (set_pool (fresh table_fuel (now (clock_ s)) frame_id (pool s)) s)).
Proof.
  intros Hfree Hf Hok Hfind Hid Hfuel. unfold NewPage.
  by rewrite (NewPgImp_fresh table_fuel _ frame_id rest (pool s) Hfree Hf Hok Hfind Hid Hfuel).
Qed.


Lemma NewPage_nullptr (s : Tree) :
  free_list_ (pool s) = [] → LRUKReplacer.Size (replacer_ (pool s)) = 0%nat →
  NewPage table_fuel now s = Ok (None, tick s).
Proof.
  intros Hfree Hsize. unfold NewPage.
  rewrite (proj1 (FetchPgImp_NewPgImp_nullptr table_fuel _ (pool s) Hfree Hsize)).
  by destruct s.
Qed.

(** ** A page that is its own child

    [descend] from a page that is not a leaf and whose child for [key] is
    the page itself fetches that page again and again. *)




(** The members of the tree object, the pool apart. *)
Definition same_tree (s s' : Tree) : Prop :=
  root_page_id_ s' = root_page_id_ s ∧ leaf_max_size_ s' = leaf_max_size_ s ∧
  internal_max_size_ s' = internal_max_size_ s ∧ header_record_ s' = header_record_ s.

Lemma descend_path (key : Z) (b : Pool) (frame_id leaf : Z) (n : nat) :
  (1 <= table_fuel)%nat →
  path key b frame_id n leaf →
  ∀ (fuel : nat) (s : Tree),
    (n < fuel)%nat → only_pinned b (pool s) →
    ∃ s', descend table_fuel now fuel key frame_id s = Ok (leaf, s') ∧
          same_tree s s' ∧ only_pinned (pool s) (pool s') ∧
          (shielded frame_id (pool s) → shielded leaf (pool s')).
Proof.
  intros Hfuel. induction 1 as [f d Hd Hleaf|f f' l m d Hd Hleaf Hfind Hpath IH];
    intros fuel s Hn Hop; (destruct fuel as [|fuel]; [lia|]).
  - exists s. cbn [descend]. rewrite page_data_data_at, (only_pinned_data_at _ _ _ _ Hop Hd).
    unfold mbind, result_mbind. cbn [result_bind]. rewrite Hleaf.
    split; [done|]. split; [done|]. split; [apply only_pinned_refl|done].
  - cbn [descend]. rewrite page_data_data_at, (only_pinned_data_at _ _ _ _ Hop Hd).
    unfold mbind, result_mbind. cbn [result_bind]. rewrite Hleaf.
    assert (Hframe : frame (pool s) f').
    { eapply frame_length; [apply (op_length _ _ Hop)|]. by eapply path_frame. }
    rewrite (FetchPage_pin _ f' s) by (done || by rewrite (op_table _ _ Hop)).
    cbn [result_bind fst snd GetData deref].
    set (s1 := tick _).
    assert (Hop1 : only_pinned (pool s) (pool s1)) by apply only_pinned_pin.
    destruct (IH fuel s1) as (s' & Hrun & Htree & Hop' & Hshield);
      [lia|by eapply only_pinned_trans|].
    exists s'. split; [done|]. split; [exact Htree|].
    split; [by eapply only_pinned_trans|].
    intros _. apply Hshield. apply shielded_pin.
Qed.

(** [GetValue] and [Remove] on a tree whose root and whose pages on the
    way to the leaf are in the pool: both return; [GetValue] reports what
    the leaf holds for the key; [Remove] of a key the leaf does not hold
    does what [GetValue] does to the pool. *)
Lemma GetValue_Remove_path (fuel : nat) (key : Z) (s : Tree) (root_frame leaf : Z) (n : nat)
    (lp : BPlusTreePage.t) :
  (1 <= table_fuel)%nat →
  ExtendibleHashTable.Find hash (root_page_id_ s) (table s) = Ok (Some root_frame) →
  path key (pool s) root_frame n leaf → (n < fuel)%nat →
  data_at leaf (pool s) = Ok lp →
  ∃ s', GetValue table_fuel now fuel key s = Ok (BPlusTreeInvariants.leaf_lookup key lp, s') ∧
        (BPlusTreeInvariants.not_a_key key lp → Remove table_fuel now fuel key s = Ok s') ∧
        same_tree s s' ∧ only_pinned (pool s) (pool s') ∧ shielded leaf (pool s') ∧
        ∀ page, page_at root_frame (pool s) = Ok page →
                ∃ page', page_at root_frame (pool s') = Ok page' ∧
                         pin_count_ page < pin_count_ page'.
Proof.
  intros Hfuel Hfind Hpath Hn Hlp.
  pose proof (path_frame _ _ _ _ _ Hpath) as Hframe.
  pose proof (FetchPage_pin _ root_frame s Hfind Hframe Hfuel) as Hfetch.
  set (s1 := tick _) in Hfetch.
  assert (Hop1 : only_pinned (pool s) (pool s1)) by apply only_pinned_pin.
  destruct (descend_path key (pool s) root_frame leaf n Hfuel Hpath fuel s1 Hn Hop1)
    as (s' & Hrun & Htree & Hop' & Hshield).
  assert (Hop : only_pinned (pool s) (pool s')) by (by eapply only_pinned_trans).
  pose proof (only_pinned_data_at _ _ _ _ Hop Hlp) as Hlp'.
  exists s'. split; [|split; [|split; [|split; [|split]]]].
  - unfold GetValue. rewrite Hfetch. unfold mbind, result_mbind.
    cbn [result_bind fst snd GetData deref]. rewrite Hrun. cbn [result_bind fst snd].
    rewrite page_data_data_at, Hlp'. cbn [result_bind].
    unfold BPlusTreeInvariants.leaf_lookup. by destruct (BPlusTree.leaf_scan _ _ _ _).
  - intros Habs. unfold Remove. rewrite Hfetch. unfold mbind, result_mbind.
    cbn [result_bind fst snd GetData deref]. rewrite Hrun. cbn [result_bind fst snd].
    rewrite page_data_data_at, Hlp'. cbn [result_bind].
    by rewrite BPlusTreeInvariants.leaf_scan_absent.
  - exact Htree.
  - exact Hop.
  - apply Hshield. apply shielded_pin.
  - intros page Hpage.
    pose proof (page_at_pin_eq (now (clock_ s)) root_frame (pool s) page Hpage) as Hpinned.
    destruct (op_pages _ _ Hop' _ _ Hpinned) as (page' & Hpage' & _ & _ & _ & Hpin).
    exists page'. split; [done|]. simpl in Hpin. lia.
Qed.


(** ** An empty tree *)



(** X17.  [Remove] of a key that the leaf at the end of the descent does
    not hold, on a tree whose root and whose pages on the way to the leaf
    are in the pool.  The call returns and [GetValue] does not find the key.
    Nothing is written: root page id and header record stay, and the pool
    keeps its page table, free list, disk and, in every frame, the page
    with its data, page id and dirty flag.  But every page on the way has
    been fetched and none unpinned: no pin count is lower, the pin count of
    the root page is higher, and the frame of the leaf is flagged not
    evictable in the replacer. *)
Theorem Remove_missing_key (fuel : nat) (key : Z) (s : Tree) (root_frame leaf : Z) (n : nat)
    (lp : BPlusTreePage.t) (root_page : TreePage) :
  (1 <= table_fuel)%nat →
  ExtendibleHashTable.Find hash (root_page_id_ s) (table s) = Ok (Some root_frame) →
  page_at root_frame (pool s) = Ok root_page →
  path key (pool s) root_frame n leaf → (n < fuel)%nat →
  data_at leaf (pool s) = Ok lp →
  BPlusTreeInvariants.not_a_key key lp →
  ∃ s', Remove table_fuel now fuel key s = Ok s' ∧
        GetValue table_fuel now fuel key s = Ok (false, [], s') ∧
        root_page_id_ s' = root_page_id_ s ∧ header_record_ s' = header_record_ s ∧
        only_pinned (pool s) (pool s') ∧
        (∃ root_page', page_at root_frame (pool s') = Ok root_page' ∧
                       pin_count_ root_page < pin_count_ root_page') ∧
        (LRUKReplacer.is_evictable_ <$>
           LRUKReplacer.frame_index_map_ (replacer_ (pool s')) !! leaf) = Some false.
Proof.
  intros Hfuel Hfind Hroot Hpath Hn Hlp Habs.
  destruct (GetValue_Remove_path fuel key s root_frame leaf n lp Hfuel Hfind Hpath Hn Hlp)
    as (s' & Hget & Hrm & (Hr & _ & _ & Hh) & Hop & Hshield & Hpin).
  exists s'. split; [by apply Hrm|]. split.
  - rewrite Hget. by rewrite BPlusTreeInvariants.leaf_lookup_absent.
  - split; [done|]. split; [done|]. split; [done|]. split; [by apply Hpin|done].
Qed.

(** ** The first key *)

(** The root leaf that [Insert] makes in a new page. *)
Definition first_leaf (page_id max_size key value : Z) : BPlusTreePage.t :=
  InsertKVPairAt 0 (key, value)
    (SetIsRootPage true (SetPageType LEAF_PAGE (Leaf.Init page_id INVALID_PAGE_ID max_size zeroed))).

Lemma first_leaf_lookup (page_id max_size key value key' : Z) :
  BPlusTreeInvariants.leaf_lookup key' (first_leaf page_id max_size key value)
  = if decide (key' = key) then (true, [value]) else (false, []).
Proof.
  set (root := first_leaf page_id max_size key value).
  assert (Hpair : GetPairAtIndex 0 root = (key, value)).
  { unfold GetPairAtIndex, root, first_leaf. rewrite BPlusTreePageInvariants.InsertKVPairAt_slot.
    by destruct (decide (0 = 0)). }
  assert (Hkey : KeyAt 0 root = key) by (unfold KeyAt; fold (GetPairAtIndex 0 root); by rewrite Hpair).
  destruct (decide (key' = key)) as [->|Hne].
  - rewrite (BPlusTreeInvariants.leaf_lookup_at key root 0);
      [|intros a b ? ? Hb; simpl in Hb; lia|done|done|done].
    unfold ValueAt. fold (GetPairAtIndex 0 root). by rewrite Hpair.
  - apply BPlusTreeInvariants.leaf_lookup_absent.
    intros j Hj0 Hj1. change (GetSize root) with 1 in Hj1.
    assert (j = 0) as -> by lia. congruence.
Qed.

Ltac tree_simpl :=
  unfold mbind, result_mbind, set_pool, set_root, tick, set_header_record;
  cbn [result_bind deref fst snd buffer_pool_manager_ clock_ root_page_id_ leaf_max_size_
       internal_max_size_ header_record_ GetData].

(** X19.  [Insert] on an empty tree whose [leaf_max_size] is not 0.
    - With an empty free list and no candidate in the replacer [NewPage]
      returns [nullptr], and [Init] is called through it: undefined.
    - With a frame on the free list (and a page table that has room for
      the next page id) the call returns [true]: the frame holds the new
      root, a leaf with the one pair, no parent and no next leaf, under the
      next page id of the pool, clean and pinned twice (by [NewPage] and by
      [FetchPage], neither undone); the root page id is that page id and
      the page table maps it to the frame; the frame is off the free list,
      the page id counter has moved on in 32 bits, and no other frame has
      changed.  Afterwards [GetValue] finds the value for the key and
      nothing for any other key. *)
Theorem Insert_into_empty_tree (fuel : nat) (key value : Z) (s : Tree) :
  root_page_id_ s = INVALID_PAGE_ID →
  leaf_max_size_ s ≠ 0 →
  (free_list_ (pool s) = [] → LRUKReplacer.Size (replacer_ (pool s)) = 0%nat →
   Insert table_fuel now (S fuel) key value s = Undefined) ∧
  (∀ frame_id rest,
     free_list_ (pool s) = frame_id :: rest → frame (pool s) frame_id →
     table_ok (table s) → (65 <= table_fuel)%nat →
     ExtendibleHashTable.Find hash (BufferPoolManagerInstance.next_page_id_ (pool s)) (table s)
     = Ok None →
     int32 (BufferPoolManagerInstance.next_page_id_ (pool s)) →
     let page_id := BufferPoolManagerInstance.next_page_id_ (pool s) in
     ∃ s', Insert table_fuel now (S fuel) key value s = Ok (true, s') ∧
           root_page_id_ s' = page_id ∧
           ExtendibleHashTable.Find hash page_id (table s') = Ok (Some frame_id) ∧
           page_at frame_id (pool s')
           = Ok (mkPage (first_leaf page_id (leaf_max_size_ s) key value) page_id 2 false) ∧
           (∀ f, f ≠ frame_id → page_at f (pool s') = page_at f (pool s)) ∧
           free_list_ (pool s') = rest ∧
           BufferPoolManagerInstance.next_page_id_ (pool s') = wrap_int32 (page_id + 1) ∧
           (∃ s'', GetValue table_fuel now (S fuel) key s' = Ok (true, [value], s'')) ∧
           ∀ key', key' ≠ key →
                   ∃ s'', GetValue table_fuel now (S fuel) key' s' = Ok (false, [], s'')).
Proof.
  destruct s as [R m im b hdr c].
  cbn [root_page_id_ leaf_max_size_ buffer_pool_manager_].
  intros -> Hmax. split.
  { intros Hfree Hsize. unfold Insert. cbn [root_page_id_]. change (INVALID_PAGE_ID =? INVALID_PAGE_ID) with true.
    cbv iota. rewrite NewPage_nullptr by done. done. }
  intros f rest Hfree Hframe Hok Hfuel Hfind Hid.
  set (page_id := BufferPoolManagerInstance.next_page_id_ b) in *.
  destruct (inserted_spec table_fuel page_id f (page_table_ b) Hok Hid Hfind Hfuel)
    as (_ & Hok1 & Hfind1 & Hother1).
  set (init := λ p : BPlusTreePage.t,
         SetIsRootPage true (SetPageType LEAF_PAGE (Leaf.Init page_id INVALID_PAGE_ID m p))).
  set (b1 := fresh table_fuel (now c) f b).
  set (b2 := write f init b1).
  set (b3 := pin (now (S c)) f b2).
  set (b4 := write f (InsertKVPairAt 0 (key, value)) b3).
  assert (Hp1 : page_at f b1 = Ok (mkPage zeroed page_id 1 false)) by (by apply page_at_fresh_eq).
  assert (Hp2 : page_at f b2 = Ok (mkPage (init zeroed) page_id 1 false))
    by exact (page_at_write_eq f init b1 _ Hp1).
  assert (Hp3 : page_at f b3 = Ok (mkPage (init zeroed) page_id 2 false))
    by exact (page_at_pin_eq (now (S c)) f b2 _ Hp2).
  assert (Hp4 : page_at f b4 = Ok (mkPage (first_leaf page_id m key value) page_id 2 false))
    by exact (page_at_write_eq f (InsertKVPairAt 0 (key, value)) b3 _ Hp3).
  assert (Ht1 : page_table_ b1 = inserted table_fuel page_id f (page_table_ b))
    by apply fresh_fields.
  assert (Ht2 : page_table_ b2 = page_table_ b1) by apply write_fields.
  assert (Ht3 : page_table_ b3 = page_table_ b2) by apply pin_fields.
  assert (Ht4 : page_table_ b4 = page_table_ b3) by apply write_fields.
  assert (Hrun : Insert table_fuel now (S fuel) key value (mk INVALID_PAGE_ID m im b hdr c)
                 = Ok (true, mk page_id m im b4 hdr (S (S c)))).
  { unfold Insert. cbn [root_page_id_]. change (INVALID_PAGE_ID =? INVALID_PAGE_ID) with true.
    cbv iota. rewrite (NewPage_fresh f rest) by done.
    tree_simpl.
    fold page_id b1. rewrite on_page_write by (by apply frame_fresh).
    tree_simpl.
    fold init b2.
    rewrite (FetchPage_pin page_id f);
      [|cbn [buffer_pool_manager_]; by rewrite Ht2, Ht1
       |eapply page_at_frame; exact Hp2|lia].
    tree_simpl.
    fold b3. cbn [descend]. rewrite page_data_data_at. cbn [buffer_pool_manager_].
    assert (Hd3 : data_at f b3 = Ok (init zeroed)) by (unfold data_at; by rewrite Hp3).
    rewrite Hd3. tree_simpl. change (IsLeafPage (init zeroed)) with true. cbv iota. tree_simpl.
    rewrite page_data_data_at. cbn [buffer_pool_manager_]. rewrite Hd3. tree_simpl.
    change (GetSize (init zeroed)) with 0.
    destruct (Z.eqb_spec 0 m) as [<-|_]; [done|].
    change (FindIndexInLeafPageJustGreaterThanKey key (init zeroed)) with 0.
    change (0 =? -1) with false. cbv iota.
    rewrite on_page_write by (eapply page_at_frame; exact Hp3).
    reflexivity. }
  exists (mk page_id m im b4 hdr (S (S c))).
  cbn [root_page_id_ leaf_max_size_ buffer_pool_manager_].
  split; [exact Hrun|]. split; [done|].
  split; [by rewrite Ht4, Ht3, Ht2, Ht1|]. split; [exact Hp4|].
  split.
  { intros f' Hne. unfold b4, b3, b2, b1.
    by rewrite page_at_write_ne, page_at_pin_ne, page_at_write_ne, page_at_fresh_ne. }
  split.
  { unfold b4, b3, b2, b1.
    rewrite (proj1 (proj2 (write_fields _ _ _))), (proj1 (proj2 (pin_fields _ _ _))),
      (proj1 (proj2 (write_fields _ _ _))), (proj1 (proj2 (fresh_fields _ _ _ _))).
    by rewrite Hfree. }
  split.
  { unfold b4, b3, b2, b1.
    rewrite (proj1 (proj2 (proj2 (write_fields _ _ _)))), (proj1 (proj2 (proj2 (pin_fields _ _ _)))),
      (proj1 (proj2 (proj2 (write_fields _ _ _)))), (proj1 (proj2 (proj2 (fresh_fields _ _ _ _)))).
    done. }
  assert (Hdata : data_at f b4 = Ok (first_leaf page_id m key value)).
  { unfold data_at. by rewrite Hp4. }
  assert (Hget : ∀ k, ∃ s'', GetValue table_fuel now (S fuel) k (mk page_id m im b4 hdr (S (S c)))
                             = Ok (BPlusTreeInvariants.leaf_lookup k (first_leaf page_id m key value), s'')).
  { intros k.
    destruct (GetValue_Remove_path (S fuel) k (mk page_id m im b4 hdr (S (S c))) f f 0
                (first_leaf page_id m key value)) as (s'' & Hget & _); try done; try lia.
    - cbn [root_page_id_ buffer_pool_manager_]. by rewrite Ht4, Ht3, Ht2, Ht1.
    - by apply (path_leaf k b4 f (first_leaf page_id m key value)).
    - by exists s''. }
  split.
  - destruct (Hget key) as [s'' Hs'']. exists s''. rewrite Hs'', first_leaf_lookup.
    by destruct (decide (key = key)).
  - intros key' Hne. destruct (Hget key') as [s'' Hs'']. exists s''.
    rewrite Hs'', first_leaf_lookup. by destruct (decide (key' = key)).
Qed.

(** ** Splitting the root leaf *)














(** ** A full root leaf *)




End tree.

(** ** Trees on new pools *)

Lemma table_ok_New (bucket_size : nat) :
  (0 < bucket_size)%nat → table_ok (ExtendibleHashTable.New bucket_size).
Proof.
  intros Hsize.
  pose proof (ExtendibleHashTableDirectory.New_well_formed (K := Z) (V := Z) hash bucket_size) as Hwf.
  split; [done|done|].
  intros page_id frame_id.
  destruct (ExtendibleHashTableDirectory.key_slot hash page_id _ Hwf)
    as (i & bucket & b & _ & _ & _ & Hat & Hb & _).
  rewrite (ExtendibleHashTableInvariants.Find_unfold hash page_id _ bucket b Hat Hb).
  destruct bucket as [|[|bucket]]; simpl in Hb; [| |done]; by injection Hb as <-.
Qed.

(** A pool of [pool_size] frames with buckets of four entries and
    [k = 2], and a clock that reads the number of the call. *)
Definition new_pool (pool_size : nat) : Pool := BufferPoolManagerInstance.New zeroed pool_size 4 2.

Definition call_number (n : nat) : Z := Z.of_nat n.

Lemma table_ok_new_pool (pool_size : nat) : table_ok (page_table_ (new_pool pool_size)).
Proof. apply table_ok_New. lia. Qed.





(** A tree on a pool of three frames whose root is a leaf with the keys
    5, 10, 15, 20 and room for a fifth. *)
Definition resident_tree : Tree :=
  match BPlusTreeOnPool.Insert 70 call_number 50 10 10 (BPlusTreeOnPool.New (new_pool 3) 5 5 None) with
  | Ok r1 =>
      match BPlusTreeOnPool.Insert 70 call_number 50 20 20 r1.2 with
      | Ok r2 =>
          match BPlusTreeOnPool.Insert 70 call_number 50 5 5 r2.2 with
          | Ok r3 =>
              match BPlusTreeOnPool.Insert 70 call_number 50 15 15 r3.2 with
              | Ok r4 => r4.2
              | _ => r3.2
              end
          | _ => r2.2
          end
      | _ => r1.2
      end
  | _ => BPlusTreeOnPool.New (new_pool 3) 5 5 None
  end.

Definition resident_root_page : TreePage :=
  match page_at 0 (pool resident_tree) with
  | Ok page => page
  | _ => NewPage_ zeroed
  end.

Lemma Remove_missing_key_witness :
  ∃ s', BPlusTreeOnPool.Remove 70 call_number 50 7 resident_tree = Ok s' ∧
        BPlusTreeOnPool.GetValue 70 call_number 50 7 resident_tree = Ok (false, [], s') ∧
        only_pinned (pool resident_tree) (pool s').
Proof.
  destruct (Remove_missing_key 70 call_number 50 7 resident_tree 0 0 0 (data_ resident_root_page)
              resident_root_page)
    as (s' & Hrm & Hget & _ & _ & Hop & _).
  - lia.
  - vm_compute. reflexivity.
  - vm_compute. reflexivity.
  - apply (path_leaf 7 _ 0 (data_ resident_root_page)); vm_compute; reflexivity.
  - lia.
  - vm_compute. reflexivity.
  - intros j Hj0 Hj1. change (GetSize (data_ resident_root_page)) with 4 in Hj1.
    assert (Hc : j = 0 ∨ j = 1 ∨ j = 2 ∨ j = 3) by lia.
    destruct Hc as [-> | [-> | [-> | ->]]]; vm_compute; discriminate.
  - exists s'. split; [exact Hrm|]. split; [exact Hget|exact Hop].
Defined.

Lemma Insert_into_empty_tree_witness :
  BPlusTreeOnPool.Insert 70 call_number 1 10 100 (BPlusTreeOnPool.New (new_pool 0) 3 3 None) = Undefined ∧
  ∃ s', BPlusTreeOnPool.Insert 70 call_number 1 10 100 (BPlusTreeOnPool.New (new_pool 3) 3 3 None)
        = Ok (true, s') ∧
        BPlusTreeOnPool.root_page_id_ s' = 0 ∧
        page_at 0 (pool s') = Ok (mkPage (first_leaf 0 3 10 100) 0 2 false) ∧
        free_list_ (pool s') = [1; 2].
Proof.
  split.
  - destruct (Insert_into_empty_tree 70 call_number 0 10 100
                (BPlusTreeOnPool.New (new_pool 0) 3 3 None) eq_refl ltac:(discriminate)) as [H _].
    apply H; reflexivity.
  - destruct (Insert_into_empty_tree 70 call_number 0 10 100
                (BPlusTreeOnPool.New (new_pool 3) 3 3 None) eq_refl ltac:(discriminate)) as [_ H].
    destruct (H 0 [1; 2] eq_refl ltac:(unfold frame; simpl; lia) (table_ok_new_pool 3)
                ltac:(lia) eq_refl ltac:(unfold int32; simpl; lia))
      as (s' & Hins & Hroot & _ & Hpage & _ & Hfree & _).
    exists s'. split; [exact Hins|]. split; [exact Hroot|]. split; [exact Hpage|exact Hfree].
Defined.


Definition insert_all (l : list (Z * Z)) (s : Tree) : Tree :=
  fold_left (λ s kv, match BPlusTreeOnPool.Insert 70 call_number 50 kv.1 kv.2 s with
                     | Ok r => r.2
                     | _ => s
                     end) l s.





End BPlusTreeOnPoolProperties.
